(** * SecureChatService: end-to-end encrypted session layer

    Shallow embedding of [frontend-v2/src/service/SecureChatService.ts].

    The class is a thin layer over three collaborators that are not part
    of the repository:
    - the platform's [TextEncoder] / [TextDecoder] (WHATWG Encoding),
      which the class instantiates itself and which [sodium.from_string]
      and [sodium.to_string] use when the platform has them;
    - [@stablelib/chacha]'s [streamXOR];
    - [libsodium-wrappers] ([sodium.*]).

    The text codecs, the hexadecimal codec, the ChaCha20 stream and the
    ChaCha20-Poly1305 (IETF) construction are embedded as executable
    functions, after the Encoding Standard, RFC 8439 and the libraries'
    sources, with the errors the JavaScript wrappers throw.  The curve
    arithmetic (X25519 scalar multiplication) and the Ed25519 signature
    primitives are parameters of the development, the class [Primitives]:
    the class only moves their results around.

    Values: a [Uint8Array] is a list of bytes held in [Z]; a JavaScript
    string is its list of UTF-16 code units; a thrown value is an
    [Exception] carrying the constructor that built it and its message.
    Randomness ([randombytes_buf], key generation) is an explicit input.
    Memory limits of the engine and of the WebAssembly heap are outside
    the model: an array has any length.

    The class is the module [SecureChatService]; the accessor
    [getSecureChatService], which hands out one shared object, is the
    module [Accessor], over a store of objects and references to
    them. *)

From Stdlib Require Import ZArith Bool Ascii String List Lia.
Import ListNotations.
Local Open Scope Z_scope.

(** ** JavaScript values *)

Definition Uint8Array := list Z.
Definition JsString := list Z.

Definition byte (b : Z) : Prop := 0 <= b < 256.
Definition code_unit (c : Z) : Prop := 0 <= c < 65536.

(** A value of the String type: 16-bit code units, at most 2^53 - 1 of
    them. *)
Definition js_string (s : JsString) : Prop :=
  Forall code_unit s /\ Z.of_nat (length s) <= 2 ^ 53 - 1.

(** [new Uint8Array(n)] *)
Definition new_Uint8Array (n : nat) : Uint8Array := repeat 0 n.

(** [a[i] = v] on a copy of [a]. *)
Definition set_at (i : nat) (v : Z) (a : list Z) : list Z :=
  firstn i a ++ v :: skipn (S i) a.

(** The constructor of a thrown object. *)
Inductive ErrorClass : Type := Error | TypeError.

Record Exception : Type := mkException {
  exn_class : ErrorClass;
  exn_message : string
}.

Inductive result (A : Type) : Type :=
| Ok (a : A)
| Throw (e : Exception).
Arguments Ok {A} a.
Arguments Throw {A} e.

Definition bind {A B : Type} (r : result A) (k : A -> result B) : result B :=
  match r with
  | Ok a => k a
  | Throw e => Throw e
  end.

Notation "x <- r ;; k" := (bind r (fun x => k))
  (at level 61, r at next level, right associativity).

Definition is_ok {A : Type} (r : result A) : bool :=
  match r with Ok _ => true | Throw _ => false end.

Definition list_eqb (a b : list Z) : bool :=
  if list_eq_dec Z.eq_dec a b then true else false.

(** ** WHATWG Encoding: [TextEncoder] and [TextDecoder] *)
Module Encoding.

Definition is_lead (c : Z) : bool := (0xD800 <=? c) && (c <=? 0xDBFF).
Definition is_trail (c : Z) : bool := (0xDC00 <=? c) && (c <=? 0xDFFF).

Definition REPLACEMENT : Z := 0xFFFD.
Definition BOM : Z := 0xFEFF.

(** Conversion of a string to a sequence of scalar values (WebIDL
    [USVString]): a surrogate pair is one scalar value, an unpaired
    surrogate becomes U+FFFD. *)
Fixpoint to_scalar_values (s : JsString) : list Z :=
  match s with
  | [] => []
  | c :: t =>
      if is_lead c then
        match t with
        | d :: t' =>
            if is_trail d
            then (0x10000 + Z.shiftl (c - 0xD800) 10 + (d - 0xDC00))
                   :: to_scalar_values t'
            else REPLACEMENT :: to_scalar_values t
        | [] => [REPLACEMENT]
        end
      else if is_trail c then REPLACEMENT :: to_scalar_values t
      else c :: to_scalar_values t
  end.

(** [String.prototype.isWellFormed]: no unpaired surrogate. *)
Fixpoint isWellFormed (s : JsString) : bool :=
  match s with
  | [] => true
  | c :: t =>
      if is_lead c then
        match t with
        | d :: t' => is_trail d && isWellFormed t'
        | [] => false
        end
      else negb (is_trail c) && isWellFormed t
  end.

(** The continuation bytes of the UTF-8 encoder, [count] of them. *)
Fixpoint continuation_bytes (count : nat) (c : Z) : list Z :=
  match count with
  | O => []
  | S k =>
      Z.lor 0x80 (Z.land (Z.shiftr c (6 * Z.of_nat k)) 0x3F)
        :: continuation_bytes k c
  end.

(** UTF-8 encoder, one scalar value. *)
Definition utf8_encode (c : Z) : list Z :=
  if c <=? 0x7F then [c]
  else
    let '(count, offset) :=
      if c <=? 0x7FF then (1%nat, 0xC0)
      else if c <=? 0xFFFF then (2%nat, 0xE0)
      else (3%nat, 0xF0) in
    (Z.shiftr c (6 * Z.of_nat count) + offset) :: continuation_bytes count c.

(** [new TextEncoder().encode(s)] *)
Definition TextEncoder_encode (s : JsString) : Uint8Array :=
  flat_map utf8_encode (to_scalar_values s).

(** State of the UTF-8 decoder. *)
Record decoder : Type := mkDecoder {
  code_point : Z;
  bytes_seen : Z;
  bytes_needed : Z;
  lower_boundary : Z;
  upper_boundary : Z
}.

Definition decoder_init : decoder := mkDecoder 0 0 0 0x80 0xBF.

(** What the decoder hands to its caller. *)
Inductive item : Type :=
| Scalar (c : Z)
| DecodeError.

Definition in_range (lo hi b : Z) : bool := (lo <=? b) && (b <=? hi).

(** The decoder's handler on a byte when no sequence is open. *)
Definition lead_byte (b : Z) : decoder * list item :=
  if in_range 0x00 0x7F b then (decoder_init, [Scalar b])
  else if in_range 0xC2 0xDF b then
    (mkDecoder (Z.land b 0x1F) 0 1 0x80 0xBF, [])
  else if in_range 0xE0 0xEF b then
    (mkDecoder (Z.land b 0xF) 0 2
       (if b =? 0xE0 then 0xA0 else 0x80)
       (if b =? 0xED then 0x9F else 0xBF), [])
  else if in_range 0xF0 0xF4 b then
    (mkDecoder (Z.land b 0x7) 0 3
       (if b =? 0xF0 then 0x90 else 0x80)
       (if b =? 0xF4 then 0x8F else 0xBF), [])
  else (decoder_init, [DecodeError]).

(** The decoder's handler on one byte.  A byte outside the expected
    range closes the open sequence with an error and is read again. *)
Definition handler (d : decoder) (b : Z) : decoder * list item :=
  if bytes_needed d =? 0 then lead_byte b
  else if negb (in_range (lower_boundary d) (upper_boundary d) b) then
    let '(d', out) := lead_byte b in (d', DecodeError :: out)
  else
    let cp := Z.lor (Z.shiftl (code_point d) 6) (Z.land b 0x3F) in
    if bytes_seen d + 1 =? bytes_needed d
    then (decoder_init, [Scalar cp])
    else (mkDecoder cp (bytes_seen d + 1) (bytes_needed d) 0x80 0xBF, []).

(** The handler over a byte sequence, before end-of-queue. *)
Fixpoint feed (d : decoder) (bs : list Z) : decoder * list item :=
  match bs with
  | [] => (d, [])
  | b :: t =>
      let '(d1, out1) := handler d b in
      let '(d2, out2) := feed d1 t in
      (d2, out1 ++ out2)
  end.

(** End-of-queue: an open sequence is an error. *)
Definition flush (d : decoder) : list item :=
  if bytes_needed d =? 0 then [] else [DecodeError].

Definition utf8_decode (bs : list Z) : list item :=
  let '(d, out) := feed decoder_init bs in out ++ flush d.

(** Error mode: [fatal] throws a [TypeError], otherwise U+FFFD.  The
    standard fixes the class of the exception and leaves its message to
    the engine; the text below is V8's.  No statement about the class
    depends on it. *)
Definition invalid_data : Exception :=
  mkException TypeError "The encoded data was not valid for encoding utf-8".

Fixpoint scalars (fatal : bool) (items : list item) : result (list Z) :=
  match items with
  | [] => Ok []
  | Scalar c :: t => r <- scalars fatal t ;; Ok (c :: r)
  | DecodeError :: t =>
      if fatal then Throw invalid_data
      else r <- scalars fatal t ;; Ok (REPLACEMENT :: r)
  end.

(** With [ignoreBOM] unset, a leading U+FEFF is not part of the output. *)
Definition strip_BOM (cs : list Z) : list Z :=
  match cs with
  | c :: t => if c =? BOM then t else cs
  | [] => []
  end.

(** A scalar value as UTF-16 code units. *)
Definition utf16_encode (c : Z) : list Z :=
  if c <? 0x10000 then [c]
  else [0xD800 + Z.shiftr (c - 0x10000) 10;
        0xDC00 + Z.land (c - 0x10000) 0x3FF].

(** [new TextDecoder("utf-8", {fatal}).decode(bytes)] *)
Definition TextDecoder_decode (fatal : bool) (bs : Uint8Array)
  : result JsString :=
  cs <- scalars fatal (utf8_decode bs) ;;
  Ok (flat_map utf16_encode (strip_BOM cs)).

(** A Unicode scalar value. *)
Definition scalar (c : Z) : Prop :=
  0 <= c < 0x110000 /\ ~ (0xD800 <= c <= 0xDFFF).

(** The string starts with U+FEFF. *)
Definition starts_with_BOM (s : JsString) : bool :=
  match s with
  | c :: _ => c =? BOM
  | [] => false
  end.

(** [String.prototype.toWellFormed]: every unpaired surrogate replaced
    by U+FFFD. *)
Fixpoint toWellFormed (s : JsString) : JsString :=
  match s with
  | [] => []
  | c :: t =>
      if is_lead c then
        match t with
        | d :: t' =>
            if is_trail d then c :: d :: toWellFormed t'
            else REPLACEMENT :: toWellFormed t
        | [] => [REPLACEMENT]
        end
      else if is_trail c then REPLACEMENT :: toWellFormed t
      else c :: toWellFormed t
  end.

(** A string without its leading U+FEFF, when it has one. *)
Definition without_BOM (s : JsString) : JsString :=
  match s with
  | c :: t => if c =? BOM then t else s
  | [] => []
  end.

(** The text a receiver reads for [s]: [s] made well formed, without
    its leading U+FEFF. *)
Definition received (s : JsString) : JsString := without_BOM (toWellFormed s).

(** The bytes are UTF-8: the decoder reports no error on them. *)
Definition no_error (it : item) : bool :=
  match it with Scalar _ => true | DecodeError => false end.

Definition is_utf8 (bs : Uint8Array) : bool :=
  forallb no_error (utf8_decode bs).

(** An ASCII character. *)
Definition ascii_char (c : Z) : Prop := 0 <= c <= 0x7F.

End Encoding.

(** ** [@stablelib/chacha] *)
Module ChaCha.

Definition u32 (x : Z) : Z := x mod 2 ^ 32.

Definition rotl (x n : Z) : Z :=
  Z.lor (u32 (Z.shiftl x n)) (Z.shiftr x (32 - n)).

Definition get (i : nat) (x : list Z) : Z := nth i x 0.

Definition set (i : nat) (v : Z) (x : list Z) : list Z := set_at i v x.

Definition quarter_round (a b c d : nat) (x : list Z) : list Z :=
  let x := set a (u32 (get a x + get b x)) x in
  let x := set d (rotl (Z.lxor (get d x) (get a x)) 16) x in
  let x := set c (u32 (get c x + get d x)) x in
  let x := set b (rotl (Z.lxor (get b x) (get c x)) 12) x in
  let x := set a (u32 (get a x + get b x)) x in
  let x := set d (rotl (Z.lxor (get d x) (get a x)) 8) x in
  let x := set c (u32 (get c x + get d x)) x in
  let x := set b (rotl (Z.lxor (get b x) (get c x)) 7) x in
  x.

Definition double_round (x : list Z) : list Z :=
  let x := quarter_round 0 4 8 12 x in
  let x := quarter_round 1 5 9 13 x in
  let x := quarter_round 2 6 10 14 x in
  let x := quarter_round 3 7 11 15 x in
  let x := quarter_round 0 5 10 15 x in
  let x := quarter_round 1 6 11 12 x in
  let x := quarter_round 2 7 8 13 x in
  let x := quarter_round 3 4 9 14 x in
  x.

Definition ROUNDS : nat := 20.

Definition readUint32LE (a : list Z) (pos : nat) : Z :=
  Z.lor (Z.lor (Z.lor (Z.shiftl (get (pos + 3) a) 24)
                      (Z.shiftl (get (pos + 2) a) 16))
               (Z.shiftl (get (pos + 1) a) 8))
        (get pos a).

Definition writeUint32LE (v : Z) : list Z :=
  [Z.land v 0xFF; Z.land (Z.shiftr v 8) 0xFF;
   Z.land (Z.shiftr v 16) 0xFF; Z.land (Z.shiftr v 24) 0xFF].

(** [core(out, input, key)]: one 64-byte block of key stream from the
    16-byte counter-and-nonce [input] and the 32-byte [key]. *)
Definition core (input key : Uint8Array) : Uint8Array :=
  let j :=
    [0x61707865; 0x3320646E; 0x79622D32; 0x6B206574]
      ++ map (fun i => readUint32LE key (4 * i)) (seq 0 8)
      ++ map (fun i => readUint32LE input (4 * i)) (seq 0 4) in
  let x := Nat.iter (Nat.div ROUNDS 2) double_round j in
  flat_map (fun i => writeUint32LE (u32 (get i x + get i j))) (seq 0 16).

(** [incrementCounter(counter, 0, len)] with the running [carry]; the
    result is the new array and the carry left after [len] bytes. *)
Fixpoint incrementCounter (counter : list Z) (len : nat) (carry : Z)
  : list Z * Z :=
  match len, counter with
  | S l, b :: t =>
      let c := carry + Z.land b 0xFF in
      let '(t', carry') := incrementCounter t l (Z.shiftr c 8) in
      (Z.land c 0xFF :: t', carry')
  | _, _ => (counter, carry)
  end.

(** [dst[j] = src[j] ^ block[j - i]] over one block, [j - i] from [k]. *)
Fixpoint xor_block (block : list Z) (k : nat) (src : list Z) : list Z :=
  match src with
  | [] => []
  | s :: t => Z.lxor s (get k block) :: xor_block block (S k) t
  end.

Definition key_size_error : Exception :=
  mkException Error "ChaCha: key size must be 32 bytes".
Definition dst_short_error : Exception :=
  mkException Error "ChaCha: destination is shorter than source".
Definition nonce_size_error : Exception :=
  mkException Error "ChaCha nonce must be 8 or 12 bytes".
Definition counter_overflow : Exception :=
  mkException Error "ChaCha: counter overflow".

(** The block loop of [streamXOR]: [n] iterations of
    [for (i = 0; i < src.length; i += 64)], the bytes written to [dst]. *)
Fixpoint xor_blocks (n : nat) (key nc : Uint8Array) (counterLength : nat)
  (src : Uint8Array) : result Uint8Array :=
  match n with
  | O => Ok []
  | S n' =>
      let block := core nc key in
      let out := xor_block block 0 (firstn 64 src) in
      let '(nc', carry) := incrementCounter nc counterLength 1 in
      if 0 <? carry then Throw counter_overflow
      else
        rest <- xor_blocks n' key nc' counterLength (skipn 64 src) ;;
        Ok (out ++ rest)
  end.

Definition blocks (len : nat) : nat := Nat.div (len + 63) 64.

(** The number held in the first [l] bytes of a counter. *)
Fixpoint counter_value (l : nat) (nc : list Z) : Z :=
  match l, nc with
  | S l', b :: t => Z.land b 0xFF + 256 * counter_value l' t
  | _, _ => 0
  end.

(** [streamXOR(key, nonce, src, dst)] (no in-place counter). *)
Definition streamXOR (key nonce src dst : Uint8Array) : result Uint8Array :=
  if negb (length key =? 32)%nat then Throw key_size_error
  else if (length dst <? length src)%nat then Throw dst_short_error
  else if negb ((length nonce =? 8)%nat || (length nonce =? 12)%nat)
  then Throw nonce_size_error
  else
    let counterLength := (16 - length nonce)%nat in
    let nc := new_Uint8Array counterLength ++ nonce in
    out <- xor_blocks (blocks (length src)) key nc counterLength src ;;
    Ok (out ++ skipn (length src) dst).

End ChaCha.

(** ** [libsodium-wrappers]: codecs, randomness and the AEAD construction *)
Module Sodium.

(** [sodium.from_string] and [sodium.to_string] go through the platform's
    [TextEncoder] and fatal [TextDecoder]. *)
Definition from_string (s : JsString) : Uint8Array :=
  Encoding.TextEncoder_encode s.

Definition to_string (bs : Uint8Array) : result JsString :=
  Encoding.TextDecoder_decode true bs.

(** A source of random bytes: the bytes the generator will hand out. *)
Definition entropy := nat -> Z.

(** [sodium.randombytes_buf(n)]: the next [n] bytes and the generator
    after them. *)
Definition randombytes_buf (n : nat) (e : entropy) : Uint8Array * entropy :=
  (map (fun i => e i mod 256) (seq 0 n), fun i => e (i + n)%nat).

(** The generator that hands out zero bytes only. *)
Definition entropy_0 : entropy := fun _ => 0.

(** Little-endian integers. *)
Fixpoint le_decode (bs : list Z) : Z :=
  match bs with
  | [] => 0
  | b :: t => b mod 256 + 256 * le_decode t
  end.

Fixpoint le_encode (n : nat) (v : Z) : list Z :=
  match n with
  | O => []
  | S k => v mod 256 :: le_encode k (v / 256)
  end.

(** *** Hexadecimal *)

Definition u8 (x : Z) : Z := x mod 2 ^ 8.

(** The constant-time digit classification of [sodium_hex2bin]. *)
Definition c_num (c : Z) : Z := u8 (Z.lxor c 48).
Definition c_num0 (c : Z) : Z :=
  u8 (Z.shiftr (ChaCha.u32 (c_num c - 10)) 8).
Definition c_alpha (c : Z) : Z :=
  u8 (ChaCha.u32 (Z.land c (ChaCha.u32 (Z.lnot 32)) - 55)).
Definition c_alpha0 (c : Z) : Z :=
  u8 (Z.shiftr (Z.lxor (ChaCha.u32 (c_alpha c - 10))
                       (ChaCha.u32 (c_alpha c - 16))) 8).
Definition c_val (c : Z) : Z :=
  Z.lor (Z.land (c_num0 c) (c_num c)) (Z.land (c_alpha0 c) (c_alpha c)).

Record hex2bin_result : Type := mkHex2bin {
  h_ret : Z;
  h_bin : list Z;
  h_hex_pos : nat
}.

(** The loop of [sodium_hex2bin] with no ignored characters: [bin] is
    what has been written, [state] tells that a high nibble is pending. *)
Fixpoint hex2bin_loop (bin_maxlen : nat) (hex : list Z) (hex_pos : nat)
  (bin : list Z) (c_acc : Z) (state : bool) : Z * list Z * nat * bool :=
  match hex with
  | [] => (0, bin, hex_pos, state)
  | c :: t =>
      if Z.lor (c_num0 c) (c_alpha0 c) =? 0 then (0, bin, hex_pos, state)
      else if (bin_maxlen <=? length bin)%nat then (-1, bin, hex_pos, state)
      else if state
      then hex2bin_loop bin_maxlen t (S hex_pos)
             (bin ++ [Z.lor c_acc (c_val c)]) c_acc false
      else hex2bin_loop bin_maxlen t (S hex_pos)
             bin (u8 (c_val c * 16)) true
  end.

Definition sodium_hex2bin (bin_maxlen : nat) (hex : list Z) : hex2bin_result :=
  let '(ret, bin, hex_pos, state) :=
    hex2bin_loop bin_maxlen hex 0 [] 0 false in
  let '(ret, hex_pos) := if state then (-1, pred hex_pos) else (ret, hex_pos) in
  let bin := if ret =? 0 then bin else [] in
  mkHex2bin ret bin hex_pos.

(** A hexadecimal digit, either case. *)
Definition is_hex_digit (c : Z) : bool :=
  Encoding.in_range 48 57 c || Encoding.in_range 97 102 c
  || Encoding.in_range 65 70 c.

Definition hex_digit (c : Z) : Prop := is_hex_digit c = true.

(** One when a high nibble waits for its low nibble. *)
Definition pending (state : bool) : nat := if state then 1%nat else 0%nat.

Definition invalid_input : Exception := mkException Error "invalid input".
Definition incomplete_input : Exception :=
  mkException Error "incomplete input".

(** [sodium.from_hex(input)] *)
Definition from_hex (input : JsString) : result Uint8Array :=
  let input := from_string input in
  let r := sodium_hex2bin (Nat.div (length input) 2) input in
  if negb (h_ret r =? 0) then Throw invalid_input
  else if negb (h_hex_pos r =? length input)%nat then Throw incomplete_input
  else Ok (h_bin r).

(** [sodium.to_hex(input)]: two lowercase digits per byte. *)
Definition hex_char (n : Z) : Z :=
  87 + n + Z.land (Z.shiftr (n - 10) 8) (Z.lnot 38).

(** The body of its loop: the characters written for one byte. *)
Definition hex_chars (x : Z) : list Z :=
  let c := Z.land x 0xF in
  let b := Z.shiftr x 4 in
  let x := Z.lor (Z.shiftl (hex_char c) 8) (hex_char b) in
  [Z.land x 0xFF; Z.shiftr x 8].

Definition to_hex (input : Uint8Array) : JsString :=
  flat_map hex_chars input.

(** The characters written for [x] are two digits that [sodium_hex2bin]
    reads back as [x]. *)
Definition hex_pair_ok (x : Z) : bool :=
  match hex_chars x with
  | [h; l] =>
      is_hex_digit h && is_hex_digit l
      && (Z.lor (u8 (c_val h * 16)) (c_val l) =? x)
  | _ => false
  end.

(** The digits [to_hex] writes. *)
Definition is_lower_hex_digit (c : Z) : bool :=
  Encoding.in_range 48 57 c || Encoding.in_range 97 102 c.

(** A hexadecimal digit in lower case. *)
Definition hex_lower (c : Z) : Z :=
  if Encoding.in_range 65 70 c then c + 32 else c.

(** The bytes [sodium_hex2bin] writes for a string of digit pairs. *)
Fixpoint hex_bytes (hex : list Z) : list Z :=
  match hex with
  | h :: l :: t => Z.lor (u8 (c_val h * 16)) (c_val l) :: hex_bytes t
  | _ => []
  end.

(** The twenty-two hexadecimal digits. *)
Definition hex_digits : list Z :=
  map (fun i => 48 + Z.of_nat i) (seq 0 10)
    ++ map (fun i => 65 + Z.of_nat i) (seq 0 6)
    ++ map (fun i => 97 + Z.of_nat i) (seq 0 6).

(** The byte read from the digits [h] and [l] is written back by
    [to_hex] as the same digits in lower case. *)
Definition hex_byte_ok (h l : Z) : bool :=
  let x := Z.lor (u8 (c_val h * 16)) (c_val l) in
  Encoding.in_range 0 255 x
  && list_eqb (hex_chars x) [hex_lower h; hex_lower l].

Definition hex_chars_lower (x : Z) : bool :=
  forallb is_lower_hex_digit (hex_chars x).

(** *** ChaCha20-Poly1305 (IETF) *)

Definition NPUBBYTES : nat := 12.
Definition KEYBYTES : nat := 32.
Definition ABYTES : nat := 16.

(** Poly1305 over [msg], 16 bytes at a time. *)
Fixpoint poly1305_blocks (n : nat) (r acc : Z) (msg : list Z) : Z :=
  match n with
  | O => acc
  | S n' =>
      let chunk := firstn 16 msg in
      let v := le_decode chunk + 2 ^ (8 * Z.of_nat (length chunk)) in
      poly1305_blocks n' r (((acc + v) * r) mod (2 ^ 130 - 5)) (skipn 16 msg)
  end.

Definition poly1305 (key msg : Uint8Array) : Uint8Array :=
  let r := Z.land (le_decode (firstn 16 key))
                  0x0ffffffc0ffffffc0ffffffc0fffffff in
  let s := le_decode (skipn 16 key) in
  let acc := poly1305_blocks (Nat.div (length msg + 15) 16) r 0 msg in
  le_encode 16 (acc + s).

(** The IETF key stream XORed over [src], block counter from [ic]. *)
Fixpoint chacha20_ietf_xor_ic (n : nat) (npub : Uint8Array) (ic : Z)
  (key src : Uint8Array) : Uint8Array :=
  match n with
  | O => []
  | S n' =>
      ChaCha.xor_block (ChaCha.core (le_encode 4 ic ++ npub) key) 0
                       (firstn 64 src)
        ++ chacha20_ietf_xor_ic n' npub (ic + 1) key (skipn 64 src)
  end.

Definition pad16 (len : nat) : list Z :=
  repeat 0 (Z.to_nat (Z.land (0x10 - Z.of_nat len) 0xF)).

(** The tag over additional data and ciphertext. *)
Definition aead_mac (ad c npub key : Uint8Array) : Uint8Array :=
  let block0 := ChaCha.core (le_encode 4 0 ++ npub) key in
  poly1305 (firstn 32 block0)
    (ad ++ pad16 (length ad) ++ c ++ pad16 (length c)
       ++ le_encode 8 (Z.of_nat (length ad))
       ++ le_encode 8 (Z.of_nat (length c))).

Definition aead_encrypt (m ad npub key : Uint8Array) : Uint8Array :=
  let c := chacha20_ietf_xor_ic (ChaCha.blocks (length m)) npub 1 key m in
  c ++ aead_mac ad c npub key.

(** [crypto_verify_16] *)
Definition crypto_verify_16 (x y : Uint8Array) : bool := list_eqb x y.

(** The C function's result: [None] stands for the return value -1. *)
Definition aead_decrypt (c ad npub key : Uint8Array) : option Uint8Array :=
  if (length c <? ABYTES)%nat then None
  else
    let clen := (length c - ABYTES)%nat in
    let body := firstn clen c in
    let mac := skipn clen c in
    if crypto_verify_16 (aead_mac ad body npub key) mac
    then Some (chacha20_ietf_xor_ic (ChaCha.blocks clen) npub 1 key body)
    else None.

(** The tag at the end of [c] is the one computed over what precedes it. *)
Definition tag_verifies (c npub key : Uint8Array) : bool :=
  let clen := (length c - ABYTES)%nat in
  crypto_verify_16 (aead_mac [] (firstn clen c) npub key) (skipn clen c).

Definition type_error (msg : string) : Exception := mkException TypeError msg.

Definition cannot_decrypt : Exception :=
  mkException Error "ciphertext cannot be decrypted using that key".

Definition or_empty (ad : option Uint8Array) : Uint8Array :=
  match ad with Some a => a | None => [] end.

(** [sodium.crypto_aead_chacha20poly1305_ietf_encrypt(message,
    additional_data, secret_nonce, public_nonce, key)]; the secret nonce
    is unused and passed as [null]. *)
Definition crypto_aead_chacha20poly1305_ietf_encrypt
  (message : Uint8Array) (additional_data : option Uint8Array)
  (public_nonce key : Uint8Array) : result Uint8Array :=
  if negb (length public_nonce =? NPUBBYTES)%nat
  then Throw (type_error "invalid public_nonce length")
  else if negb (length key =? KEYBYTES)%nat
  then Throw (type_error "invalid key length")
  else Ok (aead_encrypt message (or_empty additional_data) public_nonce key).

(** [sodium.crypto_aead_chacha20poly1305_ietf_decrypt(secret_nonce,
    ciphertext, additional_data, public_nonce, key)] *)
Definition crypto_aead_chacha20poly1305_ietf_decrypt
  (ciphertext : Uint8Array) (additional_data : option Uint8Array)
  (public_nonce key : Uint8Array) : result Uint8Array :=
  if (length ciphertext <? ABYTES)%nat
  then Throw (type_error "ciphertext is too short")
  else if negb (length public_nonce =? NPUBBYTES)%nat
  then Throw (type_error "invalid public_nonce length")
  else if negb (length key =? KEYBYTES)%nat
  then Throw (type_error "invalid key length")
  else
    match aead_decrypt ciphertext (or_empty additional_data)
            public_nonce key with
    | Some m => Ok m
    | None => Throw cannot_decrypt
    end.

End Sodium.

(** ** Curve25519 and Ed25519 *)

(** The curve and signature arithmetic behind libsodium, as integers: the
    wrappers below serialise them to their fixed widths.
    [X25519 n p] is the u-coordinate of the scalar product,
    [Ed25519_public seed] the encoded public point, [Ed25519_sign sk m]
    the 64-byte signature as one integer. *)
Class Primitives : Type := {
  X25519 : Uint8Array -> Uint8Array -> Z;
  Ed25519_public : Uint8Array -> Z;
  Ed25519_sign : Uint8Array -> Uint8Array -> Z;
  Ed25519_verify : Uint8Array -> Uint8Array -> Uint8Array -> bool
}.

(** [sodium.KeyPair] *)
Record KeyPair : Type := mkKeyPair {
  keyType : string;
  privateKey : Uint8Array;
  publicKey : Uint8Array
}.

Module SodiumKeys.
Import Sodium.
Section WithPrimitives.
Context {P : Primitives}.

(** The base point of Curve25519, u = 9. *)
Definition basepoint : Uint8Array := le_encode 32 9.

(** [sodium.crypto_sign_keypair()] *)
Definition crypto_sign_keypair (e : entropy) : KeyPair * entropy :=
  let '(seed, e') := randombytes_buf 32 e in
  let pk := le_encode 32 (Ed25519_public seed) in
  (mkKeyPair "ed25519" (seed ++ pk) pk, e').

(** [sodium.crypto_box_keypair()] *)
Definition crypto_box_keypair (e : entropy) : KeyPair * entropy :=
  let '(sk, e') := randombytes_buf 32 e in
  (mkKeyPair "x25519" sk (le_encode 32 (X25519 sk basepoint)), e').

Definition weak_public_key : Exception :=
  mkException Error "weak public key".

(** [sodium.crypto_scalarmult(privateKey, publicKey)] *)
Definition crypto_scalarmult (sk pk : Uint8Array) : result Uint8Array :=
  if negb (length sk =? 32)%nat
  then Throw (type_error "invalid privateKey length")
  else if negb (length pk =? 32)%nat
  then Throw (type_error "invalid publicKey length")
  else
    let q := le_encode 32 (X25519 sk pk) in
    if forallb (Z.eqb 0) q then Throw weak_public_key else Ok q.

(** [sodium.crypto_sign_detached(message, privateKey)] *)
Definition crypto_sign_detached (message sk : Uint8Array)
  : result Uint8Array :=
  if negb (length sk =? 64)%nat
  then Throw (type_error "invalid privateKey length")
  else Ok (le_encode 64 (Ed25519_sign sk message)).

(** [sodium.crypto_sign_verify_detached(signature, message, publicKey)] *)
Definition crypto_sign_verify_detached (signature message pk : Uint8Array)
  : result bool :=
  if negb (length signature =? 64)%nat
  then Throw (type_error "invalid signature length")
  else if negb (length pk =? 32)%nat
  then Throw (type_error "invalid publicKey length")
  else Ok (Ed25519_verify signature message pk).

End WithPrimitives.

(** What the class relies on from Curve25519: two parties that multiply
    each other's public point by their own scalar reach the same point,
    and that point is not the all-zero one libsodium rejects. *)
Class DiffieHellman (P : Primitives) : Prop := {
  X25519_commutes : forall a b : Uint8Array,
    length a = 32%nat -> length b = 32%nat ->
    X25519 a (le_encode 32 (X25519 b basepoint))
    = X25519 b (le_encode 32 (X25519 a basepoint));
  X25519_nonzero : forall a b : Uint8Array,
    length a = 32%nat -> length b = 32%nat ->
    X25519 a (le_encode 32 (X25519 b basepoint)) mod 2 ^ 256 <> 0
}.

(** What the handshake relies on from Ed25519: a signature made with
    the private key of a pair verifies under its public key. *)
Class SignatureCorrect (P : Primitives) : Prop := {
  Ed25519_correct : forall seed m : Uint8Array,
    length seed = 32%nat ->
    Ed25519_verify
      (le_encode 64
         (Ed25519_sign (seed ++ le_encode 32 (Ed25519_public seed)) m))
      m (le_encode 32 (Ed25519_public seed)) = true
}.

End SodiumKeys.

(** ** The class [SecureChatService] *)
Module SecureChatService.
Import Sodium SodiumKeys.

Record t : Type := mk {
  _ed25519 : option KeyPair;
  _x25519 : option KeyPair;
  _sharedKey : option Uint8Array;
  _isReady : bool
}.

(** [{ nonce, ciphertext }] *)
Record Envelope : Type := mkEnvelope {
  nonce : Uint8Array;
  ciphertext : Uint8Array
}.

(** The object [exportPublicIdentity] returns. *)
Module PublicIdentity.
Record t : Type := mk {
  ed25519PublicKey : Uint8Array;
  dhPublicKey : Uint8Array;
  dhSignature : Uint8Array
}.
End PublicIdentity.

(** [new SecureChatService()] *)
Definition new : t := mk None None None false.

(** [_fixedNonce = new Uint8Array(8).fill(0)], read-only. *)
Definition _fixedNonce : Uint8Array := new_Uint8Array 8.

Definition uninitialized : Exception :=
  mkException Error "尚未初始化：请先调用 init()".
Definition no_shared_key : Exception :=
  mkException Error "共享密钥未建立：请先调用 computeSharedKey()".

Section Methods.
Context {P : Primitives}.

(** [init()] is asynchronous.  What runs after [await sodium.ready]:
    both key pairs are made and the flag is set. *)
Definition init_resume (s : t) (e : entropy) : t :=
  let '(ed, e1) := crypto_sign_keypair e in
  let '(x, _) := crypto_box_keypair e1 in
  mk (Some ed) (Some x) (_sharedKey s) true.

(** [await init()]: the guard, then the rest once [sodium.ready] has
    resolved, nothing else running in between. *)
Definition init (s : t) (e : entropy) : t :=
  if _isReady s then s else init_resume s e.

Definition ed25519PublicKey (s : t) : result Uint8Array :=
  match _ed25519 s with
  | None => Throw uninitialized
  | Some ed => Ok (publicKey ed)
  end.

Definition x25519PublicKey (s : t) : result Uint8Array :=
  match _x25519 s with
  | None => Throw uninitialized
  | Some x => Ok (publicKey x)
  end.

Definition signDHPublicKey (s : t) : result Uint8Array :=
  match _ed25519 s, _x25519 s with
  | Some ed, Some x => crypto_sign_detached (publicKey x) (privateKey ed)
  | _, _ => Throw uninitialized
  end.

(** [computeSharedKey(peerPublicKey)]: the session afterwards and the
    outcome of the call. *)
Definition computeSharedKey (s : t) (peerPublicKey : Uint8Array)
  : t * result Uint8Array :=
  match _x25519 s with
  | None => (s, Throw uninitialized)
  | Some x =>
      match crypto_scalarmult (privateKey x) peerPublicKey with
      | Ok k => (mk (_ed25519 s) (_x25519 s) (Some k) (_isReady s), Ok k)
      | Throw err => (s, Throw err)
      end
  end.

Definition encryptAEAD (s : t) (message : JsString) (e : entropy)
  : result Envelope :=
  match _sharedKey s with
  | None => Throw no_shared_key
  | Some k =>
      let nonce := fst (randombytes_buf NPUBBYTES e) in
      let plaintext := from_string message in
      ciphertext <-
        crypto_aead_chacha20poly1305_ietf_encrypt plaintext None nonce k ;;
      Ok (mkEnvelope nonce ciphertext)
  end.

Definition decryptAEAD (s : t) (ciphertext nonce : Uint8Array)
  : result JsString :=
  match _sharedKey s with
  | None => Throw no_shared_key
  | Some k =>
      plaintext <-
        crypto_aead_chacha20poly1305_ietf_decrypt ciphertext None nonce k ;;
      to_string plaintext
  end.

Definition encryptRaw (s : t) (message : JsString) (e : entropy)
  : result Envelope :=
  match _sharedKey s with
  | None => Throw no_shared_key
  | Some k =>
      let nonce := fst (randombytes_buf 8 e) in
      let plaintext := from_string message in
      let dst := new_Uint8Array (length plaintext) in
      ciphertext <- ChaCha.streamXOR k nonce plaintext dst ;;
      Ok (mkEnvelope nonce ciphertext)
  end.

Definition decryptRaw (s : t) (ciphertext nonce : Uint8Array)
  : result JsString :=
  match _sharedKey s with
  | None => Throw no_shared_key
  | Some k =>
      let dst := new_Uint8Array (length ciphertext) in
      plaintext <- ChaCha.streamXOR k nonce ciphertext dst ;;
      to_string plaintext
  end.

Definition encryptRawFixedNonce (s : t) (message : JsString)
  : result Uint8Array :=
  match _sharedKey s with
  | None => Throw no_shared_key
  | Some k =>
      let plaintext := Encoding.TextEncoder_encode message in
      let ciphertext := new_Uint8Array (length plaintext) in
      ChaCha.streamXOR k _fixedNonce plaintext ciphertext
  end.

Definition decryptRawFixedNonce (s : t) (ciphertext : Uint8Array)
  : result JsString :=
  match _sharedKey s with
  | None => Throw no_shared_key
  | Some k =>
      let plaintext := new_Uint8Array (length ciphertext) in
      decrypted <- ChaCha.streamXOR k _fixedNonce ciphertext plaintext ;;
      Encoding.TextDecoder_decode false decrypted
  end.

Definition exportPublicIdentity (s : t) : result PublicIdentity.t :=
  match _ed25519 s, _x25519 s with
  | Some ed, Some x =>
      sig <- signDHPublicKey s ;;
      Ok (PublicIdentity.mk (publicKey ed) (publicKey x) sig)
  | _, _ => Throw uninitialized
  end.

(** Static methods. *)

Definition verifyDHSignature (dhPublicKey signature ed25519PublicKey
  : Uint8Array) : result bool :=
  crypto_sign_verify_detached signature dhPublicKey ed25519PublicKey.

Definition encryptByKeyAEAD (message : JsString + Uint8Array)
  (sharedKey : Uint8Array) (e : entropy) : result Envelope :=
  let nonce := fst (randombytes_buf NPUBBYTES e) in
  let messageData :=
    match message with
    | inl str => from_string str
    | inr bytes => bytes
    end in
  ciphertext <-
    crypto_aead_chacha20poly1305_ietf_encrypt messageData None nonce
      sharedKey ;;
  Ok (mkEnvelope nonce ciphertext).

Definition decryptByKeyAEAD (ciphertext nonce sharedKey : Uint8Array)
  (raw : bool) : result (JsString + Uint8Array) :=
  plaintext <-
    crypto_aead_chacha20poly1305_ietf_decrypt ciphertext None nonce
      sharedKey ;;
  if raw then Ok (inr plaintext)
  else str <- to_string plaintext ;; Ok (inl str).

Definition uint8ArrayToHex (uint8Array : Uint8Array) : JsString :=
  to_hex uint8Array.

Definition hexToUint8Array (hexString : JsString) : result Uint8Array :=
  from_hex hexString.

(** *** Histories of calls on one session *)

Inductive call : Type :=
| Init (e : entropy)
| GetEd25519PublicKey
| GetX25519PublicKey
| SignDHPublicKey
| ComputeSharedKey (peerPublicKey : Uint8Array)
| EncryptAEAD (message : JsString) (e : entropy)
| DecryptAEAD (ciphertext nonce : Uint8Array)
| EncryptRaw (message : JsString) (e : entropy)
| DecryptRaw (ciphertext nonce : Uint8Array)
| EncryptRawFixedNonce (message : JsString)
| DecryptRawFixedNonce (ciphertext : Uint8Array)
| ExportPublicIdentity.

(** The session after one call; only [init] and [computeSharedKey]
    assign fields. *)
Definition after (s : t) (c : call) : t :=
  match c with
  | Init e => init s e
  | ComputeSharedKey peer => fst (computeSharedKey s peer)
  | _ => s
  end.

Definition run (s : t) (calls : list call) : t := fold_left after calls s.

Definition is_init (c : call) : bool :=
  match c with Init _ => true | _ => false end.

(** The call is a [computeSharedKey] that returns on session [s]. *)
Definition stores_shared_key (s : t) (c : call) : bool :=
  match c with
  | ComputeSharedKey peer => is_ok (snd (computeSharedKey s peer))
  | _ => false
  end.

(** No call of the history stored a shared key. *)
Fixpoint never_stored (s : t) (calls : list call) : Prop :=
  match calls with
  | [] => True
  | c :: rest => stores_shared_key s c = false /\ never_stored (after s c) rest
  end.

(** A key pair as [crypto_box_keypair] makes them. *)
Definition box_keypair (x : KeyPair) : Prop :=
  exists sk,
    length sk = 32%nat
    /\ x = mkKeyPair "x25519" sk (le_encode 32 (X25519 sk basepoint)).

(** A key pair as [crypto_sign_keypair] makes them. *)
Definition sign_keypair (ed : KeyPair) : Prop :=
  exists seed,
    length seed = 32%nat
    /\ ed = mkKeyPair "ed25519"
              (seed ++ le_encode 32 (Ed25519_public seed))
              (le_encode 32 (Ed25519_public seed)).

(** What holds of a session whatever was called on it. *)
Definition invariant (s : t) : Prop :=
  (forall k, _sharedKey s = Some k -> length k = 32%nat)
  /\ if _isReady s
     then (exists ed, _ed25519 s = Some ed /\ sign_keypair ed)
          /\ (exists x, _x25519 s = Some x /\ box_keypair x)
     else _ed25519 s = None /\ _x25519 s = None /\ _sharedKey s = None.

End Methods.
End SecureChatService.

(** ** The module's accessor: [getSecureChatService]

    The module keeps one private variable, [_instance], that only
    [getSecureChatService] assigns.  Objects have identity: a reference
    is the position of the object among those created so far, and a
    method called through a reference acts on the object behind it. *)
Module Accessor.
Import SecureChatService.

Definition ref : Type := nat.

Record state : Type := mkState {
  objects : list SecureChatService.t;
  _instance : option ref
}.

(** The module once loaded: [let _instance = null], no object yet. *)
Definition initial : state := mkState [] None.

(** [new SecureChatService()], evaluated anywhere. *)
Definition construct (st : state) : state * ref :=
  (mkState (objects st ++ [new]) (_instance st), length (objects st)).

(** [getSecureChatService()] *)
Definition getSecureChatService (st : state) : state * ref :=
  match _instance st with
  | Some r => (st, r)
  | None =>
      let '(st', r) := construct st in
      (mkState (objects st') (Some r), r)
  end.

(** The object behind a reference. *)
Definition deref (st : state) (r : ref) : option SecureChatService.t :=
  nth_error (objects st) r.

Section Events.
Context {P : Primitives}.

(** A method call through a reference.  References come from
    [construct] and [getSecureChatService] only; a number that is no
    reference stands for no object. *)
Definition call_on (r : ref) (c : call) (st : state) : state :=
  match deref st r with
  | Some obj =>
      mkState
        (firstn r (objects st) ++ after obj c :: skipn (S r) (objects st))
        (_instance st)
  | None => st
  end.

(** What the program around the module can do with it. *)
Inductive event : Type :=
| Get
| Construct
| CallOn (r : ref) (c : call).

Definition step (st : state) (ev : event) : state :=
  match ev with
  | Get => fst (getSecureChatService st)
  | Construct => fst (construct st)
  | CallOn r c => call_on r c st
  end.

Definition run_events (st : state) (evs : list event) : state :=
  fold_left step evs st.

(** The calls made through [r] among the events. *)
Definition calls_on (r : ref) (evs : list event) : list call :=
  flat_map (fun ev =>
              match ev with
              | CallOn r' c => if (r' =? r)%nat then [c] else []
              | _ => []
              end) evs.

End Events.

(** [_instance], once assigned, refers to an object that exists. *)
Definition valid (st : state) : Prop :=
  forall r, _instance st = Some r -> (r < length (objects st))%nat.

End Accessor.

(** ** Published test vectors *)
Module Vectors.

Definition ascii_bytes (s : string) : Uint8Array :=
  map (fun a => Z.of_nat (nat_of_ascii a)) (list_ascii_of_string s).

(** ChaCha20 with the all-zero key and nonce: the start of the first
    block of key stream. *)
Definition zero_block_start : Uint8Array :=
  [0x76; 0xb8; 0xe0; 0xad; 0xa0; 0xf1; 0x3d; 0x90;
   0x40; 0x5d; 0x6a; 0xe5; 0x53; 0x86; 0xbd; 0x28].

(** RFC 8439, section 2.5.2: Poly1305. *)
Definition poly1305_key : Uint8Array :=
  [0x85; 0xd6; 0xbe; 0x78; 0x57; 0x55; 0x6d; 0x33;
   0x7f; 0x44; 0x52; 0xfe; 0x42; 0xd5; 0x06; 0xa8;
   0x01; 0x03; 0x80; 0x8a; 0xfb; 0x0d; 0xb2; 0xfd;
   0x4a; 0xbf; 0xf6; 0xaf; 0x41; 0x49; 0xf5; 0x1b].
Definition poly1305_message : Uint8Array :=
  ascii_bytes "Cryptographic Forum Research Group".
Definition poly1305_tag : Uint8Array :=
  [0xa8; 0x06; 0x1d; 0xc1; 0x30; 0x51; 0x36; 0xc6;
   0xc2; 0x2b; 0x8b; 0xaf; 0x0c; 0x01; 0x27; 0xa9].

(** RFC 8439, section 2.8.2: AEAD_CHACHA20_POLY1305. *)
Definition aead_key : Uint8Array :=
  map (fun i => 0x80 + Z.of_nat i) (seq 0 32).
Definition aead_nonce : Uint8Array :=
  [0x07; 0x00; 0x00; 0x00; 0x40; 0x41; 0x42; 0x43; 0x44; 0x45; 0x46; 0x47].
Definition aead_ad : Uint8Array :=
  [0x50; 0x51; 0x52; 0x53; 0xc0; 0xc1; 0xc2; 0xc3; 0xc4; 0xc5; 0xc6; 0xc7].
Definition aead_plaintext : Uint8Array :=
  ascii_bytes ("Ladies and Gentlemen of the class of '99: If I could "
               ++ "offer you only one tip for the future, sunscreen "
               ++ "would be it.").
Definition aead_ciphertext_start : Uint8Array :=
  [0xd3; 0x1a; 0x8d; 0x34; 0x64; 0x8e; 0x60; 0xdb;
   0x7b; 0x86; 0xaf; 0xbc; 0x53; 0xef; 0x7e; 0xc2].
Definition aead_tag : Uint8Array :=
  [0x1a; 0xe1; 0x0b; 0x59; 0x4f; 0x09; 0xe2; 0x6a;
   0x7e; 0x90; 0x2e; 0xcb; 0xd0; 0x60; 0x06; 0x91].

End Vectors.

(** ** Executable stand-ins and sample sessions *)

(** An executable instance of [Primitives] for running the class on
    concrete inputs.  It multiplies modulo 2^256 where Curve25519
    multiplies points, and signs by copying: it has the interface and
    the Diffie-Hellman laws of the real arithmetic, none of its
    security. *)
Module Sample.
Import Sodium SodiumKeys SecureChatService.

Definition primitives : Primitives := {|
  X25519 := fun n p => ((2 * le_decode n + 1) * le_decode p) mod 2 ^ 256;
  Ed25519_public := fun seed => le_decode seed;
  Ed25519_sign := fun sk m => le_decode (skipn 32 sk ++ m);
  Ed25519_verify := fun sig m pk =>
    list_eqb sig (le_encode 64 (le_decode (pk ++ m)))
|}.

Definition entropy_a : entropy := fun i => Z.of_nat i.
Definition entropy_b : entropy := fun i => Z.of_nat (3 * i + 7).
Definition entropy_n : entropy := fun i => Z.of_nat (5 * i + 1).

(** Two initialised sessions, and the first after the handshake. *)
Definition alice : t := init (P := primitives) new entropy_a.
Definition bob : t := init (P := primitives) new entropy_b.

Definition bob_public : Uint8Array :=
  match x25519PublicKey bob with Ok pk => pk | Throw _ => [] end.

Definition alice_ready : t :=
  fst (computeSharedKey (P := primitives) alice bob_public).

Definition shared : Uint8Array :=
  match snd (computeSharedKey (P := primitives) alice bob_public) with
  | Ok k => k
  | Throw _ => []
  end.

(** A 20-byte ciphertext and a 12-byte nonce, all zero. *)
Definition zeros_20 : Uint8Array := new_Uint8Array 20.
Definition zeros_12 : Uint8Array := new_Uint8Array 12.

(** "hi" and the same text after U+FEFF. *)
Definition hi : JsString := [0x68; 0x69].
Definition bom_hi : JsString := [0xFEFF; 0x68; 0x69].

(** A leading surrogate with nothing after it, and U+FFFD. *)
Definition lone : JsString := [0xD83D].
Definition replaced : JsString := [0xFFFD].

(** "abc", three hexadecimal digits. *)
Definition abc : JsString := [0x61; 0x62; 0x63].

(** A history in which [computeSharedKey] is called and throws, and one
    in which [init] is never called. *)
Definition history_without_key : list call :=
  [Init entropy_a; SignDHPublicKey; ComputeSharedKey [];
   EncryptRaw hi entropy_n].

Definition history_without_init : list call :=
  [GetX25519PublicKey; ComputeSharedKey bob_public;
   EncryptAEAD hi entropy_n].

(** The handshake of [alice] with [bob] as a history of calls. *)
Definition handshake : list call :=
  [Init entropy_a; ComputeSharedKey bob_public].

(** Two bytes that are not UTF-8, a 16-byte key, an 8-byte nonce and
    seven bytes that are no nonce. *)
Definition binary : Uint8Array := [0xFF; 0xFE].
Definition short_key : Uint8Array := new_Uint8Array 16.
Definition zeros_8 : Uint8Array := new_Uint8Array 8.
Definition zeros_7 : Uint8Array := new_Uint8Array 7.

(** "dEaD", "ab" and "g". *)
Definition digits_dEaD : JsString := [0x64; 0x45; 0x61; 0x44].
Definition digits_ab : JsString := [0x61; 0x62].
Definition letter_g : JsString := [0x67].

End Sample.

(** * Proofs *)

Lemma Ok_inj {A : Type} (a b : A) : Ok a = Ok b -> a = b.
Proof. congruence. Qed.

(** Induction two elements at a time. *)
Lemma list_pair_ind (A : Type) (P : list A -> Prop) :
  P [] ->
  (forall a, P [a]) ->
  (forall a b l, P l -> P (b :: l) -> P (a :: b :: l)) ->
  forall l, P l.
Proof.
  intros H0 H1 H2 l.
  enough (P l /\ forall a, P (a :: l)) by tauto.
  induction l as [|b l [IHl IHbl]]; split; auto.
Qed.

(** Every integer of a short interval, by cases. *)
Lemma in_interval (lo : Z) (n : nat) (x : Z) :
  lo <= x < lo + Z.of_nat n -> In x (map (fun i => lo + Z.of_nat i) (seq 0 n)).
Proof.
  intros H. apply in_map_iff. exists (Z.to_nat (x - lo)). split; [lia|].
  apply in_seq. lia.
Qed.

Ltac by_cases x lo n :=
  let H := fresh "Hin" in
  match goal with
  | Hx : _ <= x < _ |- _ =>
      assert (H : In x (map (fun i => lo + Z.of_nat i) (seq 0 n)))
        by (apply in_interval; lia);
      clear Hx; cbv in H;
      repeat (destruct H as [<-|H]; [reflexivity|]); contradiction
  end.

(** * Arrays written at one index *)

Lemma length_set_at (i : nat) (v : Z) (a : list Z) :
  (i < length a)%nat -> length (set_at i v a) = length a.
Proof.
  intros H. unfold set_at.
  rewrite length_app, length_firstn. cbn [length]. rewrite length_skipn. lia.
Qed.

Lemma set_at_nth (i : nat) (v : Z) (a : list Z) :
  (i < length a)%nat -> nth i (set_at i v a) 0 = v.
Proof.
  intros H. unfold set_at.
  rewrite app_nth2 by (rewrite length_firstn; lia).
  rewrite length_firstn.
  now replace (i - Nat.min i (length a))%nat with 0%nat by lia.
Qed.

Lemma set_at_nth_other (i j : nat) (v : Z) (a : list Z) :
  (i < length a)%nat -> j <> i -> nth j (set_at i v a) 0 = nth j a 0.
Proof.
  intros H Hj. unfold set_at.
  destruct (Nat.lt_ge_cases j i) as [Hlt|Hge].
  - rewrite app_nth1 by (rewrite length_firstn; lia).
    rewrite nth_firstn.
    now replace (j <? i)%nat with true by (symmetry; apply Nat.ltb_lt; lia).
  - rewrite app_nth2 by (rewrite length_firstn; lia).
    rewrite length_firstn. replace (Nat.min i (length a)) with i by lia.
    destruct (j - i)%nat as [|d] eqn:E; [lia|]. cbn [nth].
    rewrite nth_skipn. f_equal. lia.
Qed.

Lemma set_at_app_r (i : nat) (v : Z) (a b : list Z) :
  set_at (length a + i) v (a ++ b) = a ++ set_at i v b.
Proof.
  unfold set_at.
  rewrite firstn_app, firstn_all2 by lia.
  replace (length a + i - length a)%nat with i by lia.
  rewrite <- app_assoc. f_equal. f_equal. f_equal.
  rewrite skipn_app, skipn_all2 by lia.
  now replace (S (length a + i) - length a)%nat with (S i) by lia.
Qed.

Lemma Forall_set_at (Q : Z -> Prop) (v : Z) (a : list Z) :
  Forall Q a -> Q v -> forall i, Forall Q (set_at i v a).
Proof.
  intros Ha Hv. induction Ha as [|x a Hx Ha IH]; intros i.
  - unfold set_at. rewrite firstn_nil, skipn_nil. now repeat constructor.
  - destruct i as [|i]; [now constructor|].
    constructor; [exact Hx | apply IH].
Qed.

Lemma new_Uint8Array_length (n : nat) : length (new_Uint8Array n) = n.
Proof. apply repeat_length. Qed.

(** * Exclusive or *)

Lemma lxor_same_key (x y k : Z) :
  Z.lxor (Z.lxor x k) (Z.lxor y k) = Z.lxor x y.
Proof.
  rewrite (Z.lxor_comm y k), Z.lxor_assoc, <- (Z.lxor_assoc k k y).
  now rewrite Z.lxor_nilpotent, Z.lxor_0_l.
Qed.

Lemma lxor_move (x y z : Z) : Z.lxor x y = z -> y = Z.lxor x z.
Proof.
  intros <-. now rewrite <- Z.lxor_assoc, Z.lxor_nilpotent, Z.lxor_0_l.
Qed.

Lemma lxor_bound (a b n : Z) :
  0 <= n -> 0 <= a < 2 ^ n -> 0 <= b < 2 ^ n -> 0 <= Z.lxor a b < 2 ^ n.
Proof.
  intros Hn Ha Hb.
  assert (H0 : 0 <= Z.lxor a b) by (apply Z.lxor_nonneg; lia).
  split; [exact H0|].
  destruct (Z.eq_dec (Z.lxor a b) 0) as [->|Hz]; [lia|].
  assert (Hpos : 0 < n).
  { destruct (Z.eq_dec n 0) as [->|]; [|lia].
    change (2 ^ 0) with 1 in Ha, Hb.
    replace a with 0 in Hz by lia. replace b with 0 in Hz by lia.
    now contradiction Hz. }
  apply Z.log2_lt_pow2; [lia|].
  pose proof (Z.log2_lxor a b ltac:(lia) ltac:(lia)) as Hl.
  assert (Z.log2 a < n).
  { destruct (Z.eq_dec a 0) as [->|]; [simpl|apply Z.log2_lt_pow2]; lia. }
  assert (Z.log2 b < n).
  { destruct (Z.eq_dec b 0) as [->|]; [simpl|apply Z.log2_lt_pow2]; lia. }
  lia.
Qed.

(** * Bit operations as arithmetic *)

Lemma land_shiftl_low (a y k : Z) :
  0 <= k -> 0 <= y < 2 ^ k -> Z.land (Z.shiftl a k) y = 0.
Proof.
  intros Hk Hy. apply Z.bits_inj'. intros n Hn.
  rewrite Z.land_spec, Z.bits_0.
  destruct (Z.lt_ge_cases n k) as [Hlt|Hge].
  - now rewrite Z.shiftl_spec_low.
  - destruct (Z.eq_dec y 0) as [->|Hy0].
    + now rewrite Z.bits_0, andb_false_r.
    + rewrite (Z.bits_above_log2 y n), andb_false_r; try lia.
      assert (Z.log2 y < k) by (apply Z.log2_lt_pow2; lia). lia.
Qed.

Lemma lor_shiftl_low (a y k : Z) :
  0 <= k -> 0 <= y < 2 ^ k -> Z.lor (Z.shiftl a k) y = a * 2 ^ k + y.
Proof.
  intros Hk Hy.
  pose proof (Z.add_lor_land (Z.shiftl a k) y) as H.
  rewrite land_shiftl_low in H by assumption.
  rewrite Z.shiftl_mul_pow2 in * by assumption. lia.
Qed.

Lemma land_0x3F (x : Z) : Z.land x 0x3F = x mod 64.
Proof. change 0x3F with (Z.ones 6). now rewrite Z.land_ones by lia. Qed.

Lemma lor_0x80 (y : Z) : 0 <= y < 64 -> Z.lor 0x80 y = 128 + y.
Proof.
  intros Hy. change 0x80 with (Z.shiftl 2 6).
  rewrite lor_shiftl_low by (simpl; lia). simpl. lia.
Qed.

Module EncodingFacts.
Import Encoding.

Lemma continuation_byte (c k : Z) :
  0 <= k ->
  Z.lor 0x80 (Z.land (Z.shiftr c k) 0x3F) = 128 + (c / 2 ^ k) mod 64.
Proof.
  intros Hk. rewrite land_0x3F, Z.shiftr_div_pow2 by assumption.
  apply lor_0x80. apply Z.mod_pos_bound. lia.
Qed.

Lemma utf8_encode_1 (c : Z) : c <= 0x7F -> utf8_encode c = [c].
Proof.
  intros H. unfold utf8_encode.
  now replace (c <=? 0x7F) with true by (symmetry; apply Z.leb_le; lia).
Qed.

Lemma utf8_encode_2 (c : Z) :
  0x80 <= c <= 0x7FF -> utf8_encode c = [0xC0 + c / 64; 128 + c mod 64].
Proof.
  intros H. unfold utf8_encode.
  replace (c <=? 0x7F) with false by (symmetry; apply Z.leb_gt; lia).
  replace (c <=? 0x7FF) with true by (symmetry; apply Z.leb_le; lia).
  cbn [continuation_bytes].
  change (6 * Z.of_nat 1) with 6. change (6 * Z.of_nat 0) with 0.
  rewrite !continuation_byte, Z.shiftr_div_pow2 by lia.
  change (2 ^ 6) with 64. change (2 ^ 0) with 1. rewrite Z.div_1_r.
  f_equal. lia.
Qed.

Lemma utf8_encode_3 (c : Z) :
  0x800 <= c <= 0xFFFF ->
  utf8_encode c =
  [0xE0 + c / 4096; 128 + (c / 64) mod 64; 128 + c mod 64].
Proof.
  intros H. unfold utf8_encode.
  replace (c <=? 0x7F) with false by (symmetry; apply Z.leb_gt; lia).
  replace (c <=? 0x7FF) with false by (symmetry; apply Z.leb_gt; lia).
  replace (c <=? 0xFFFF) with true by (symmetry; apply Z.leb_le; lia).
  cbn [continuation_bytes].
  change (6 * Z.of_nat 2) with 12.
  change (6 * Z.of_nat 1) with 6. change (6 * Z.of_nat 0) with 0.
  rewrite !continuation_byte, Z.shiftr_div_pow2 by lia.
  change (2 ^ 12) with 4096.
  change (2 ^ 6) with 64. change (2 ^ 0) with 1. rewrite Z.div_1_r.
  f_equal. lia.
Qed.

Lemma utf8_encode_4 (c : Z) :
  0x10000 <= c ->
  utf8_encode c =
  [0xF0 + c / 262144; 128 + (c / 4096) mod 64; 128 + (c / 64) mod 64;
   128 + c mod 64].
Proof.
  intros H. unfold utf8_encode.
  replace (c <=? 0x7F) with false by (symmetry; apply Z.leb_gt; lia).
  replace (c <=? 0x7FF) with false by (symmetry; apply Z.leb_gt; lia).
  replace (c <=? 0xFFFF) with false by (symmetry; apply Z.leb_gt; lia).
  cbn [continuation_bytes].
  change (6 * Z.of_nat 3) with 18. change (6 * Z.of_nat 2) with 12.
  change (6 * Z.of_nat 1) with 6. change (6 * Z.of_nat 0) with 0.
  rewrite !continuation_byte, Z.shiftr_div_pow2 by lia.
  change (2 ^ 18) with 262144. change (2 ^ 12) with 4096.
  change (2 ^ 6) with 64. change (2 ^ 0) with 1. rewrite Z.div_1_r.
  f_equal. lia.
Qed.

Lemma utf8_encode_length (c : Z) : (length (utf8_encode c) <= 4)%nat.
Proof.
  unfold utf8_encode.
  destruct (c <=? 0x7F); [simpl; lia|].
  destruct (c <=? 0x7FF); [simpl; lia|].
  destruct (c <=? 0xFFFF); simpl; lia.
Qed.

(** The decoder on the bytes of one sequence. *)

Lemma lead_byte_1 (b : Z) :
  0 <= b <= 0x7F -> lead_byte b = (decoder_init, [Scalar b]).
Proof.
  intros H. unfold lead_byte, in_range.
  replace (0 <=? b) with true by (symmetry; apply Z.leb_le; lia).
  now replace (b <=? 0x7F) with true by (symmetry; apply Z.leb_le; lia).
Qed.

Lemma lead_byte_2 (x : Z) :
  2 <= x < 32 -> lead_byte (0xC0 + x) = (mkDecoder x 0 1 0x80 0xBF, []).
Proof. intros H. by_cases x 2 30%nat. Qed.

Lemma lead_byte_3 (x : Z) :
  0 <= x < 16 ->
  lead_byte (0xE0 + x) =
  (mkDecoder x 0 2 (if x =? 0 then 0xA0 else 0x80)
     (if x =? 13 then 0x9F else 0xBF), []).
Proof. intros H. by_cases x 0 16%nat. Qed.

Lemma lead_byte_4 (x : Z) :
  0 <= x < 5 ->
  lead_byte (0xF0 + x) =
  (mkDecoder x 0 3 (if x =? 0 then 0x90 else 0x80)
     (if x =? 4 then 0x8F else 0xBF), []).
Proof. intros H. by_cases x 0 5%nat. Qed.

Lemma handler_continuation (d : decoder) (y : Z) :
  bytes_needed d <> 0 ->
  0 <= y < 64 ->
  lower_boundary d <= 128 + y <= upper_boundary d ->
  handler d (128 + y) =
  let cp := code_point d * 64 + y in
  if bytes_seen d + 1 =? bytes_needed d
  then (decoder_init, [Scalar cp])
  else (mkDecoder cp (bytes_seen d + 1) (bytes_needed d) 0x80 0xBF, []).
Proof.
  intros Hn Hy Hr. unfold handler, in_range.
  replace (bytes_needed d =? 0) with false by (symmetry; apply Z.eqb_neq; lia).
  replace (lower_boundary d <=? 128 + y) with true
    by (symmetry; apply Z.leb_le; lia).
  replace (128 + y <=? upper_boundary d) with true
    by (symmetry; apply Z.leb_le; lia).
  cbn [andb negb].
  rewrite land_0x3F.
  replace ((128 + y) mod 64) with y
    by (symmetry; rewrite Z.add_comm; change 128 with (2 * 64);
        rewrite Z.mod_add by lia; apply Z.mod_small; lia).
  rewrite lor_shiftl_low by (simpl; lia).
  reflexivity.
Qed.

Lemma feed_utf8_encode (c : Z) :
  scalar c -> feed decoder_init (utf8_encode c) = (decoder_init, [Scalar c]).
Proof.
  intros [Hc Hs].
  destruct (Z.le_gt_cases c 0x7F) as [H1|H1].
  { rewrite utf8_encode_1 by lia. cbn [feed]. unfold handler.
    cbn [bytes_needed decoder_init]. change (0 =? 0) with true. cbv iota.
    now rewrite lead_byte_1 by lia. }
  destruct (Z.le_gt_cases c 0x7FF) as [H2|H2].
  { rewrite utf8_encode_2 by lia. cbn [feed].
    unfold handler at 1.
    cbn [bytes_needed decoder_init]. change (0 =? 0) with true. cbv iota.
    rewrite lead_byte_2 by (Z.div_mod_to_equations; lia).
    rewrite handler_continuation;
      cbn [bytes_needed bytes_seen code_point lower_boundary upper_boundary];
      try (Z.div_mod_to_equations; lia).
    cbn. f_equal. f_equal. f_equal. Z.div_mod_to_equations; lia. }
  destruct (Z.le_gt_cases c 0xFFFF) as [H3|H3].
  { rewrite utf8_encode_3 by lia. cbn [feed].
    unfold handler at 1.
    cbn [bytes_needed decoder_init]. change (0 =? 0) with true. cbv iota.
    rewrite lead_byte_3 by (Z.div_mod_to_equations; lia).
    rewrite handler_continuation;
      cbn [bytes_needed bytes_seen code_point lower_boundary upper_boundary];
      try (Z.div_mod_to_equations; lia).
    2:{ destruct (Z.eqb_spec (c / 4096) 0), (Z.eqb_spec (c / 4096) 13);
        Z.div_mod_to_equations; lia. }
    change (0 + 1 =? 2) with false. cbv iota zeta.
    rewrite handler_continuation;
      cbn [bytes_needed bytes_seen code_point lower_boundary upper_boundary];
      try (Z.div_mod_to_equations; lia).
    cbn. f_equal. f_equal. f_equal. Z.div_mod_to_equations; lia. }
  rewrite utf8_encode_4 by lia. cbn [feed].
  unfold handler at 1.
  cbn [bytes_needed decoder_init]. change (0 =? 0) with true. cbv iota.
  rewrite lead_byte_4 by (Z.div_mod_to_equations; lia).
  rewrite handler_continuation;
    cbn [bytes_needed bytes_seen code_point lower_boundary upper_boundary];
    try (Z.div_mod_to_equations; lia).
  2:{ destruct (Z.eqb_spec (c / 262144) 0), (Z.eqb_spec (c / 262144) 4);
      Z.div_mod_to_equations; lia. }
  change (0 + 1 =? 3) with false. cbv iota zeta.
  rewrite handler_continuation;
    cbn [bytes_needed bytes_seen code_point lower_boundary upper_boundary];
    try (Z.div_mod_to_equations; lia).
  change (0 + 1 + 1 =? 3) with false. cbv iota zeta.
  rewrite handler_continuation;
    cbn [bytes_needed bytes_seen code_point lower_boundary upper_boundary];
    try (Z.div_mod_to_equations; lia).
  cbn. f_equal. f_equal. f_equal. Z.div_mod_to_equations; lia.
Qed.

Lemma feed_app (a b : list Z) :
  forall d,
    feed d (a ++ b) =
    let '(d1, out1) := feed d a in
    let '(d2, out2) := feed d1 b in
    (d2, out1 ++ out2).
Proof.
  induction a as [|x a IH]; intros d; cbn [feed app].
  - now destruct (feed d b).
  - destruct (handler d x) as [d1 o1]. rewrite IH.
    destruct (feed d1 a) as [d2 o2]. destruct (feed d2 b) as [d3 o3].
    now rewrite app_assoc.
Qed.

Lemma feed_scalars (cs : list Z) :
  Forall scalar cs ->
  feed decoder_init (flat_map utf8_encode cs) = (decoder_init, map Scalar cs).
Proof.
  induction 1 as [|c cs Hc _ IH]; [reflexivity|].
  cbn [flat_map map]. rewrite feed_app, feed_utf8_encode, IH by assumption.
  reflexivity.
Qed.

Lemma utf8_decode_encode (cs : list Z) :
  Forall scalar cs -> utf8_decode (flat_map utf8_encode cs) = map Scalar cs.
Proof.
  intros H. unfold utf8_decode. rewrite feed_scalars by assumption.
  apply app_nil_r.
Qed.

Lemma scalars_map_Scalar (fatal : bool) (cs : list Z) :
  scalars fatal (map Scalar cs) = Ok cs.
Proof.
  induction cs as [|c cs IH]; [reflexivity|].
  cbn [map scalars]. now rewrite IH.
Qed.

(** Strings and their scalar values. *)

Lemma is_lead_spec (c : Z) : is_lead c = true <-> 0xD800 <= c <= 0xDBFF.
Proof. unfold is_lead. rewrite andb_true_iff, !Z.leb_le. tauto. Qed.

Lemma is_trail_spec (c : Z) : is_trail c = true <-> 0xDC00 <= c <= 0xDFFF.
Proof. unfold is_trail. rewrite andb_true_iff, !Z.leb_le. tauto. Qed.

Lemma is_lead_false (c : Z) : is_lead c = false <-> ~ 0xD800 <= c <= 0xDBFF.
Proof. rewrite <- is_lead_spec. now destruct (is_lead c). Qed.

Lemma is_trail_false (c : Z) : is_trail c = false <-> ~ 0xDC00 <= c <= 0xDFFF.
Proof. rewrite <- is_trail_spec. now destruct (is_trail c). Qed.

Lemma scalar_REPLACEMENT : scalar REPLACEMENT.
Proof. unfold scalar, REPLACEMENT. lia. Qed.

Lemma to_scalar_values_two (c d : Z) (s : JsString) :
  to_scalar_values (c :: d :: s) =
  if is_lead c then
    if is_trail d
    then (0x10000 + Z.shiftl (c - 0xD800) 10 + (d - 0xDC00))
           :: to_scalar_values s
    else REPLACEMENT :: to_scalar_values (d :: s)
  else if is_trail c then REPLACEMENT :: to_scalar_values (d :: s)
  else c :: to_scalar_values (d :: s).
Proof. reflexivity. Qed.

Lemma isWellFormed_two (c d : Z) (s : JsString) :
  isWellFormed (c :: d :: s) =
  if is_lead c then is_trail d && isWellFormed s
  else negb (is_trail c) && isWellFormed (d :: s).
Proof. reflexivity. Qed.

Lemma to_scalar_values_scalar (s : JsString) :
  Forall code_unit s -> Forall scalar (to_scalar_values s).
Proof.
  induction s as [| c | c d s IH1 IH2] using list_pair_ind; intros Hs.
  - constructor.
  - apply Forall_inv in Hs. unfold code_unit in Hs. cbn [to_scalar_values].
    destruct (is_lead c) eqn:El; [repeat constructor; apply scalar_REPLACEMENT|].
    destruct (is_trail c) eqn:Et; [repeat constructor; apply scalar_REPLACEMENT|].
    apply is_lead_false in El. apply is_trail_false in Et.
    repeat constructor; unfold scalar; lia.
  - pose proof (Forall_inv Hs) as Hc. apply Forall_inv_tail in Hs.
    pose proof (Forall_inv Hs) as Hd.
    unfold code_unit in Hc, Hd.
    rewrite to_scalar_values_two.
    destruct (is_lead c) eqn:El.
    + destruct (is_trail d) eqn:Et.
      * apply is_lead_spec in El. apply is_trail_spec in Et.
        constructor; [|apply IH1; now apply Forall_inv_tail in Hs].
        rewrite Z.shiftl_mul_pow2 by lia. change (2 ^ 10) with 1024.
        unfold scalar. lia.
      * constructor; [apply scalar_REPLACEMENT | now apply IH2].
    + destruct (is_trail c) eqn:Et.
      * constructor; [apply scalar_REPLACEMENT | now apply IH2].
      * apply is_lead_false in El. apply is_trail_false in Et.
        constructor; [unfold scalar; lia | now apply IH2].
Qed.

Lemma to_scalar_values_length (s : JsString) :
  (length (to_scalar_values s) <= length s)%nat.
Proof.
  induction s as [| c | c d s IH1 IH2] using list_pair_ind.
  - simpl. lia.
  - cbn [to_scalar_values]. destruct (is_lead c), (is_trail c); simpl; lia.
  - rewrite to_scalar_values_two.
    destruct (is_lead c), (is_trail d), (is_trail c);
      cbn [length] in *; lia.
Qed.

Lemma flat_map_utf8_length (cs : list Z) :
  (length (flat_map utf8_encode cs) <= 4 * length cs)%nat.
Proof.
  induction cs as [|c cs IH]; [simpl; lia|].
  cbn [flat_map]. rewrite length_app. cbn [length].
  pose proof (utf8_encode_length c). lia.
Qed.

Lemma TextEncoder_encode_length (s : JsString) :
  (length (TextEncoder_encode s) <= 4 * length s)%nat.
Proof.
  unfold TextEncoder_encode.
  pose proof (flat_map_utf8_length (to_scalar_values s)).
  pose proof (to_scalar_values_length s). lia.
Qed.

Lemma utf16_encode_pair (c d : Z) :
  0xD800 <= c <= 0xDBFF -> 0xDC00 <= d <= 0xDFFF ->
  utf16_encode (0x10000 + Z.shiftl (c - 0xD800) 10 + (d - 0xDC00)) = [c; d].
Proof.
  intros Hc Hd. unfold utf16_encode.
  rewrite Z.shiftl_mul_pow2 by lia. change (2 ^ 10) with 1024.
  replace (_ <? 0x10000) with false by (symmetry; apply Z.ltb_ge; lia).
  rewrite Z.shiftr_div_pow2 by lia. change (2 ^ 10) with 1024.
  change 0x3FF with (Z.ones 10). rewrite Z.land_ones by lia.
  change (2 ^ 10) with 1024.
  f_equal; [|f_equal]; Z.div_mod_to_equations; lia.
Qed.

Lemma utf16_encode_unit (c : Z) : c < 0x10000 -> utf16_encode c = [c].
Proof.
  intros H. unfold utf16_encode.
  now replace (c <? 0x10000) with true by (symmetry; apply Z.ltb_lt; lia).
Qed.

Lemma utf16_of_scalar_values (s : JsString) :
  Forall code_unit s -> isWellFormed s = true ->
  flat_map utf16_encode (to_scalar_values s) = s.
Proof.
  induction s as [| c | c d s IH1 IH2] using list_pair_ind; intros Hs Hw.
  - reflexivity.
  - apply Forall_inv in Hs. unfold code_unit in Hs.
    cbn [isWellFormed to_scalar_values] in *.
    destruct (is_lead c); [discriminate|].
    destruct (is_trail c); [discriminate|].
    cbn [flat_map]. rewrite utf16_encode_unit by lia. reflexivity.
  - pose proof (Forall_inv Hs) as Hc. apply Forall_inv_tail in Hs.
    unfold code_unit in Hc.
    rewrite isWellFormed_two in Hw. rewrite to_scalar_values_two.
    destruct (is_lead c) eqn:El.
    + apply andb_true_iff in Hw as [Et Hw]. rewrite Et.
      apply is_lead_spec in El. apply is_trail_spec in Et.
      cbn [flat_map]. rewrite utf16_encode_pair by assumption.
      cbn [app]. f_equal. f_equal. apply IH1; [|assumption].
      now apply Forall_inv_tail in Hs.
    + apply andb_true_iff in Hw as [Et Hw]. apply negb_true_iff in Et.
      rewrite Et. cbn [flat_map].
      rewrite utf16_encode_unit by lia. cbn [app]. f_equal.
      now apply IH2.
Qed.

Lemma strip_BOM_to_scalar_values (s : JsString) :
  starts_with_BOM s = false ->
  strip_BOM (to_scalar_values s) = to_scalar_values s.
Proof.
  destruct s as [|c s]; [reflexivity|]. cbn [starts_with_BOM]. intros Hb.
  apply Z.eqb_neq in Hb. unfold BOM in Hb.
  cbn [to_scalar_values].
  destruct (is_lead c) eqn:El.
  - apply is_lead_spec in El. destruct s as [|d s]; [reflexivity|].
    destruct (is_trail d) eqn:Et; [|reflexivity].
    apply is_trail_spec in Et. unfold strip_BOM.
    rewrite Z.shiftl_mul_pow2 by lia. change (2 ^ 10) with 1024.
    now replace (_ =? BOM) with false
      by (symmetry; apply Z.eqb_neq; unfold BOM; lia).
  - destruct (is_trail c); [reflexivity|]. unfold strip_BOM.
    now replace (c =? BOM) with false by (symmetry; now apply Z.eqb_neq).
Qed.

(** Decoding what the encoder wrote gives the string back, for a
    well-formed string that does not start with U+FEFF. *)
Lemma TextDecoder_decode_encode (fatal : bool) (s : JsString) :
  Forall code_unit s ->
  isWellFormed s = true ->
  starts_with_BOM s = false ->
  TextDecoder_decode fatal (TextEncoder_encode s) = Ok s.
Proof.
  intros Hs Hw Hb. unfold TextDecoder_decode, TextEncoder_encode.
  rewrite utf8_decode_encode by now apply to_scalar_values_scalar.
  rewrite scalars_map_Scalar. unfold bind.
  rewrite strip_BOM_to_scalar_values by assumption.
  now rewrite utf16_of_scalar_values.
Qed.

(** ** What the decoder returns for the encoder's output, in general *)

Lemma toWellFormed_two (c d : Z) (s : JsString) :
  toWellFormed (c :: d :: s) =
  if is_lead c then
    if is_trail d then c :: d :: toWellFormed s
    else REPLACEMENT :: toWellFormed (d :: s)
  else if is_trail c then REPLACEMENT :: toWellFormed (d :: s)
  else c :: toWellFormed (d :: s).
Proof. reflexivity. Qed.

Lemma utf16_encode_REPLACEMENT : utf16_encode REPLACEMENT = [REPLACEMENT].
Proof. reflexivity. Qed.

Lemma utf16_of_to_scalar_values (s : JsString) :
  Forall code_unit s ->
  flat_map utf16_encode (to_scalar_values s) = toWellFormed s.
Proof.
  induction s as [| c | c d s IH1 IH2] using list_pair_ind; intros Hs.
  - reflexivity.
  - apply Forall_inv in Hs. unfold code_unit in Hs.
    cbn [toWellFormed to_scalar_values].
    destruct (is_lead c); [reflexivity|].
    destruct (is_trail c); [reflexivity|].
    cbn [flat_map]. rewrite utf16_encode_unit by lia. reflexivity.
  - pose proof (Forall_inv Hs) as Hc. apply Forall_inv_tail in Hs.
    unfold code_unit in Hc.
    rewrite toWellFormed_two, to_scalar_values_two.
    destruct (is_lead c) eqn:El.
    + destruct (is_trail d) eqn:Et.
      * apply is_lead_spec in El. apply is_trail_spec in Et.
        cbn [flat_map]. rewrite utf16_encode_pair by assumption.
        cbn [app]. f_equal. f_equal. apply IH1.
        now apply Forall_inv_tail in Hs.
      * cbn [flat_map]. rewrite utf16_encode_REPLACEMENT, IH2 by assumption.
        reflexivity.
    + destruct (is_trail c) eqn:Et.
      * cbn [flat_map]. rewrite utf16_encode_REPLACEMENT, IH2 by assumption.
        reflexivity.
      * cbn [flat_map]. rewrite utf16_encode_unit by lia. cbn [app]. f_equal.
        now apply IH2.
Qed.

Lemma toWellFormed_length (s : JsString) :
  length (toWellFormed s) = length s.
Proof.
  induction s as [| c | c d s IH1 IH2] using list_pair_ind.
  - reflexivity.
  - cbn [toWellFormed]. now destruct (is_lead c), (is_trail c).
  - rewrite toWellFormed_two.
    destruct (is_lead c), (is_trail d), (is_trail c); cbn [length] in *; lia.
Qed.

(** [toWellFormed] leaves exactly the well-formed strings as they are. *)
Lemma toWellFormed_id (s : JsString) :
  toWellFormed s = s <-> isWellFormed s = true.
Proof.
  induction s as [| c | c d s IH1 IH2] using list_pair_ind.
  - now split.
  - cbn [toWellFormed isWellFormed].
    destruct (is_lead c) eqn:El.
    + apply is_lead_spec in El. split; [|discriminate].
      intros H. injection H as H. unfold REPLACEMENT in H. lia.
    + destruct (is_trail c) eqn:Et; cbn [negb andb].
      * apply is_trail_spec in Et. split; [|discriminate].
        intros H. injection H as H. unfold REPLACEMENT in H. lia.
      * now split.
  - rewrite toWellFormed_two, isWellFormed_two.
    destruct (is_lead c) eqn:El.
    + destruct (is_trail d) eqn:Et; cbn [andb].
      * rewrite <- IH1. split; [intros H; now injection H | now intros ->].
      * apply is_lead_spec in El. split; [|discriminate].
        intros H. injection H as H _. unfold REPLACEMENT in H. lia.
    + destruct (is_trail c) eqn:Et; cbn [negb andb].
      * apply is_trail_spec in Et. split; [|discriminate].
        intros H. injection H as H _. unfold REPLACEMENT in H. lia.
      * rewrite <- IH2. split; [intros H; now injection H | now intros ->].
Qed.

Lemma toWellFormed_BOM (t : JsString) :
  toWellFormed (BOM :: t) = BOM :: toWellFormed t.
Proof. now destruct t. Qed.

Lemma without_BOM_toWellFormed (s : JsString) :
  starts_with_BOM s = false -> without_BOM (toWellFormed s) = toWellFormed s.
Proof.
  destruct s as [|c t]; [reflexivity|]. cbn [starts_with_BOM]. intros Eb.
  apply Z.eqb_neq in Eb. unfold BOM in Eb. cbn [toWellFormed].
  destruct (is_lead c) eqn:El.
  - apply is_lead_spec in El. destruct t as [|d t]; [reflexivity|].
    destruct (is_trail d); unfold without_BOM;
      [now replace (c =? BOM) with false
          by (symmetry; apply Z.eqb_neq; unfold BOM; lia)
      | reflexivity].
  - destruct (is_trail c); [reflexivity|]. unfold without_BOM.
    now replace (c =? BOM) with false by (symmetry; now apply Z.eqb_neq).
Qed.

Lemma strip_BOM_toWellFormed (s : JsString) :
  Forall code_unit s ->
  flat_map utf16_encode (strip_BOM (to_scalar_values s)) = received s.
Proof.
  intros Hs. unfold received.
  destruct (starts_with_BOM s) eqn:Eb.
  - destruct s as [|c t]; [discriminate|]. cbn [starts_with_BOM] in Eb.
    apply Z.eqb_eq in Eb. subst c.
    apply Forall_inv_tail in Hs.
    assert (Hsv : to_scalar_values (BOM :: t) = BOM :: to_scalar_values t)
      by now destruct t.
    rewrite Hsv, toWellFormed_BOM. unfold strip_BOM, without_BOM.
    rewrite Z.eqb_refl. now apply utf16_of_to_scalar_values.
  - rewrite strip_BOM_to_scalar_values, utf16_of_to_scalar_values
      by assumption.
    symmetry. now apply without_BOM_toWellFormed.
Qed.

(** Decoding what the encoder wrote for any string [s] gives [s] made
    well formed, without its leading U+FEFF; in either error mode. *)
Lemma TextDecoder_decode_TextEncoder_encode (fatal : bool) (s : JsString) :
  Forall code_unit s ->
  TextDecoder_decode fatal (TextEncoder_encode s) = Ok (received s).
Proof.
  intros Hs. unfold TextDecoder_decode, TextEncoder_encode.
  rewrite utf8_decode_encode by now apply to_scalar_values_scalar.
  rewrite scalars_map_Scalar. unfold bind.
  now rewrite strip_BOM_toWellFormed.
Qed.

(** The received text is the text sent exactly for the well-formed
    strings that do not start with U+FEFF. *)
Lemma received_id (s : JsString) :
  received s = s <-> isWellFormed s = true /\ starts_with_BOM s = false.
Proof.
  unfold received. destruct (starts_with_BOM s) eqn:Eb.
  - split; [|intros [_ H]; discriminate]. intros H.
    destruct s as [|c t]; [discriminate|]. cbn [starts_with_BOM] in Eb.
    apply Z.eqb_eq in Eb. subst c.
    rewrite toWellFormed_BOM in H. unfold without_BOM in H.
    rewrite Z.eqb_refl in H.
    apply (f_equal (@length Z)) in H. rewrite toWellFormed_length in H.
    cbn [length] in H. lia.
  - rewrite without_BOM_toWellFormed by exact Eb.
    rewrite toWellFormed_id. tauto.
Qed.

(** ** The length of the encoder's output *)

Lemma utf8_encode_length_bmp (c : Z) :
  c <= 0xFFFF -> (1 <= length (utf8_encode c) <= 3)%nat.
Proof.
  intros H. unfold utf8_encode.
  destruct (c <=? 0x7F); [simpl; lia|].
  destruct (c <=? 0x7FF); [simpl; lia|].
  destruct (c <=? 0xFFFF) eqn:E; [simpl; lia|].
  apply Z.leb_gt in E. lia.
Qed.

(** One to three bytes per code unit. *)
Lemma TextEncoder_encode_bounds (s : JsString) :
  Forall code_unit s ->
  (length s <= length (TextEncoder_encode s) <= 3 * length s)%nat.
Proof.
  unfold TextEncoder_encode.
  induction s as [| c | c d s IH1 IH2] using list_pair_ind; intros Hs.
  - simpl. lia.
  - apply Forall_inv in Hs. unfold code_unit in Hs. cbn [to_scalar_values].
    destruct (is_lead c); [simpl; lia|].
    destruct (is_trail c); [simpl; lia|].
    cbn [flat_map length]. rewrite app_nil_r.
    pose proof (utf8_encode_length_bmp c). lia.
  - pose proof (Forall_inv Hs) as Hc. apply Forall_inv_tail in Hs.
    unfold code_unit in Hc.
    rewrite to_scalar_values_two.
    assert (Hr : length (utf8_encode REPLACEMENT) = 3%nat) by reflexivity.
    destruct (is_lead c) eqn:El.
    + destruct (is_trail d) eqn:Et.
      * apply is_lead_spec in El. apply is_trail_spec in Et.
        cbn [flat_map]. rewrite length_app.
        rewrite utf8_encode_4
          by (rewrite Z.shiftl_mul_pow2 by lia; change (2 ^ 10) with 1024;
              lia).
        apply Forall_inv_tail in Hs. specialize (IH1 Hs).
        cbn [length] in *. lia.
      * cbn [flat_map]. rewrite length_app, Hr. specialize (IH2 Hs).
        cbn [length] in *. lia.
    + destruct (is_trail c) eqn:Et.
      * cbn [flat_map]. rewrite length_app, Hr. specialize (IH2 Hs).
        cbn [length] in *. lia.
      * cbn [flat_map]. rewrite length_app. specialize (IH2 Hs).
        pose proof (utf8_encode_length_bmp c). cbn [length] in *. lia.
Qed.

Lemma TextEncoder_encode_small (s : JsString) :
  js_string s -> Z.of_nat (length (TextEncoder_encode s)) < 2 ^ 64.
Proof.
  intros [_ Hlen]. pose proof (TextEncoder_encode_length s). lia.
Qed.

(** ** The two error modes of the decoder *)

(** The replacement mode never throws. *)
Lemma scalars_replacement (items : list item) :
  exists cs, scalars false items = Ok cs.
Proof.
  induction items as [|[c|] t [cs IH]]; [now exists []| |];
    cbn [scalars]; rewrite IH; unfold bind; eauto.
Qed.

Lemma TextDecoder_decode_replacement (bs : Uint8Array) :
  exists s, TextDecoder_decode false bs = Ok s.
Proof.
  unfold TextDecoder_decode.
  destruct (scalars_replacement (utf8_decode bs)) as [cs ->].
  unfold bind. eauto.
Qed.

(** The fatal mode throws exactly on an error of the decoder. *)
Lemma scalars_fatal (items : list item) :
  if forallb no_error items
  then exists cs, scalars true items = Ok cs
  else scalars true items = Throw invalid_data.
Proof.
  induction items as [|[c|] t IH]; cbn [forallb no_error scalars andb].
  - now exists [].
  - destruct (forallb no_error t).
    + destruct IH as [cs ->]. unfold bind. eauto.
    + now rewrite IH.
  - reflexivity.
Qed.

Lemma TextDecoder_decode_fatal (bs : Uint8Array) :
  if is_utf8 bs
  then exists s, TextDecoder_decode true bs = Ok s
  else TextDecoder_decode true bs = Throw invalid_data.
Proof.
  unfold is_utf8, TextDecoder_decode.
  pose proof (scalars_fatal (utf8_decode bs)) as H.
  destruct (forallb no_error (utf8_decode bs)).
  - destruct H as [cs ->]. unfold bind. eauto.
  - now rewrite H.
Qed.

(** ** The first character *)

Lemma TextEncoder_encode_cons_ascii (x : Z) (s : JsString) :
  ascii_char x -> TextEncoder_encode (x :: s) = x :: TextEncoder_encode s.
Proof.
  unfold ascii_char. intros Hx. unfold TextEncoder_encode.
  assert (El : is_lead x = false) by (apply is_lead_false; lia).
  assert (Et : is_trail x = false) by (apply is_trail_false; lia).
  destruct s as [|d s].
  - cbn [to_scalar_values]. rewrite El, Et. cbn [flat_map].
    now rewrite utf8_encode_1 by lia.
  - rewrite to_scalar_values_two, El, Et. cbn [flat_map].
    now rewrite utf8_encode_1 by lia.
Qed.

Lemma to_scalar_values_head (c : Z) (t : JsString) :
  exists sv svs,
    to_scalar_values (c :: t) = sv :: svs /\ (sv = c \/ 0x80 <= sv).
Proof.
  cbn [to_scalar_values].
  destruct (is_lead c) eqn:El.
  - destruct t as [|d t]; [do 2 eexists; split; [reflexivity|right]|].
    { unfold REPLACEMENT; lia. }
    destruct (is_trail d) eqn:Et; do 2 eexists; (split; [reflexivity|right]).
    + apply is_lead_spec in El. apply is_trail_spec in Et.
      rewrite Z.shiftl_mul_pow2 by lia. change (2 ^ 10) with 1024. lia.
    + unfold REPLACEMENT; lia.
  - destruct (is_trail c); do 2 eexists; (split; [reflexivity|]).
    + right. unfold REPLACEMENT; lia.
    + now left.
Qed.

Lemma ascii_isWellFormed (s : JsString) :
  Forall ascii_char s -> isWellFormed s = true.
Proof.
  induction 1 as [|c s Hc _ IH]; [reflexivity|]. unfold ascii_char in Hc.
  cbn [isWellFormed].
  replace (is_lead c) with false by (symmetry; apply is_lead_false; lia).
  replace (is_trail c) with false by (symmetry; apply is_trail_false; lia).
  exact IH.
Qed.

End EncodingFacts.

(** * Properties of the stream cipher *)
Module ChaChaFacts.
Import ChaCha.

Lemma xor_block_length (block : list Z) (src : list Z) :
  forall k, length (xor_block block k src) = length src.
Proof.
  induction src as [|s t IH]; intros k; simpl; [reflexivity|].
  now rewrite IH.
Qed.

Lemma lxor_cancel (a b : Z) : Z.lxor (Z.lxor a b) b = a.
Proof.
  now rewrite Z.lxor_assoc, Z.lxor_nilpotent, Z.lxor_0_r.
Qed.

Lemma xor_block_involutive (block : list Z) (src : list Z) :
  forall k, xor_block block k (xor_block block k src) = src.
Proof.
  induction src as [|s t IH]; intros k; simpl; [reflexivity|].
  now rewrite lxor_cancel, IH.
Qed.

Lemma xor_blocks_S (n : nat) (key nc : Uint8Array) (cl : nat)
  (src : Uint8Array) :
  xor_blocks (S n) key nc cl src =
  let '(nc', carry) := incrementCounter nc cl 1 in
  if 0 <? carry then Throw counter_overflow
  else
    rest <- xor_blocks n key nc' cl (skipn 64 src) ;;
    Ok (xor_block (core nc key) 0 (firstn 64 src) ++ rest).
Proof. reflexivity. Qed.

Lemma xor_blocks_length (key : Uint8Array) (cl : nat) :
  forall n nc src out,
    xor_blocks n key nc cl src = Ok out ->
    length out = Nat.min (length src) (64 * n).
Proof.
  induction n as [|n IH]; intros nc src out H.
  - injection H as <-. simpl. lia.
  - rewrite xor_blocks_S in H.
    destruct (incrementCounter nc cl 1) as [nc' carry].
    destruct (0 <? carry); [discriminate|].
    destruct (xor_blocks n key nc' cl (skipn 64 src)) as [rest|] eqn:E;
      unfold bind in H; [|discriminate].
    apply Ok_inj in H. subst out.
    apply IH in E.
    rewrite length_app, xor_block_length, length_firstn, E, length_skipn.
    lia.
Qed.

Lemma xor_blocks_involutive (key : Uint8Array) (cl : nat) :
  forall n nc src out,
    xor_blocks n key nc cl src = Ok out ->
    (length src <= 64 * n)%nat ->
    xor_blocks n key nc cl out = Ok src.
Proof.
  induction n as [|n IH]; intros nc src out H Hlen.
  - injection H as <-. destruct src; [reflexivity | simpl in Hlen; lia].
  - rewrite xor_blocks_S in H |- *.
    destruct (incrementCounter nc cl 1) as [nc' carry].
    destruct (0 <? carry); [discriminate|].
    destruct (xor_blocks n key nc' cl (skipn 64 src)) as [rest|] eqn:E;
      unfold bind in H; [|discriminate].
    apply Ok_inj in H. subst out.
    pose proof E as Hrest. apply xor_blocks_length in Hrest.
    rewrite length_skipn in Hrest.
    set (head := xor_block (core nc key) 0 (firstn 64 src)).
    assert (Hhead : length head = Nat.min 64 (length src)).
    { unfold head. now rewrite xor_block_length, length_firstn. }
    assert (Hf : firstn 64 (head ++ rest) = head).
    { destruct (Nat.le_gt_cases 64 (length src)).
      - rewrite firstn_app, firstn_all2 by lia.
        replace (64 - length head)%nat with 0%nat by lia.
        now rewrite firstn_O, app_nil_r.
      - assert (rest = []) by (apply length_zero_iff_nil; lia).
        subst rest. rewrite app_nil_r. apply firstn_all2. lia. }
    assert (Hs : skipn 64 (head ++ rest) = rest).
    { destruct (Nat.le_gt_cases 64 (length src)).
      - rewrite skipn_app, skipn_all2 by lia.
        replace (64 - length head)%nat with 0%nat by lia.
        reflexivity.
      - assert (rest = []) by (apply length_zero_iff_nil; lia).
        subst rest. rewrite app_nil_r. apply skipn_all2. lia. }
    rewrite Hf, Hs.
    rewrite (IH _ _ _ E) by (rewrite length_skipn; lia).
    unfold bind, head. rewrite xor_block_involutive.
    now rewrite firstn_skipn.
Qed.

Lemma land_255 (x : Z) : Z.land x 0xFF = x mod 256.
Proof. change 0xFF with (Z.ones 8). now rewrite Z.land_ones by lia. Qed.

Lemma incrementCounter_spec :
  forall l nc carry,
    0 <= carry <= 1 -> (l <= length nc)%nat ->
    let '(nc', carry') := incrementCounter nc l carry in
    counter_value l nc' + 256 ^ Z.of_nat l * carry'
      = counter_value l nc + carry
    /\ 0 <= carry' <= 1
    /\ 0 <= counter_value l nc' < 256 ^ Z.of_nat l
    /\ length nc' = length nc.
Proof.
  induction l as [|l IH]; intros nc carry Hc Hl.
  - change (256 ^ Z.of_nat 0) with 1.
    destruct nc; cbn [incrementCounter counter_value length]; lia.
  - destruct nc as [|b t]; [simpl in Hl; lia|].
    simpl in Hl.
    cbn [incrementCounter].
    set (c := carry + Z.land b 255).
    assert (Hb : 0 <= Z.land b 255 < 256).
    { rewrite (land_255 b). apply Z.mod_pos_bound. lia. }
    assert (Hq : 0 <= Z.shiftr c 8 <= 1).
    { rewrite Z.shiftr_div_pow2 by lia. change (2 ^ 8) with 256.
      unfold c. split.
      - apply Z.div_pos; lia.
      - apply Z.lt_succ_r. apply Z.div_lt_upper_bound; lia. }
    specialize (IH t (Z.shiftr c 8) Hq ltac:(lia)).
    destruct (incrementCounter t l (Z.shiftr c 8)) as [t' carry'].
    destruct IH as (IH1 & IH2 & IH3 & IH4).
    cbn [counter_value length].
    rewrite !land_255 in *.
    rewrite Z.mod_mod by lia.
    rewrite Z.shiftr_div_pow2 in IH1 by lia. change (2 ^ 8) with 256 in IH1.
    rewrite Nat2Z.inj_succ, Z.pow_succ_r by lia.
    pose proof (Z.div_mod c 256 ltac:(lia)) as Hdm.
    pose proof (Z.mod_pos_bound c 256 ltac:(lia)) as Hm.
    assert (Hcb : c = carry + b mod 256) by (unfold c; now rewrite land_255).
    clearbody c.
    set (p := 256 ^ Z.of_nat l) in *. clearbody p.
    repeat split; lia.
Qed.

Lemma xor_blocks_ok (key : Uint8Array) (cl : nat) :
  forall n nc src,
    (cl <= length nc)%nat ->
    counter_value cl nc + Z.of_nat n < 256 ^ Z.of_nat cl ->
    exists out, xor_blocks n key nc cl src = Ok out.
Proof.
  induction n as [|n IH]; intros nc src Hl Hv.
  - now exists [].
  - rewrite xor_blocks_S.
    pose proof (incrementCounter_spec cl nc 1 ltac:(lia) Hl) as Hs.
    destruct (incrementCounter nc cl 1) as [nc' carry].
    destruct Hs as (H1 & H2 & H3 & H4).
    assert (carry = 0) by nia. subst carry.
    change (0 <? 0) with false. cbv iota.
    destruct (IH nc' (skipn 64 src)) as [rest Hrest]; [lia | lia |].
    rewrite Hrest. unfold bind. eauto.
Qed.

Lemma counter_value_zeros (l : nat) (nonce : list Z) :
  counter_value l (new_Uint8Array l ++ nonce) = 0.
Proof.
  induction l as [|l IH]; simpl; [now destruct nonce|].
  unfold new_Uint8Array in IH. rewrite IH. reflexivity.
Qed.

Lemma blocks_bound (len : nat) : (len <= 64 * blocks len)%nat.
Proof.
  unfold blocks.
  pose proof (Nat.div_mod_eq (len + 63) 64) as H.
  pose proof (Nat.mod_upper_bound (len + 63) 64 ltac:(lia)). lia.
Qed.

Lemma blocks_small (len : nat) :
  Z.of_nat len < 2 ^ 64 -> Z.of_nat (blocks len) < 256 ^ 8.
Proof.
  intros H. unfold blocks.
  pose proof (Nat.div_mod_eq (len + 63) 64) as Hd.
  change (256 ^ 8) with (2 ^ 64). lia.
Qed.

(** [streamXOR] with a 32-byte key and an 8-byte nonce returns, keeps
    the length of its input, and undoes itself. *)
Lemma streamXOR_roundtrip (key nonce src dst : Uint8Array) :
  length key = 32%nat -> length nonce = 8%nat ->
  length dst = length src ->
  Z.of_nat (length src) < 2 ^ 64 ->
  exists out,
    streamXOR key nonce src dst = Ok out
    /\ length out = length src
    /\ forall dst', length dst' = length src ->
         streamXOR key nonce out dst' = Ok src.
Proof.
  intros Hk Hn Hd Hlen.
  destruct (xor_blocks_ok key (16 - length nonce) (blocks (length src))
              (new_Uint8Array (16 - length nonce) ++ nonce) src)
    as [out Hout].
  { rewrite length_app. unfold new_Uint8Array. rewrite repeat_length. lia. }
  { rewrite counter_value_zeros, Hn. apply blocks_small in Hlen.
    change (Z.of_nat (16 - 8)) with 8. lia. }
  assert (Hol : length out = length src).
  { apply xor_blocks_length in Hout. pose proof (blocks_bound (length src)).
    lia. }
  exists out. split; [|split; [exact Hol|]].
  - unfold streamXOR. rewrite Hk, Hn, Hd, Nat.ltb_irrefl. cbn [Nat.eqb negb orb].
    rewrite Hn in Hout. rewrite Hout. unfold bind.
    rewrite skipn_all2, app_nil_r by lia. reflexivity.
  - intros dst' Hd'. unfold streamXOR.
    rewrite Hk, Hn, Hd', Hol, Nat.ltb_irrefl. cbn [Nat.eqb negb orb].
    rewrite Hn in Hout.
    rewrite (xor_blocks_involutive _ _ _ _ _ _ Hout (blocks_bound _)).
    unfold bind. rewrite skipn_all2, app_nil_r by lia. reflexivity.
Qed.

(** ** The key stream under a repeated key and nonce *)

Lemma xor_block_nth (block : list Z) (src : list Z) :
  forall k i, (i < length src)%nat ->
    nth i (xor_block block k src) 0 = Z.lxor (nth i src 0) (get (k + i) block).
Proof.
  induction src as [|s t IH]; intros k i Hi; [cbn [length] in Hi; lia|].
  cbn [xor_block]. destruct i as [|i].
  - cbn [nth]. now rewrite Nat.add_0_r.
  - cbn [nth length] in *. rewrite IH by lia. now rewrite Nat.add_succ_r.
Qed.

(** Two inputs under one key and counter: the key stream cancels in
    the exclusive or of the outputs. *)
Lemma xor_blocks_pointwise (key : Uint8Array) (cl : nat) :
  forall n1 n2 nc a b oa ob i,
    xor_blocks n1 key nc cl a = Ok oa ->
    xor_blocks n2 key nc cl b = Ok ob ->
    (length a <= 64 * n1)%nat -> (length b <= 64 * n2)%nat ->
    (i < length a)%nat -> (i < length b)%nat ->
    Z.lxor (nth i oa 0) (nth i ob 0) = Z.lxor (nth i a 0) (nth i b 0).
Proof.
  induction n1 as [|n1 IH]; intros n2 nc a b oa ob i Ha Hb Hla Hlb Hia Hib;
    [lia|].
  destruct n2 as [|n2]; [lia|].
  rewrite xor_blocks_S in Ha, Hb.
  destruct (incrementCounter nc cl 1) as [nc' carry].
  destruct (0 <? carry); [discriminate|].
  destruct (xor_blocks n1 key nc' cl (skipn 64 a)) as [ra|] eqn:Era;
    [|discriminate].
  destruct (xor_blocks n2 key nc' cl (skipn 64 b)) as [rb|] eqn:Erb;
    [|discriminate].
  unfold bind in Ha, Hb. apply Ok_inj in Ha, Hb. subst oa ob.
  destruct (Nat.lt_ge_cases i 64) as [Hi|Hi].
  - rewrite !app_nth1
      by (rewrite xor_block_length, length_firstn; lia).
    rewrite !xor_block_nth by (rewrite length_firstn; lia).
    rewrite !nth_firstn.
    replace (i <? 64)%nat with true by (symmetry; apply Nat.ltb_lt; lia).
    apply lxor_same_key.
  - assert (Hxa : length (xor_block (core nc key) 0 (firstn 64 a)) = 64%nat)
      by (rewrite xor_block_length, length_firstn; lia).
    assert (Hxb : length (xor_block (core nc key) 0 (firstn 64 b)) = 64%nat)
      by (rewrite xor_block_length, length_firstn; lia).
    rewrite !app_nth2 by lia. rewrite Hxa, Hxb.
    rewrite (IH n2 nc' (skipn 64 a) (skipn 64 b) ra rb (i - 64)%nat Era Erb)
      by (rewrite ?length_skipn; lia).
    rewrite !nth_skipn. now replace (64 + (i - 64))%nat with i by lia.
Qed.

Lemma streamXOR_pointwise (key nonce a da b db oa ob : Uint8Array) (i : nat) :
  streamXOR key nonce a da = Ok oa ->
  streamXOR key nonce b db = Ok ob ->
  length da = length a -> length db = length b ->
  (i < length a)%nat -> (i < length b)%nat ->
  Z.lxor (nth i oa 0) (nth i ob 0) = Z.lxor (nth i a 0) (nth i b 0).
Proof.
  unfold streamXOR. intros Ha Hb Hda Hdb Hia Hib.
  destruct (negb (length key =? 32)%nat); [discriminate|].
  destruct (length da <? length a)%nat; [discriminate|].
  destruct (length db <? length b)%nat; [discriminate|].
  destruct (negb _); [discriminate|].
  destruct (xor_blocks _ _ _ _ a) as [xa|] eqn:Ea; [|discriminate].
  destruct (xor_blocks _ _ _ _ b) as [xb|] eqn:Eb; [|discriminate].
  unfold bind in Ha, Hb. apply Ok_inj in Ha, Hb. subst oa ob.
  rewrite <- Hda, <- Hdb, !skipn_all, !app_nil_r.
  eapply xor_blocks_pointwise; eauto using blocks_bound.
Qed.

(** A changed byte of the input changes that byte of the output, by
    the same bits, and no other byte. *)
Lemma streamXOR_set_at (key nonce src : Uint8Array) (i : nat) (v : Z) :
  length key = 32%nat -> length nonce = 8%nat ->
  Z.of_nat (length src) < 2 ^ 64 ->
  (i < length src)%nat ->
  exists out,
    streamXOR key nonce src (new_Uint8Array (length src)) = Ok out
    /\ length out = length src
    /\ streamXOR key nonce (set_at i v src)
         (new_Uint8Array (length (set_at i v src)))
       = Ok (set_at i (Z.lxor (nth i out 0) (Z.lxor (nth i src 0) v)) out).
Proof.
  intros Hk Hn Hs Hi.
  assert (Hsl : length (set_at i v src) = length src)
    by now apply length_set_at.
  destruct (streamXOR_roundtrip key nonce src (new_Uint8Array (length src)))
    as (out & Hout & Hol & _);
    [exact Hk | exact Hn | apply new_Uint8Array_length | exact Hs |].
  destruct (streamXOR_roundtrip key nonce (set_at i v src)
              (new_Uint8Array (length (set_at i v src))))
    as (out' & Hout' & Hol' & _);
    [exact Hk | exact Hn | apply new_Uint8Array_length | now rewrite Hsl |].
  exists out. split; [exact Hout|]. split; [exact Hol|].
  rewrite Hout'. f_equal.
  apply (nth_ext _ _ 0 0).
  - rewrite length_set_at; lia.
  - intros j Hj.
    assert (Hp : Z.lxor (nth j out 0) (nth j out' 0)
                 = Z.lxor (nth j src 0) (nth j (set_at i v src) 0)).
    { apply (streamXOR_pointwise key nonce src
               (new_Uint8Array (length src)) (set_at i v src)
               (new_Uint8Array (length (set_at i v src))));
        rewrite ?new_Uint8Array_length; try assumption; try reflexivity;
        lia. }
    apply lxor_move in Hp. rewrite Hp.
    destruct (Nat.eq_dec j i) as [->|Hji].
    + rewrite !set_at_nth by lia. reflexivity.
    + rewrite !set_at_nth_other by lia.
      now rewrite Z.lxor_nilpotent, Z.lxor_0_r.
Qed.

End ChaChaFacts.

Module SodiumFacts.
Import Sodium.

Lemma le_encode_length (n : nat) : forall v, length (le_encode n v) = n.
Proof. induction n as [|n IH]; intros v; simpl; [reflexivity|]. now rewrite IH. Qed.

Lemma chacha20_ietf_xor_ic_S (n : nat) (npub : Uint8Array) (ic : Z)
  (key src : Uint8Array) :
  chacha20_ietf_xor_ic (S n) npub ic key src =
  ChaCha.xor_block (ChaCha.core (le_encode 4 ic ++ npub) key) 0
    (firstn 64 src)
    ++ chacha20_ietf_xor_ic n npub (ic + 1) key (skipn 64 src).
Proof. reflexivity. Qed.

Lemma chacha20_ietf_xor_ic_length (npub key : Uint8Array) :
  forall n ic src,
    length (chacha20_ietf_xor_ic n npub ic key src)
    = Nat.min (length src) (64 * n).
Proof.
  induction n as [|n IH]; intros ic src.
  - simpl. lia.
  - rewrite chacha20_ietf_xor_ic_S, length_app, ChaChaFacts.xor_block_length,
      length_firstn, IH, length_skipn. lia.
Qed.

Lemma chacha20_ietf_xor_ic_involutive (npub key : Uint8Array) :
  forall n ic src,
    (length src <= 64 * n)%nat ->
    chacha20_ietf_xor_ic n npub ic key
      (chacha20_ietf_xor_ic n npub ic key src) = src.
Proof.
  induction n as [|n IH]; intros ic src Hlen.
  - destruct src; [reflexivity | simpl in Hlen; lia].
  - rewrite !chacha20_ietf_xor_ic_S.
    set (head := ChaCha.xor_block _ 0 (firstn 64 src)).
    set (rest := chacha20_ietf_xor_ic n npub (ic + 1) key (skipn 64 src)).
    assert (Hhead : length head = Nat.min 64 (length src)).
    { unfold head. now rewrite ChaChaFacts.xor_block_length, length_firstn. }
    assert (Hrest : length rest = (length src - 64)%nat).
    { unfold rest. rewrite chacha20_ietf_xor_ic_length, length_skipn. lia. }
    assert (Hf : firstn 64 (head ++ rest) = head).
    { destruct (Nat.le_gt_cases 64 (length src)).
      - rewrite firstn_app, firstn_all2 by lia.
        replace (64 - length head)%nat with 0%nat by lia.
        now rewrite firstn_O, app_nil_r.
      - assert (rest = []) by (apply length_zero_iff_nil; lia).
        rewrite H0, app_nil_r. apply firstn_all2. lia. }
    assert (Hs : skipn 64 (head ++ rest) = rest).
    { destruct (Nat.le_gt_cases 64 (length src)).
      - rewrite skipn_app, skipn_all2 by lia.
        replace (64 - length head)%nat with 0%nat by lia.
        reflexivity.
      - assert (rest = []) by (apply length_zero_iff_nil; lia).
        rewrite H0, app_nil_r. apply skipn_all2. lia. }
    rewrite Hf, Hs. unfold head, rest.
    rewrite ChaChaFacts.xor_block_involutive, IH
      by (rewrite length_skipn; lia).
    apply firstn_skipn.
Qed.

Lemma list_eqb_refl (a : list Z) : list_eqb a a = true.
Proof. unfold list_eqb. now destruct (list_eq_dec Z.eq_dec a a). Qed.

Lemma list_eqb_eq (a b : list Z) : list_eqb a b = true <-> a = b.
Proof.
  unfold list_eqb. destruct (list_eq_dec Z.eq_dec a b); split; congruence.
Qed.

Lemma aead_mac_length (ad c npub key : Uint8Array) :
  length (aead_mac ad c npub key) = ABYTES.
Proof. unfold aead_mac, poly1305. apply le_encode_length. Qed.

Lemma aead_encrypt_length (m ad npub key : Uint8Array) :
  length (aead_encrypt m ad npub key) = (length m + ABYTES)%nat.
Proof.
  unfold aead_encrypt.
  rewrite length_app, aead_mac_length, chacha20_ietf_xor_ic_length.
  pose proof (ChaChaFacts.blocks_bound (length m)). lia.
Qed.

(** The C construction: decrypting what was encrypted under the same
    additional data, nonce and key gives the message back. *)
Lemma aead_decrypt_encrypt (m ad npub key : Uint8Array) :
  aead_decrypt (aead_encrypt m ad npub key) ad npub key = Some m.
Proof.
  unfold aead_decrypt. rewrite aead_encrypt_length.
  replace (length m + ABYTES <? ABYTES)%nat with false
    by (symmetry; apply Nat.ltb_ge; lia).
  replace (length m + ABYTES - ABYTES)%nat with (length m) by lia.
  unfold aead_encrypt.
  set (c := chacha20_ietf_xor_ic (ChaCha.blocks (length m)) npub 1 key m).
  assert (Hc : length c = length m).
  { unfold c. rewrite chacha20_ietf_xor_ic_length.
    pose proof (ChaChaFacts.blocks_bound (length m)). lia. }
  rewrite <- Hc, firstn_app, firstn_all, Nat.sub_diag, firstn_O, app_nil_r.
  rewrite skipn_app, skipn_all, Nat.sub_diag, skipn_O. cbn [app].
  unfold crypto_verify_16. rewrite list_eqb_refl.
  f_equal. rewrite Hc. unfold c.
  apply chacha20_ietf_xor_ic_involutive, ChaChaFacts.blocks_bound.
Qed.

Lemma crypto_aead_roundtrip (m : Uint8Array) (ad : option Uint8Array)
  (npub key : Uint8Array) :
  length npub = NPUBBYTES -> length key = KEYBYTES ->
  exists c,
    crypto_aead_chacha20poly1305_ietf_encrypt m ad npub key = Ok c
    /\ length c = (length m + ABYTES)%nat
    /\ crypto_aead_chacha20poly1305_ietf_decrypt c ad npub key = Ok m.
Proof.
  intros Hn Hk. exists (aead_encrypt m (or_empty ad) npub key).
  unfold crypto_aead_chacha20poly1305_ietf_encrypt,
    crypto_aead_chacha20poly1305_ietf_decrypt.
  rewrite Hn, Hk, !Nat.eqb_refl, aead_encrypt_length. cbn [negb].
  replace (length m + ABYTES <? ABYTES)%nat with false
    by (symmetry; apply Nat.ltb_ge; lia).
  now rewrite aead_decrypt_encrypt.
Qed.

Lemma aead_encrypt_body_length (m npub key : Uint8Array) :
  length (chacha20_ietf_xor_ic (ChaCha.blocks (length m)) npub 1 key m)
  = length m.
Proof.
  rewrite chacha20_ietf_xor_ic_length.
  pose proof (ChaChaFacts.blocks_bound (length m)). lia.
Qed.

(** A tag other than the computed one is refused. *)
Lemma aead_decrypt_wrong_tag (body tag' ad npub key : Uint8Array) :
  length tag' = ABYTES ->
  tag' <> aead_mac ad body npub key ->
  aead_decrypt (body ++ tag') ad npub key = None.
Proof.
  intros Hl Hne. unfold aead_decrypt.
  rewrite length_app, Hl.
  replace (length body + ABYTES <? ABYTES)%nat with false
    by (symmetry; apply Nat.ltb_ge; lia).
  replace (length body + ABYTES - ABYTES)%nat with (length body) by lia.
  rewrite firstn_app, firstn_all, Nat.sub_diag, app_nil_r.
  rewrite skipn_app, skipn_all, Nat.sub_diag. cbn [skipn app].
  unfold crypto_verify_16.
  destruct (list_eqb _ _) eqn:E; [|reflexivity].
  apply list_eqb_eq in E. congruence.
Qed.

End SodiumFacts.

Module HexFacts.
Import Sodium Encoding EncodingFacts.

Lemma utf8_encode_bytes (c : Z) : scalar c -> Forall byte (utf8_encode c).
Proof.
  intros [Hc Hs]. unfold byte.
  destruct (Z.le_gt_cases c 0x7F).
  { rewrite utf8_encode_1 by lia. repeat constructor; lia. }
  destruct (Z.le_gt_cases c 0x7FF).
  { rewrite utf8_encode_2 by lia.
    repeat constructor; Z.div_mod_to_equations; lia. }
  destruct (Z.le_gt_cases c 0xFFFF).
  { rewrite utf8_encode_3 by lia.
    repeat constructor; Z.div_mod_to_equations; lia. }
  rewrite utf8_encode_4 by lia.
  repeat constructor; Z.div_mod_to_equations; lia.
Qed.

Lemma TextEncoder_encode_bytes (s : JsString) :
  Forall code_unit s -> Forall byte (TextEncoder_encode s).
Proof.
  intros Hs. apply to_scalar_values_scalar in Hs.
  unfold TextEncoder_encode.
  induction Hs as [|c cs Hc _ IH]; [constructor|].
  cbn [flat_map]. apply Forall_app. split; [now apply utf8_encode_bytes|apply IH].
Qed.

(** The first byte of a sequence that encodes a scalar value above
    U+007F is not an ASCII character. *)
Lemma utf8_encode_non_ascii (c : Z) :
  0x80 <= c -> exists b t, utf8_encode c = b :: t /\ 0xC0 <= b.
Proof.
  intros Hc.
  destruct (Z.le_gt_cases c 0x7FF).
  { rewrite utf8_encode_2 by lia. do 2 eexists. split; [reflexivity|].
    Z.div_mod_to_equations; lia. }
  destruct (Z.le_gt_cases c 0xFFFF).
  { rewrite utf8_encode_3 by lia. do 2 eexists. split; [reflexivity|].
    Z.div_mod_to_equations; lia. }
  rewrite utf8_encode_4 by lia. do 2 eexists. split; [reflexivity|].
  Z.div_mod_to_equations; lia.
Qed.

Lemma hex_digit_ascii (c : Z) : hex_digit c -> 0 <= c <= 0x7F.
Proof.
  unfold hex_digit, is_hex_digit, in_range.
  rewrite !orb_true_iff, !andb_true_iff, !Z.leb_le. lia.
Qed.

Lemma not_hex_digit_high (c : Z) (t : list Z) (P : Prop) :
  0x80 <= c -> Forall hex_digit (utf8_encode c ++ t) -> P.
Proof.
  intros Hc H. destruct (utf8_encode_non_ascii c Hc) as (b & t' & E & Hb).
  rewrite E in H. cbn [app] in H. apply Forall_inv in H.
  apply hex_digit_ascii in H. lia.
Qed.

(** A string whose UTF-8 bytes are all hexadecimal digits is made of
    those digits, one byte each. *)
Lemma encode_hex_digits (s : JsString) :
  Forall hex_digit (TextEncoder_encode s) ->
  Forall hex_digit s /\ TextEncoder_encode s = s.
Proof.
  unfold TextEncoder_encode.
  induction s as [| c | c d s IH1 IH2] using list_pair_ind; intros H.
  - split; [constructor | reflexivity].
  - cbn [to_scalar_values flat_map] in *.
    destruct (is_lead c) eqn:El.
    { eapply (not_hex_digit_high REPLACEMENT); [|exact H].
      unfold REPLACEMENT; lia. }
    destruct (is_trail c) eqn:Et.
    { eapply (not_hex_digit_high REPLACEMENT); [|exact H].
      unfold REPLACEMENT; lia. }
    cbn [flat_map] in H |- *.
    destruct (Z.le_gt_cases c 0x7F).
    + rewrite utf8_encode_1 in * by lia. cbn [app] in *.
      split; [assumption | reflexivity].
    + eapply (not_hex_digit_high c); [lia | exact H].
  - rewrite to_scalar_values_two in *.
    destruct (is_lead c) eqn:El.
    { apply is_lead_spec in El. destruct (is_trail d) eqn:Et.
      - apply is_trail_spec in Et. cbn [flat_map] in H.
        eapply not_hex_digit_high; [|exact H].
        rewrite Z.shiftl_mul_pow2 by lia. change (2 ^ 10) with 1024. lia.
      - cbn [flat_map] in H.
        eapply (not_hex_digit_high REPLACEMENT); [|exact H].
        unfold REPLACEMENT; lia. }
    destruct (is_trail c) eqn:Et.
    { cbn [flat_map] in H.
      eapply (not_hex_digit_high REPLACEMENT); [|exact H].
      unfold REPLACEMENT; lia. }
    cbn [flat_map] in H |- *.
    destruct (Z.le_gt_cases c 0x7F).
    + rewrite utf8_encode_1 in * by lia. cbn [app] in *.
      pose proof (Forall_inv H) as Hc. apply Forall_inv_tail in H.
      destruct (IH2 H) as [Hds E]. split; [now constructor | now rewrite E].
    + eapply (not_hex_digit_high c); [lia | exact H].
Qed.

(** A property checked on each of the 256 bytes holds of every byte. *)
Lemma forall_bytes (f : Z -> bool) :
  forallb f (map (fun i => 0 + Z.of_nat i) (seq 0 256)) = true ->
  forall c, byte c -> f c = true.
Proof.
  intros H c Hc. rewrite forallb_forall in H. apply H.
  apply in_interval. unfold byte in Hc. lia.
Qed.

(** The branch-free test of [sodium_hex2bin] recognises exactly the
    hexadecimal digits among the bytes. *)
Lemma digit_class (c : Z) :
  byte c ->
  (Z.lor (c_num0 c) (c_alpha0 c) =? 0) = negb (is_hex_digit c).
Proof.
  intros H. apply Bool.eqb_prop.
  apply (forall_bytes
           (fun c => Bool.eqb (Z.lor (c_num0 c) (c_alpha0 c) =? 0)
                              (negb (is_hex_digit c)))); [|exact H].
  vm_compute. reflexivity.
Qed.

Lemma hex2bin_loop_spec (bin_maxlen : nat) (hex : list Z) :
  Forall byte hex ->
  forall hex_pos bin c_acc state,
    let '(ret, bin', pos', state') :=
      hex2bin_loop bin_maxlen hex hex_pos bin c_acc state in
    (pos' <= hex_pos + length hex)%nat
    /\ (pos' = (hex_pos + length hex)%nat ->
        Forall hex_digit hex
        /\ (2 * length bin' + pending state'
            = 2 * length bin + pending state + length hex)%nat).
Proof.
  induction 1 as [|c t Hc _ IH]; intros hex_pos bin c_acc state.
  - cbn [hex2bin_loop length]. split; [lia|]. intros _. split; [constructor|lia].
  - cbn [hex2bin_loop length].
    rewrite digit_class by exact Hc.
    destruct (is_hex_digit c) eqn:Eh; cbn [negb].
    2:{ split; [lia|]. intros E; lia. }
    destruct (bin_maxlen <=? length bin)%nat.
    { split; [lia|]. intros E; lia. }
    destruct state.
    + specialize (IH (S hex_pos) (bin ++ [Z.lor c_acc (c_val c)]) c_acc false).
      destruct (hex2bin_loop _ t _ _ _ _) as [[[ret bin'] pos'] state'].
      destruct IH as [IHa IHb]. split; [lia|]. intros E.
      destruct IHb as [Hf Hl]; [lia|]. split; [now constructor|].
      rewrite length_app in Hl. cbn [length pending] in *. lia.
    + specialize (IH (S hex_pos) bin (u8 (c_val c * 16)) true).
      destruct (hex2bin_loop _ t _ _ _ _) as [[[ret bin'] pos'] state'].
      destruct IH as [IHa IHb]. split; [lia|]. intros E.
      destruct IHb as [Hf Hl]; [lia|]. split; [now constructor|].
      cbn [length pending] in *. lia.
Qed.

(** When [from_hex] returns, the input was made of hexadecimal digits
    only and the array has exactly half its length. *)
Lemma from_hex_Ok (input : JsString) (bin : Uint8Array) :
  js_string input ->
  from_hex input = Ok bin ->
  Forall hex_digit input /\ length input = (2 * length bin)%nat.
Proof.
  intros [Hs _]. unfold from_hex, sodium_hex2bin, from_string.
  pose proof (hex2bin_loop_spec
                (Nat.div (length (TextEncoder_encode input)) 2) _
                (TextEncoder_encode_bytes input Hs) 0%nat [] 0 false) as Hspec.
  destruct (hex2bin_loop _ _ _ _ _ _) as [[[ret bin'] pos'] state'].
  destruct Hspec as [_ Hspec].
  destruct state'; [discriminate|].
  cbn [h_ret h_hex_pos h_bin].
  destruct (ret =? 0); cbn [negb]; [|discriminate].
  destruct (Nat.eqb_spec pos' (length (TextEncoder_encode input))) as [E|];
    cbn [negb]; [|discriminate].
  intros Hbin. apply Ok_inj in Hbin. subst bin'.
  destruct Hspec as [Hf Hl]; [lia|].
  apply encode_hex_digits in Hf as [Hf Hid].
  rewrite Hid in Hl. cbn [length pending] in Hl. split; [assumption | lia].
Qed.

Lemma to_hex_cons (x : Z) (t : Uint8Array) :
  to_hex (x :: t) = hex_chars x ++ to_hex t.
Proof. reflexivity. Qed.

Lemma to_hex_pair (x : Z) :
  byte x ->
  exists h l,
    hex_chars x = [h; l]
    /\ hex_digit h /\ hex_digit l
    /\ Z.lor (u8 (c_val h * 16)) (c_val l) = x.
Proof.
  intros Hx.
  assert (H : hex_pair_ok x = true).
  { apply forall_bytes; [vm_compute; reflexivity | exact Hx]. }
  unfold hex_pair_ok in H.
  destruct (hex_chars x) as [|h [|l [|]]]; try discriminate.
  exists h, l. split; [reflexivity|].
  apply andb_true_iff in H as [H H3]. apply andb_true_iff in H as [H1 H2].
  apply Z.eqb_eq in H3. now repeat split.
Qed.

Lemma to_hex_length (b : Uint8Array) :
  Forall byte b -> length (to_hex b) = (2 * length b)%nat.
Proof.
  induction 1 as [|x t Hx _ IH]; [reflexivity|].
  destruct (to_hex_pair x Hx) as (h & l & E & _).
  rewrite to_hex_cons, E. cbn [length app]. rewrite IH. lia.
Qed.

Lemma to_hex_digits (b : Uint8Array) :
  Forall byte b -> Forall hex_digit (to_hex b).
Proof.
  induction 1 as [|x t Hx _ IH]; [constructor|].
  destruct (to_hex_pair x Hx) as (h & l & E & Hh & Hl & _).
  rewrite to_hex_cons, E. now repeat constructor.
Qed.

(** Text made of ASCII characters is its own UTF-8 encoding. *)
Lemma TextEncoder_encode_ascii (s : JsString) :
  Forall (fun c => 0 <= c <= 0x7F) s -> TextEncoder_encode s = s.
Proof.
  unfold TextEncoder_encode.
  induction 1 as [|c t Hc _ IH]; [reflexivity|].
  assert (El : is_lead c = false) by (apply is_lead_false; lia).
  assert (Et : is_trail c = false) by (apply is_trail_false; lia).
  destruct t as [|d t].
  - cbn [to_scalar_values flat_map]. rewrite El, Et. cbn [flat_map].
    now rewrite utf8_encode_1 by lia.
  - rewrite to_scalar_values_two, El, Et. cbn [flat_map].
    rewrite utf8_encode_1 by lia. cbn [app]. now rewrite IH.
Qed.

Lemma hex2bin_loop_to_hex (bin_maxlen : nat) (b : Uint8Array) :
  Forall byte b ->
  forall hex_pos bin c_acc,
    (length bin + length b <= bin_maxlen)%nat ->
    hex2bin_loop bin_maxlen (to_hex b) hex_pos bin c_acc false
    = (0, bin ++ b, (hex_pos + 2 * length b)%nat, false).
Proof.
  induction 1 as [|x t Hx _ IH]; intros hex_pos bin c_acc Hlen.
  - cbn [to_hex flat_map hex2bin_loop length]. rewrite app_nil_r.
    now replace (hex_pos + 2 * 0)%nat with hex_pos by lia.
  - destruct (to_hex_pair x Hx) as (h & l & E & Hh & Hl & Hv).
    rewrite to_hex_cons, E. cbn [app].
    cbn [length] in Hlen.
    assert (Hbh : byte h) by (apply hex_digit_ascii in Hh; unfold byte; lia).
    assert (Hbl : byte l) by (apply hex_digit_ascii in Hl; unfold byte; lia).
    cbn [hex2bin_loop]. rewrite !digit_class by assumption.
    unfold hex_digit in Hh, Hl. rewrite Hh, Hl. cbn [negb].
    replace (bin_maxlen <=? length bin)%nat with false
      by (symmetry; apply Nat.leb_gt; lia).
    rewrite Hv, IH by (rewrite length_app; cbn [length]; lia).
    replace (hex_pos + 2 * length (x :: t))%nat
      with (S (S hex_pos) + 2 * length t)%nat by (cbn [length]; lia).
    now rewrite <- app_assoc.
Qed.

(** On hexadecimal digits, with room left for them, the loop reads all
    of its input. *)
Lemma hex2bin_loop_digits (bin_maxlen : nat) (hex : list Z) :
  Forall hex_digit hex ->
  forall hex_pos bin c_acc state,
    (2 * length bin + pending state + length hex <= 2 * bin_maxlen)%nat ->
    exists bin' state',
      hex2bin_loop bin_maxlen hex hex_pos bin c_acc state
      = (0, bin', (hex_pos + length hex)%nat, state')
      /\ (2 * length bin' + pending state'
          = 2 * length bin + pending state + length hex)%nat.
Proof.
  induction 1 as [|c t Hc _ IH]; intros hex_pos bin c_acc state Hroom.
  - exists bin, state. cbn [hex2bin_loop length].
    split; [|lia]. now replace (hex_pos + 0)%nat with hex_pos by lia.
  - cbn [length] in Hroom. cbn [hex2bin_loop].
    rewrite digit_class
      by (apply hex_digit_ascii in Hc; unfold byte; lia).
    unfold hex_digit in Hc. rewrite Hc. cbn [negb].
    replace (bin_maxlen <=? length bin)%nat with false
      by (symmetry; apply Nat.leb_gt; destruct state; cbn [pending] in *; lia).
    destruct state; cbn [pending] in Hroom.
    + destruct (IH (S hex_pos) (bin ++ [Z.lor c_acc (c_val c)]) c_acc false)
        as (bin' & state' & E & Hl).
      { rewrite length_app. cbn [length pending]. lia. }
      exists bin', state'. rewrite E. rewrite length_app in Hl.
      cbn [length pending] in *. split; [|lia].
      now replace (S hex_pos + length t)%nat
        with (hex_pos + S (length t))%nat by lia.
    + destruct (IH (S hex_pos) bin (u8 (c_val c * 16)) true)
        as (bin' & state' & E & Hl).
      { cbn [pending]. lia. }
      exists bin', state'. rewrite E.
      cbn [length pending] in *. split; [|lia].
      now replace (S hex_pos + length t)%nat
        with (hex_pos + S (length t))%nat by lia.
Qed.

(** [from_hex] returns on every string made of an even number of
    hexadecimal digits. *)
Lemma from_hex_digits (input : JsString) :
  Forall hex_digit input ->
  Nat.even (length input) = true ->
  exists bin,
    from_hex input = Ok bin /\ length input = (2 * length bin)%nat.
Proof.
  intros Hd Heven. apply Nat.even_spec in Heven as [half Hhalf].
  unfold from_hex, sodium_hex2bin, from_string.
  rewrite TextEncoder_encode_ascii
    by (eapply Forall_impl; [|exact Hd]; intros c Hc;
        now apply hex_digit_ascii).
  rewrite Hhalf.
  replace (Nat.div (2 * half) 2) with half
    by (rewrite Nat.mul_comm; symmetry; apply Nat.div_mul; lia).
  destruct (hex2bin_loop_digits half input Hd 0%nat [] 0 false)
    as (bin' & state' & E & Hl); [cbn [length pending]; lia|].
  rewrite E. cbn [length pending] in Hl.
  destruct state'; cbn [pending] in Hl; [lia|].
  exists bin'. cbn [h_ret h_hex_pos h_bin Z.eqb negb Nat.add].
  rewrite Hhalf, Nat.eqb_refl. split; [reflexivity | lia].
Qed.

(** [from_hex] reads back what [to_hex] wrote. *)
Lemma from_hex_to_hex (b : Uint8Array) :
  Forall byte b -> from_hex (to_hex b) = Ok b.
Proof.
  intros Hb. unfold from_hex, from_string, sodium_hex2bin.
  rewrite TextEncoder_encode_ascii.
  2:{ eapply Forall_impl; [|apply to_hex_digits, Hb].
      intros c Hc. now apply hex_digit_ascii. }
  rewrite to_hex_length by exact Hb.
  replace (Nat.div (2 * length b) 2) with (length b)
    by (rewrite Nat.mul_comm; symmetry; apply Nat.div_mul; lia).
  rewrite hex2bin_loop_to_hex by (cbn [length]; auto; lia).
  cbn [h_ret h_hex_pos h_bin app Z.eqb negb Nat.add].
  now rewrite Nat.eqb_refl.
Qed.

(** ASCII bytes decode to themselves. *)
Lemma TextDecoder_decode_ascii (fatal : bool) (s : list Z) :
  Forall ascii_char s -> TextDecoder_decode fatal s = Ok s.
Proof.
  intros Hs.
  rewrite <- (TextEncoder_encode_ascii s Hs) at 1.
  apply TextDecoder_decode_encode.
  - eapply Forall_impl; [|exact Hs]. unfold ascii_char, code_unit.
    intros; lia.
  - now apply ascii_isWellFormed.
  - destruct Hs as [|c s Hc _]; [reflexivity|]. unfold ascii_char in Hc.
    cbn [starts_with_BOM]. apply Z.eqb_neq. unfold BOM. lia.
Qed.

Lemma TextEncoder_encode_digits_app (d s : JsString) :
  Forall hex_digit d -> TextEncoder_encode (d ++ s) = d ++ TextEncoder_encode s.
Proof.
  induction 1 as [|x d Hx _ IH]; [reflexivity|].
  cbn [app]. rewrite TextEncoder_encode_cons_ascii by now apply hex_digit_ascii.
  now rewrite IH.
Qed.

(** The first byte written for a string is its first character, when
    that is an ASCII character, and otherwise no ASCII character. *)
Lemma TextEncoder_encode_head (c : Z) (t : JsString) :
  exists b r,
    TextEncoder_encode (c :: t) = b :: r /\ (b = c \/ 0xC0 <= b).
Proof.
  unfold TextEncoder_encode.
  destruct (to_scalar_values_head c t) as (sv & svs & -> & Hsv).
  cbn [flat_map].
  destruct (Z.le_gt_cases sv 0x7F) as [Hle|Hgt].
  - rewrite utf8_encode_1 by exact Hle. cbn [app].
    do 2 eexists. split; [reflexivity|]. left. lia.
  - destruct (utf8_encode_non_ascii sv ltac:(lia)) as (b & r & -> & Hb).
    cbn [app]. do 2 eexists. split; [reflexivity|]. now right.
Qed.

Lemma not_hex_digit_head (c : Z) (t : JsString) :
  Forall code_unit (c :: t) -> is_hex_digit c = false ->
  exists b r,
    TextEncoder_encode (c :: t) = b :: r /\ byte b /\ is_hex_digit b = false.
Proof.
  intros Hs Hc.
  destruct (TextEncoder_encode_head c t) as (b & r & E & Hb).
  exists b, r. split; [exact E|].
  pose proof (TextEncoder_encode_bytes _ Hs) as Hbytes. rewrite E in Hbytes.
  split; [now apply Forall_inv in Hbytes|].
  destruct Hb as [->|Hb]; [exact Hc|].
  destruct (is_hex_digit b) eqn:Eb; [|reflexivity].
  apply hex_digit_ascii in Eb. lia.
Qed.

(** ** Digit pairs and the bytes they stand for *)

Lemma hex_digit_byte (c : Z) : hex_digit c -> byte c.
Proof. intros H. apply hex_digit_ascii in H. unfold byte. lia. Qed.

Lemma hex_digit_In (c : Z) : hex_digit c -> In c hex_digits.
Proof.
  unfold hex_digit, is_hex_digit, in_range, hex_digits.
  rewrite !orb_true_iff, !andb_true_iff, !Z.leb_le, !in_app_iff.
  intros [[H|H]|H]; [left | right; right | right; left];
    apply in_interval; cbn [Z.of_nat]; lia.
Qed.

(** Two digits make a byte that [to_hex] writes as the same digits in
    lower case. *)
Lemma hex_byte (h l : Z) :
  hex_digit h -> hex_digit l ->
  let x := Z.lor (u8 (c_val h * 16)) (c_val l) in
  byte x /\ hex_chars x = [hex_lower h; hex_lower l].
Proof.
  intros Hh Hl x.
  assert (Hall : forallb (fun h => forallb (hex_byte_ok h) hex_digits)
                   hex_digits = true) by (vm_compute; reflexivity).
  rewrite forallb_forall in Hall.
  specialize (Hall h (hex_digit_In h Hh)). rewrite forallb_forall in Hall.
  specialize (Hall l (hex_digit_In l Hl)).
  unfold hex_byte_ok in Hall. fold x in Hall.
  apply andb_true_iff in Hall as [Hr He].
  apply SodiumFacts.list_eqb_eq in He.
  split; [|exact He]. unfold in_range in Hr.
  apply andb_true_iff in Hr as [H0 H1]. apply Z.leb_le in H0, H1.
  unfold byte. lia.
Qed.

Lemma to_hex_lower (b : Uint8Array) :
  Forall byte b -> Forall (fun c => is_lower_hex_digit c = true) (to_hex b).
Proof.
  induction 1 as [|x t Hx _ IH]; [constructor|].
  rewrite to_hex_cons. apply Forall_app. split; [|exact IH].
  apply Forall_forall. apply forallb_forall.
  apply (forall_bytes hex_chars_lower); [vm_compute; reflexivity | exact Hx].
Qed.

Lemma hex_bytes_two (h l : Z) (t : list Z) :
  hex_bytes (h :: l :: t) = Z.lor (u8 (c_val h * 16)) (c_val l) :: hex_bytes t.
Proof. reflexivity. Qed.

Lemma hex_bytes_spec (hex : list Z) :
  Forall hex_digit hex -> Nat.even (length hex) = true ->
  Forall byte (hex_bytes hex)
  /\ (2 * length (hex_bytes hex) = length hex)%nat
  /\ to_hex (hex_bytes hex) = map hex_lower hex.
Proof.
  induction hex as [| h | h l t IH _] using list_pair_ind; intros Hd He.
  - repeat split. constructor.
  - discriminate.
  - pose proof (Forall_inv Hd) as Hh. apply Forall_inv_tail in Hd.
    pose proof (Forall_inv Hd) as Hl. apply Forall_inv_tail in Hd.
    destruct (IH Hd He) as (Hb & Hn & Ht).
    destruct (hex_byte h l Hh Hl) as [Hx Hc].
    rewrite hex_bytes_two. split; [now constructor|].
    split; [cbn [length]; lia|].
    rewrite to_hex_cons, Hc, Ht. reflexivity.
Qed.

(** The loop over digits followed by more input. *)
Lemma hex2bin_loop_app (bin_maxlen : nat) (hex rest : list Z) :
  Forall hex_digit hex ->
  forall hex_pos bin c_acc state,
    (2 * length bin + pending state + length hex <= 2 * bin_maxlen)%nat ->
    exists bin' c_acc' state',
      hex2bin_loop bin_maxlen (hex ++ rest) hex_pos bin c_acc state
      = hex2bin_loop bin_maxlen rest (hex_pos + length hex)%nat bin' c_acc'
          state'
      /\ (2 * length bin' + pending state'
          = 2 * length bin + pending state + length hex)%nat.
Proof.
  induction 1 as [|c t Hc _ IH]; intros hex_pos bin c_acc state Hroom.
  - exists bin, c_acc, state. cbn [app length].
    split; [|lia]. now replace (hex_pos + 0)%nat with hex_pos by lia.
  - cbn [length] in Hroom. cbn [app hex2bin_loop].
    rewrite digit_class by now apply hex_digit_byte.
    unfold hex_digit in Hc. rewrite Hc. cbn [negb].
    replace (bin_maxlen <=? length bin)%nat with false
      by (symmetry; apply Nat.leb_gt; destruct state; cbn [pending] in *; lia).
    destruct state; cbn [pending] in Hroom.
    + destruct (IH (S hex_pos) (bin ++ [Z.lor c_acc (c_val c)]) c_acc false)
        as (bin' & acc' & state' & E & Hl).
      { rewrite length_app. cbn [length pending]. lia. }
      exists bin', acc', state'. rewrite E. rewrite length_app in Hl.
      cbn [length pending] in *. split; [|lia].
      now replace (S hex_pos + length t)%nat
        with (hex_pos + S (length t))%nat by lia.
    + destruct (IH (S hex_pos) bin (u8 (c_val c * 16)) true)
        as (bin' & acc' & state' & E & Hl).
      { cbn [pending]. lia. }
      exists bin', acc', state'. rewrite E.
      cbn [length pending] in *. split; [|lia].
      now replace (S hex_pos + length t)%nat
        with (hex_pos + S (length t))%nat by lia.
Qed.

(** The loop over digit pairs writes their bytes. *)
Lemma hex2bin_loop_pairs (bin_maxlen : nat) (hex : list Z) :
  Forall hex_digit hex -> Nat.even (length hex) = true ->
  forall hex_pos bin c_acc,
    (2 * length bin + length hex <= 2 * bin_maxlen)%nat ->
    hex2bin_loop bin_maxlen hex hex_pos bin c_acc false
    = (0, bin ++ hex_bytes hex, (hex_pos + length hex)%nat, false).
Proof.
  induction hex as [| h | h l t IH _] using list_pair_ind;
    intros Hd He hex_pos bin c_acc Hroom.
  - cbn [hex2bin_loop hex_bytes length].
    rewrite app_nil_r. now replace (hex_pos + 0)%nat with hex_pos by lia.
  - discriminate.
  - pose proof (Forall_inv Hd) as Hh. apply Forall_inv_tail in Hd.
    pose proof (Forall_inv Hd) as Hl. apply Forall_inv_tail in Hd.
    cbn [length] in Hroom.
    cbn [hex2bin_loop].
    rewrite !digit_class by now apply hex_digit_byte.
    unfold hex_digit in Hh, Hl. rewrite Hh, Hl. cbn [negb].
    replace (bin_maxlen <=? length bin)%nat with false
      by (symmetry; apply Nat.leb_gt; lia).
    rewrite IH; [|exact Hd | exact He | rewrite length_app; cbn [length]; lia].
    rewrite hex_bytes_two, <- app_assoc. cbn [app length].
    now replace (hex_pos + S (S (length t)))%nat
      with (S (S hex_pos) + length t)%nat by lia.
Qed.

(** [from_hex] on digit pairs returns their bytes. *)
Lemma from_hex_pairs (input : JsString) :
  Forall hex_digit input -> Nat.even (length input) = true ->
  from_hex input = Ok (hex_bytes input).
Proof.
  intros Hd Heven. pose proof Heven as He.
  apply Nat.even_spec in He as [half Hhalf].
  unfold from_hex, sodium_hex2bin, from_string.
  rewrite TextEncoder_encode_ascii
    by (eapply Forall_impl; [|exact Hd]; intros c Hc;
        now apply hex_digit_ascii).
  rewrite hex2bin_loop_pairs; [|exact Hd | exact Heven|].
  - cbn [h_ret h_hex_pos h_bin Z.eqb negb Nat.add app].
    now rewrite Nat.eqb_refl.
  - rewrite Hhalf.
    replace (Nat.div (2 * half) 2) with half
      by (rewrite Nat.mul_comm; symmetry; apply Nat.div_mul; lia).
    cbn [length]. lia.
Qed.

Lemma half_room (n : nat) : (n <= 2 * Nat.div (S n) 2)%nat.
Proof.
  pose proof (Nat.div_mod_eq (S n) 2) as H.
  pose proof (Nat.mod_upper_bound (S n) 2 ltac:(lia)). lia.
Qed.

End HexFacts.

(** * The embedded primitives on published vectors *)
Module KnownAnswers.
Import Vectors.

Example chacha20_zero_block :
  firstn 16 (ChaCha.core (new_Uint8Array 16) (new_Uint8Array 32))
  = zero_block_start.
Proof. vm_compute. reflexivity. Qed.

Example poly1305_rfc8439 :
  Sodium.poly1305 poly1305_key poly1305_message = poly1305_tag.
Proof. vm_compute. reflexivity. Qed.

Example aead_rfc8439 :
  exists c,
    Sodium.crypto_aead_chacha20poly1305_ietf_encrypt aead_plaintext
      (Some aead_ad) aead_nonce aead_key = Ok c
    /\ firstn 16 c = aead_ciphertext_start
    /\ skipn (length aead_plaintext) c = aead_tag
    /\ Sodium.crypto_aead_chacha20poly1305_ietf_decrypt c
         (Some aead_ad) aead_nonce aead_key = Ok aead_plaintext.
Proof.
  eexists. split; [vm_compute; reflexivity|].
  repeat split; vm_compute; reflexivity.
Qed.

End KnownAnswers.

(** * The session *)
Module SessionFacts.
Import Sodium SodiumKeys SecureChatService.

Lemma randombytes_buf_length (n : nat) (e : entropy) :
  length (fst (randombytes_buf n e)) = n.
Proof. unfold randombytes_buf. cbn [fst]. now rewrite length_map, length_seq. Qed.

(** Decrypting a ciphertext of ASCII text after one of its bytes was
    changed by the bits [d]: the text with that character changed by
    the same bits. *)
Lemma tampered_text (key nonce : Uint8Array) (m : JsString) (i : nat) (d : Z)
  (fatal : bool) :
  length key = 32%nat -> length nonce = 8%nat ->
  js_string m -> Forall Encoding.ascii_char m -> (i < length m)%nat ->
  Encoding.ascii_char d ->
  exists c,
    ChaCha.streamXOR key nonce (Encoding.TextEncoder_encode m)
      (new_Uint8Array (length (Encoding.TextEncoder_encode m))) = Ok c
    /\ (plaintext <-
          ChaCha.streamXOR key nonce (set_at i (Z.lxor (nth i c 0) d) c)
            (new_Uint8Array (length (set_at i (Z.lxor (nth i c 0) d) c))) ;;
        Encoding.TextDecoder_decode fatal plaintext)
       = Ok (set_at i (Z.lxor (nth i m 0) d) m).
Proof.
  intros Hk Hn Hm Ha Hi Hd.
  pose proof (EncodingFacts.TextEncoder_encode_small m Hm) as Hsmall.
  rewrite (HexFacts.TextEncoder_encode_ascii m Ha) in *.
  destruct (ChaChaFacts.streamXOR_roundtrip key nonce m
              (new_Uint8Array (length m)))
    as (c & Hc & Hcl & Hback);
    [exact Hk | exact Hn | apply new_Uint8Array_length | exact Hsmall |].
  exists c. split; [exact Hc|].
  destruct (ChaChaFacts.streamXOR_set_at key nonce c i
              (Z.lxor (nth i c 0) d))
    as (out & Hout & _ & Ht);
    [exact Hk | exact Hn | now rewrite Hcl | now rewrite Hcl |].
  rewrite Hback in Hout by (rewrite new_Uint8Array_length; exact Hcl).
  apply Ok_inj in Hout. subst out.
  rewrite Ht. unfold bind.
  replace (Z.lxor (nth i c 0) (Z.lxor (nth i c 0) d)) with d
    by (now rewrite <- Z.lxor_assoc, Z.lxor_nilpotent, Z.lxor_0_l).
  apply HexFacts.TextDecoder_decode_ascii.
  apply Forall_set_at; [exact Ha|].
  assert (Hmi : Encoding.ascii_char (nth i m 0)).
  { rewrite Forall_forall in Ha. apply Ha. now apply nth_In. }
  unfold Encoding.ascii_char in *.
  pose proof (lxor_bound (nth i m 0) d 7). lia.
Qed.

Section WithPrimitives.
Context {P : Primitives}.

Lemma crypto_scalarmult_length (sk pk k : Uint8Array) :
  crypto_scalarmult sk pk = Ok k -> length k = 32%nat.
Proof.
  unfold crypto_scalarmult.
  destruct (negb _); [discriminate|]. destruct (negb _); [discriminate|].
  destruct (forallb _ _); [discriminate|].
  intros H. apply Ok_inj in H. subst k. apply SodiumFacts.le_encode_length.
Qed.

(** A call of [computeSharedKey] that returns leaves the returned key,
    32 bytes long, in the session. *)
Lemma computeSharedKey_Ok (s0 s : t) (peer k : Uint8Array) :
  computeSharedKey s0 peer = (s, Ok k) ->
  _sharedKey s = Some k /\ length k = 32%nat.
Proof.
  unfold computeSharedKey. destruct (_x25519 s0) as [x|]; [|discriminate].
  destruct (crypto_scalarmult (privateKey x) peer) as [k'|] eqn:E;
    [|discriminate].
  intros H. injection H as <- <-. split; [reflexivity|].
  eapply crypto_scalarmult_length, E.
Qed.

(** A call of [computeSharedKey] that throws leaves the session as it was. *)
Lemma computeSharedKey_Throw (s : t) (peer : Uint8Array) :
  is_ok (snd (computeSharedKey s peer)) = false ->
  fst (computeSharedKey s peer) = s.
Proof.
  unfold computeSharedKey. destruct (_x25519 s) as [x|]; [|reflexivity].
  destruct (crypto_scalarmult (privateKey x) peer); [discriminate|reflexivity].
Qed.

Lemma invariant_new : invariant new.
Proof. split; [discriminate|]. cbn. auto. Qed.

Lemma invariant_init (s : t) (e : entropy) : invariant s -> invariant (init s e).
Proof.
  intros [Hk Hs]. unfold init. destruct (_isReady s) eqn:Er.
  - split; [exact Hk|]. now rewrite Er.
  - unfold init_resume, crypto_sign_keypair, crypto_box_keypair,
      randombytes_buf.
    split; cbn [_sharedKey _isReady _ed25519 _x25519]; [exact Hk|].
    split; (eexists; split; [reflexivity|]);
      (eexists; split; [|reflexivity]); now rewrite length_map, length_seq.
Qed.

Lemma invariant_computeSharedKey (s : t) (peer : Uint8Array) :
  invariant s -> invariant (fst (computeSharedKey s peer)).
Proof.
  intros Hinv. unfold computeSharedKey.
  destruct (_x25519 s) as [x|] eqn:Ex; [|exact Hinv].
  destruct (crypto_scalarmult (privateKey x) peer) as [k|] eqn:E;
    [|exact Hinv].
  destruct Hinv as [Hk Hs].
  cbn [fst]. split; cbn [_sharedKey _isReady _ed25519 _x25519].
  - intros k' Hk'. injection Hk' as <-. eapply crypto_scalarmult_length, E.
  - rewrite <- Ex. destruct (_isReady s); [exact Hs|].
    destruct Hs as (_ & Hx & _). congruence.
Qed.

Lemma invariant_after (s : t) (c : call) : invariant s -> invariant (after s c).
Proof.
  destruct c; cbn [after]; auto using invariant_init, invariant_computeSharedKey.
Qed.

Lemma invariant_run (calls : list call) :
  forall s, invariant s -> invariant (run s calls).
Proof.
  induction calls as [|c calls IH]; intros s Hs; [exact Hs|].
  apply IH, invariant_after, Hs.
Qed.

Lemma run_without_init (calls : list call) :
  Forall (fun c => is_init c = false) calls -> run new calls = new.
Proof.
  induction 1 as [|c calls Hc _ IH]; [reflexivity|].
  unfold run in *. cbn [fold_left].
  replace (after new c) with new; [exact IH|].
  destruct c; try reflexivity. discriminate.
Qed.

Lemma never_stored_sharedKey (calls : list call) :
  forall s,
    _sharedKey s = None -> never_stored s calls ->
    _sharedKey (run s calls) = None.
Proof.
  induction calls as [|c calls IH]; intros s Hs Hn; [exact Hs|].
  destruct Hn as [Hc Hn]. unfold run. cbn [fold_left].
  apply IH; [|exact Hn].
  destruct c; cbn [after]; try exact Hs.
  - unfold init, init_resume. destruct (_isReady s); [exact Hs|].
    destruct (crypto_sign_keypair e) as [ed e1].
    destruct (crypto_box_keypair e1) as [x e2]. exact Hs.
  - cbn [stores_shared_key] in Hc.
    now rewrite computeSharedKey_Throw.
Qed.


Lemma init_of_ready (s : t) (e : entropy) : _isReady s = true -> init s e = s.
Proof. intros H. unfold init. now rewrite H. Qed.

(** Two calls of [init] started before [sodium.ready] resolved both
    pass the guard: the second to resume makes the key pairs anew. *)
Lemma init_resume_twice (s : t) (e1 e2 : entropy) :
  init_resume (init_resume s e1) e2 = init_resume s e2.
Proof.
  unfold init_resume.
  destruct (crypto_sign_keypair e1) as [ed1 e1'].
  destruct (crypto_box_keypair e1') as [x1 e1''].
  destruct (crypto_sign_keypair e2) as [ed2 e2'].
  destruct (crypto_box_keypair e2') as [x2 e2''].
  reflexivity.
Qed.

(** A shared key held by a session is 32 bytes long, whatever was
    called on the session. *)
Lemma sharedKey_length (calls : list call) (k : Uint8Array) :
  _sharedKey (run new calls) = Some k -> length k = 32%nat.
Proof.
  intros H. exact (proj1 (invariant_run calls new invariant_new) k H).
Qed.

(** No call on an initialised session touches its key pairs. *)
Lemma after_ready (s : t) (c : call) :
  _isReady s = true ->
  _ed25519 (after s c) = _ed25519 s
  /\ _x25519 (after s c) = _x25519 s
  /\ _isReady (after s c) = true.
Proof.
  intros Hr. destruct c; cbn [after]; try (now repeat split).
  - now rewrite init_of_ready.
  - unfold computeSharedKey.
    destruct (_x25519 s) eqn:Ex; [destruct (crypto_scalarmult _ _)|];
      cbn [fst _ed25519 _x25519 _isReady]; now repeat split.
Qed.

End WithPrimitives.
End SessionFacts.

Module SampleFacts.
Import Sodium SodiumKeys SecureChatService Sample.

Lemma le_decode_bound (bs : list Z) :
  0 <= le_decode bs < 256 ^ Z.of_nat (length bs).
Proof.
  induction bs as [|b t IH]; [simpl; lia|].
  cbn [le_decode length]. rewrite Nat2Z.inj_succ, Z.pow_succ_r by lia.
  pose proof (Z.mod_pos_bound b 256 ltac:(lia)). lia.
Qed.

Lemma le_decode_encode (n : nat) :
  forall v, le_decode (le_encode n v) = v mod 256 ^ Z.of_nat n.
Proof.
  induction n as [|n IH]; intros v.
  - simpl. now rewrite Z.mod_1_r.
  - cbn [le_encode le_decode]. rewrite IH, Z.mod_mod by lia.
    rewrite Nat2Z.inj_succ, Z.pow_succ_r by lia.
    rewrite (Z.rem_mul_r v 256 (256 ^ Z.of_nat n)) by lia. reflexivity.
Qed.

Lemma le_encode_zero (n : nat) :
  forall v, forallb (Z.eqb 0) (le_encode n v) = true ->
            v mod 256 ^ Z.of_nat n = 0.
Proof.
  induction n as [|n IH]; intros v H.
  - simpl. apply Z.mod_1_r.
  - cbn [le_encode forallb] in H. apply andb_true_iff in H as [H0 H1].
    apply Z.eqb_eq in H0. apply IH in H1.
    rewrite Nat2Z.inj_succ, Z.pow_succ_r by lia.
    rewrite (Z.rem_mul_r v 256 (256 ^ Z.of_nat n)) by lia. lia.
Qed.

Lemma sample_product (a b : Uint8Array) :
  X25519 (Primitives := primitives) a
    (le_encode 32 (X25519 (Primitives := primitives) b basepoint))
  = ((2 * le_decode a + 1) * ((2 * le_decode b + 1) * 9)) mod 2 ^ 256.
Proof.
  cbn [X25519 primitives]. unfold basepoint.
  rewrite !le_decode_encode. change (256 ^ Z.of_nat 32) with (2 ^ 256).
  rewrite (Z.mod_small 9) by lia.
  now rewrite Z.mod_mod, Z.mul_mod_idemp_r by lia.
Qed.

(** The stand-in has the laws asked of Curve25519. *)
Lemma sample_DiffieHellman : DiffieHellman primitives.
Proof.
  split; intros a b _ _; rewrite !sample_product.
  - f_equal. ring.
  - rewrite Z.mod_mod by lia. intros H.
    apply Z.mod_divide in H; [|lia]. destruct H as [q Hq].
    set (x := le_decode a) in *. set (y := le_decode b) in *.
    change (2 ^ 256) with (2 * 2 ^ 255) in Hq.
    assert (E : 2 * (18 * (x * y) + 9 * x + 9 * y + 4) + 1
                = 2 * (q * 2 ^ 255))
      by (transitivity ((2 * x + 1) * ((2 * y + 1) * 9));
          [ring | rewrite Hq; ring]).
    lia.
Qed.

Lemma sample_SignatureCorrect : SignatureCorrect primitives.
Proof.
  split. intros seed m Hseed. cbn [Ed25519_verify Ed25519_sign primitives].
  rewrite skipn_app, skipn_all2, Hseed, Nat.sub_diag by lia.
  apply SodiumFacts.list_eqb_refl.
Qed.

End SampleFacts.

(** * The accessor *)
Module AccessorFacts.
Import SecureChatService Accessor.
Section WithPrimitives.
Context {P : Primitives}.

Lemma call_on_length (r : ref) (c : call) (st : state) :
  length (objects (call_on r c st)) = length (objects st).
Proof.
  unfold call_on, deref. destruct (nth_error (objects st) r) eqn:E;
    [|reflexivity].
  assert (r < length (objects st))%nat by (apply nth_error_Some; congruence).
  cbn [objects]. rewrite length_app, length_firstn. cbn [length].
  rewrite length_skipn. lia.
Qed.

Lemma step_objects (st : state) (ev : event) :
  (length (objects st) <= length (objects (step st ev)))%nat.
Proof.
  destruct ev; cbn [step].
  - unfold getSecureChatService. destruct (_instance st); cbn; [lia|].
    rewrite length_app. lia.
  - cbn. rewrite length_app. lia.
  - rewrite call_on_length. lia.
Qed.

Lemma valid_initial : valid initial.
Proof. intros r H. discriminate. Qed.

Lemma valid_step (st : state) (ev : event) : valid st -> valid (step st ev).
Proof.
  unfold valid. intros Hv r.
  destruct ev; cbn [step].
  - unfold getSecureChatService. destruct (_instance st) eqn:Ei; cbn.
    + rewrite Ei. apply Hv.
    + intros H. injection H as <-. rewrite length_app. cbn. lia.
  - cbn. intros H. apply Hv in H. rewrite length_app. lia.
  - intros H. rewrite call_on_length. apply Hv.
    unfold call_on in H. now destruct (deref st r0).
Qed.

Lemma valid_run (evs : list event) :
  forall st, valid st -> valid (run_events st evs).
Proof.
  induction evs as [|ev evs IH]; intros st Hv; [exact Hv|].
  apply IH. now apply valid_step.
Qed.

(** Nothing assigns [_instance] once it refers to an object. *)
Lemma instance_step (st : state) (ev : event) (r : ref) :
  _instance st = Some r -> _instance (step st ev) = Some r.
Proof.
  intros H. destruct ev; cbn [step].
  - unfold getSecureChatService. now rewrite H.
  - exact H.
  - unfold call_on. now destruct (deref st r0).
Qed.

Lemma instance_run (evs : list event) :
  forall st r, _instance st = Some r -> _instance (run_events st evs) = Some r.
Proof.
  induction evs as [|ev evs IH]; intros st r H; [exact H|].
  apply IH. now apply instance_step.
Qed.

(** An event changes the object behind [r] only when it is a call
    through [r]. *)
Lemma deref_step (st : state) (ev : event) (r : ref) :
  (r < length (objects st))%nat ->
  deref (step st ev) r
  = match ev with
    | CallOn r' c =>
        if (r' =? r)%nat then option_map (fun obj => after obj c) (deref st r)
        else deref st r
    | _ => deref st r
    end.
Proof.
  intros Hr. unfold deref. destruct ev; cbn [step].
  - unfold getSecureChatService. destruct (_instance st); cbn; [reflexivity|].
    now rewrite nth_error_app1.
  - cbn. now rewrite nth_error_app1.
  - unfold call_on, deref.
    destruct (Nat.eqb_spec r0 r) as [->|Hne].
    + destruct (nth_error (objects st) r) eqn:E.
      * cbn [objects option_map].
        rewrite nth_error_app2 by (rewrite length_firstn; lia).
        rewrite length_firstn.
        now replace (r - Nat.min r (length (objects st)))%nat with 0%nat
          by lia.
      * now rewrite E.
    + destruct (nth_error (objects st) r0) eqn:E; [|reflexivity].
      assert (Hr0 : (r0 < length (objects st))%nat)
        by (apply nth_error_Some; congruence).
      cbn [objects].
      destruct (Nat.lt_ge_cases r r0) as [Hlt|Hge].
      * rewrite nth_error_app1 by (rewrite length_firstn; lia).
        now rewrite nth_error_firstn, (proj2 (Nat.ltb_lt r r0) Hlt).
      * rewrite nth_error_app2 by (rewrite length_firstn; lia).
        rewrite length_firstn.
        replace (Nat.min r0 (length (objects st))) with r0 by lia.
        destruct (r - r0)%nat as [|d] eqn:Ed; [lia|]. cbn [nth_error].
        rewrite nth_error_skipn. f_equal. lia.
Qed.

Lemma deref_run (evs : list event) :
  forall st r,
    (r < length (objects st))%nat ->
    deref (run_events st evs) r
    = option_map (fun obj => run obj (calls_on r evs)) (deref st r).
Proof.
  induction evs as [|ev evs IH]; intros st r Hr.
  - cbn. now destruct (deref st r).
  - cbn [run_events fold_left]. fold (run_events (step st ev) evs).
    rewrite IH by (pose proof (step_objects st ev); lia).
    rewrite deref_step by exact Hr.
    cbn [calls_on flat_map]. fold (calls_on r evs).
    destruct ev as [| |r' c]; cbn [app]; try reflexivity.
    destruct (r' =? r)%nat; [|reflexivity].
    now destruct (deref st r).
Qed.

End WithPrimitives.
End AccessorFacts.

(** * The claims *)
Module Claims.
Import Sodium SodiumKeys SecureChatService Sample.
Import EncodingFacts ChaChaFacts SodiumFacts HexFacts SessionFacts SampleFacts.

Lemma js_string_hi : js_string hi.
Proof.
  split; [repeat constructor; unfold code_unit; lia | simpl; lia].
Defined.

Lemma js_string_bom_hi : js_string bom_hi.
Proof.
  split; [repeat constructor; unfold code_unit; lia | simpl; lia].
Defined.

Lemma js_string_lone : js_string lone.
Proof.
  split; [repeat constructor; unfold code_unit; lia | simpl; lia].
Defined.

Lemma alice_handshake :
  computeSharedKey (P := primitives) alice bob_public
  = (alice_ready, Ok shared).
Proof. vm_compute. reflexivity. Defined.

Lemma from_string_small (m : JsString) :
  js_string m -> Z.of_nat (length (from_string m)) < 2 ^ 64.
Proof.
  intros [_ Hlen]. pose proof (TextEncoder_encode_length m).
  unfold from_string. lia.
Qed.

Section WithPrimitives.
Context {P : Primitives}.

(** C1 (as amended).  On a session whose shared secret was stored by
    [computeSharedKey], for every well-formed string message that does
    not start with U+FEFF, [encryptAEAD] returns an envelope and
    [decryptAEAD] on its ciphertext and nonce returns the message. *)
Theorem decryptAEAD_encryptAEAD (s0 s : t) (peer k : Uint8Array)
  (m : JsString) (e : entropy) :
  computeSharedKey s0 peer = (s, Ok k) ->
  js_string m ->
  Encoding.isWellFormed m = true ->
  Encoding.starts_with_BOM m = false ->
  exists env,
    encryptAEAD s m e = Ok env
    /\ decryptAEAD s (ciphertext env) (nonce env) = Ok m.
Proof.
  intros Hs [Hm _] Hw Hb. apply computeSharedKey_Ok in Hs as [Hk Hlen].
  unfold encryptAEAD, decryptAEAD. rewrite Hk.
  destruct (crypto_aead_roundtrip (from_string m) None
              (fst (randombytes_buf NPUBBYTES e)) k
              (randombytes_buf_length _ _) Hlen) as (c & Hc & _ & Hd).
  rewrite Hc. unfold bind at 1. eexists. split; [reflexivity|].
  cbn [ciphertext nonce]. rewrite Hd. unfold bind, to_string, from_string.
  now apply TextDecoder_decode_encode.
Qed.

(** C4 (as amended).  On a session whose shared secret was stored by
    [computeSharedKey], for every well-formed string message that does
    not start with U+FEFF, [decryptRaw] undoes [encryptRaw] and
    [decryptRawFixedNonce] undoes [encryptRawFixedNonce]; and on bytes,
    under the stored key and any 8-byte nonce, [streamXOR] applied
    twice gives back its input. *)
Theorem decryptRaw_encryptRaw (s0 s : t) (peer k : Uint8Array)
  (m : JsString) (e : entropy) :
  computeSharedKey s0 peer = (s, Ok k) ->
  js_string m ->
  Encoding.isWellFormed m = true ->
  Encoding.starts_with_BOM m = false ->
  (exists env,
     encryptRaw s m e = Ok env
     /\ decryptRaw s (ciphertext env) (nonce env) = Ok m)
  /\ (exists c,
        encryptRawFixedNonce s m = Ok c
        /\ decryptRawFixedNonce s c = Ok m)
  /\ (forall n src : Uint8Array,
        length n = 8%nat ->
        Z.of_nat (length src) < 2 ^ 64 ->
        exists out,
          ChaCha.streamXOR k n src (new_Uint8Array (length src)) = Ok out
          /\ ChaCha.streamXOR k n out (new_Uint8Array (length out))
             = Ok src).
Proof.
  intros Hs Hm Hw Hb. apply computeSharedKey_Ok in Hs as [Hk Hlen].
  pose proof (from_string_small m Hm) as Hsmall. destruct Hm as [Hm _].
  split; [|split].
  3:{ intros n src Hn Hsrc.
      destruct (streamXOR_roundtrip k n src (new_Uint8Array (length src)))
        as (out & Hout & Hol & Hback);
        [exact Hlen | exact Hn | apply repeat_length | exact Hsrc |].
      exists out. split; [exact Hout|]. apply Hback.
      unfold new_Uint8Array. now rewrite repeat_length. }
  - unfold encryptRaw, decryptRaw. rewrite Hk.
    destruct (streamXOR_roundtrip k (fst (randombytes_buf 8 e))
                (from_string m) (new_Uint8Array (length (from_string m))))
      as (c & Hc & Hcl & Hd);
      [exact Hlen | apply randombytes_buf_length | apply repeat_length
      | exact Hsmall |].
    rewrite Hc. unfold bind at 1. eexists. split; [reflexivity|].
    cbn [ciphertext nonce].
    rewrite Hd by (unfold new_Uint8Array; now rewrite repeat_length).
    unfold bind, to_string, from_string.
    now apply TextDecoder_decode_encode.
  - unfold encryptRawFixedNonce, decryptRawFixedNonce. rewrite Hk.
    destruct (streamXOR_roundtrip k _fixedNonce
                (Encoding.TextEncoder_encode m)
                (new_Uint8Array (length (Encoding.TextEncoder_encode m))))
      as (c & Hc & Hcl & Hd);
      [exact Hlen | reflexivity | apply repeat_length | exact Hsmall |].
    exists c. split; [exact Hc|].
    rewrite Hd by (unfold new_Uint8Array; now rewrite repeat_length).
    unfold bind. now apply TextDecoder_decode_encode.
Qed.

(** C10 (as amended).  The fixed nonce is eight zero bytes.  On a session
    whose shared secret was stored by [computeSharedKey], for every
    string message, [encryptRawFixedNonce] returns the bytes [streamXOR]
    produces under that key and the nonce of eight zero bytes, which is
    the ciphertext [encryptRaw] returns when its random nonce is zero;
    and [decryptRaw] on them with eight zero bytes returns the message
    when it is well formed and does not start with U+FEFF. *)
Theorem encryptRawFixedNonce_is_zero_nonce (s0 s : t) (peer k : Uint8Array)
  (m : JsString) :
  computeSharedKey s0 peer = (s, Ok k) ->
  js_string m ->
  _fixedNonce = [0; 0; 0; 0; 0; 0; 0; 0]
  /\ exists c,
       encryptRawFixedNonce s m = Ok c
       /\ ChaCha.streamXOR k [0; 0; 0; 0; 0; 0; 0; 0] (from_string m)
            (new_Uint8Array (length (from_string m))) = Ok c
       /\ encryptRaw s m entropy_0
          = Ok (mkEnvelope [0; 0; 0; 0; 0; 0; 0; 0] c)
       /\ (Encoding.isWellFormed m = true ->
           Encoding.starts_with_BOM m = false ->
           decryptRaw s c [0; 0; 0; 0; 0; 0; 0; 0] = Ok m).
Proof.
  intros Hs Hm. apply computeSharedKey_Ok in Hs as [Hk Hlen].
  pose proof (from_string_small m Hm) as Hsmall. destruct Hm as [Hm _].
  split; [reflexivity|].
  destruct (streamXOR_roundtrip k _fixedNonce (from_string m)
              (new_Uint8Array (length (from_string m))))
    as (c & Hc & Hcl & Hd);
    [exact Hlen | reflexivity | apply repeat_length | exact Hsmall |].
  exists c. unfold encryptRawFixedNonce, encryptRaw, decryptRaw.
  rewrite Hk. change (fst (randombytes_buf 8 entropy_0)) with _fixedNonce.
  change [0; 0; 0; 0; 0; 0; 0; 0] with _fixedNonce.
  fold (from_string m). rewrite Hc. unfold bind at 1.
  repeat split. intros Hw Hb.
  rewrite Hd by (unfold new_Uint8Array; now rewrite repeat_length).
  unfold bind, to_string, from_string.
  now apply TextDecoder_decode_encode.
Qed.

(** C5 (as amended).  The failures are told apart by their message, not
    by a tag.  "Uninitialized", "no shared secret" and the
    authentication failure are plain [Error] objects, and so are the
    malformed-input failures of the stream cipher (a nonce of neither 8
    nor 12 bytes) and of the hex codec; the six messages differ
    pairwise.  A wrong size that libsodium checks (ciphertext, nonce or
    key of the AEAD, peer public key, signature or signing key) is
    thrown as a [TypeError].  On a session whose shared secret was
    stored by [computeSharedKey], [decryptAEAD] throws the [Error]
    "ciphertext cannot be decrypted using that key" exactly when the
    ciphertext has at least 16 bytes, the nonce 12 and the tag does not
    verify; it returns no string then, and whatever else it throws is a
    [TypeError]. *)
Theorem failures_told_apart_by_message (s0 s : t)
  (peer k ct n : Uint8Array) :
  computeSharedKey s0 peer = (s, Ok k) ->
  (Forall (fun e => exn_class e = Error)
     [uninitialized; no_shared_key; cannot_decrypt;
      ChaCha.nonce_size_error; invalid_input; incomplete_input]
   /\ NoDup [uninitialized; no_shared_key; cannot_decrypt;
             ChaCha.nonce_size_error; invalid_input; incomplete_input])
  /\ (decryptAEAD s ct n = Throw cannot_decrypt
      <-> (ABYTES <= length ct)%nat /\ length n = NPUBBYTES
          /\ tag_verifies ct n k = false)
  /\ (forall e, decryptAEAD s ct n = Throw e ->
                e = cannot_decrypt \/ exn_class e = TypeError)
  /\ ((length ct < ABYTES)%nat \/ length n <> NPUBBYTES ->
      exists msg, decryptAEAD s ct n = Throw (type_error msg))
  /\ (forall (key : Uint8Array) (message : JsString + Uint8Array)
        (e : entropy) (raw : bool),
        length key <> 32%nat ->
        (exists msg,
           encryptByKeyAEAD message key e = Throw (type_error msg))
        /\ exists msg,
             decryptByKeyAEAD ct n key raw = Throw (type_error msg))
  /\ (forall peer' : Uint8Array,
        length peer' <> 32%nat ->
        exists msg, computeSharedKey s peer' = (s, Throw (type_error msg)))
  /\ (forall dh sig pk : Uint8Array,
        length sig <> 64%nat \/ length pk <> 32%nat ->
        exists msg, verifyDHSignature dh sig pk = Throw (type_error msg))
  /\ (forall n' : Uint8Array,
        length n' <> 8%nat -> length n' <> 12%nat ->
        decryptRaw s ct n' = Throw ChaCha.nonce_size_error)
  /\ (forall hexString : JsString,
        js_string hexString ->
        Nat.odd (length hexString) = true
        \/ Exists (fun c => is_hex_digit c = false) hexString ->
        hexToUint8Array hexString = Throw invalid_input
        \/ hexToUint8Array hexString = Throw incomplete_input).
Proof.
  intros Hs.
  assert (Hx : exists x,
             _x25519 s = Some x /\ length (privateKey x) = 32%nat).
  { unfold computeSharedKey in Hs.
    destruct (_x25519 s0) as [x|] eqn:Ex; [|discriminate].
    destruct (crypto_scalarmult (privateKey x) peer) as [k'|] eqn:E;
      [|discriminate].
    injection Hs as <- <-. exists x. split; [reflexivity|].
    unfold crypto_scalarmult in E.
    destruct (Nat.eqb_spec (length (privateKey x)) 32);
      [assumption | discriminate]. }
  apply computeSharedKey_Ok in Hs as [Hk Hlen].
  assert (Hdec : decryptAEAD s ct n
                 = if (length ct <? ABYTES)%nat
                   then Throw (type_error "ciphertext is too short")
                   else if negb (length n =? NPUBBYTES)%nat
                   then Throw (type_error "invalid public_nonce length")
                   else if tag_verifies ct n k
                   then Encoding.TextDecoder_decode true
                          (chacha20_ietf_xor_ic
                             (ChaCha.blocks (length ct - ABYTES)) n 1 k
                             (firstn (length ct - ABYTES) ct))
                   else Throw cannot_decrypt).
  { unfold decryptAEAD. rewrite Hk.
    unfold crypto_aead_chacha20poly1305_ietf_decrypt, aead_decrypt,
      tag_verifies.
    destruct (length ct <? ABYTES)%nat; [reflexivity|].
    destruct (negb (length n =? NPUBBYTES)%nat); [reflexivity|].
    rewrite Hlen. unfold KEYBYTES. cbn [Nat.eqb negb or_empty].
    now destruct (crypto_verify_16 _ _). }
  split; [|split; [|split; [|split; [|split; [|split; [|split; [|split]]]]]]].
  - split.
    + repeat constructor.
    + repeat constructor; cbn [In]; intuition discriminate.
  - rewrite Hdec. split.
    + destruct (Nat.ltb_spec (length ct) ABYTES) as [Hc|Hc]; [discriminate|].
      destruct (Nat.eqb_spec (length n) NPUBBYTES) as [Hn|Hn]; cbn [negb];
        [|discriminate].
      destruct (tag_verifies ct n k) eqn:Et; [|now intros _].
      pose proof (TextDecoder_decode_fatal
                    (chacha20_ietf_xor_ic
                       (ChaCha.blocks (length ct - ABYTES)) n 1 k
                       (firstn (length ct - ABYTES) ct))) as H.
      destruct (Encoding.is_utf8 _).
      * destruct H as [str ->]. discriminate.
      * rewrite H. discriminate.
    + intros (Hc & Hn & Et).
      replace (length ct <? ABYTES)%nat with false
        by (symmetry; apply Nat.ltb_ge; exact Hc).
      now rewrite Hn, Nat.eqb_refl, Et.
  - intros e. rewrite Hdec.
    destruct (length ct <? ABYTES)%nat;
      [intros H; injection H as <-; now right|].
    destruct (negb (length n =? NPUBBYTES)%nat);
      [intros H; injection H as <-; now right|].
    destruct (tag_verifies ct n k);
      [|intros H; injection H as <-; now left].
    pose proof (TextDecoder_decode_fatal
                  (chacha20_ietf_xor_ic
                     (ChaCha.blocks (length ct - ABYTES)) n 1 k
                     (firstn (length ct - ABYTES) ct))) as H.
    destruct (Encoding.is_utf8 _).
    + destruct H as [str ->]. discriminate.
    + rewrite H. intros H'. injection H' as <-. now right.
  - intros Hbad. rewrite Hdec.
    destruct (Nat.ltb_spec (length ct) ABYTES) as [Hc|Hc]; [now eexists|].
    destruct (Nat.eqb_spec (length n) NPUBBYTES) as [Hn|Hn]; cbn [negb];
      [lia | now eexists].
  - intros key message e raw Hkey. apply Nat.eqb_neq in Hkey.
    unfold encryptByKeyAEAD, decryptByKeyAEAD,
      crypto_aead_chacha20poly1305_ietf_encrypt,
      crypto_aead_chacha20poly1305_ietf_decrypt.
    rewrite randombytes_buf_length. unfold KEYBYTES. rewrite Hkey.
    cbn [Nat.eqb NPUBBYTES negb bind]. split; [now eexists|].
    destruct (_ <? _)%nat; [now eexists|].
    destruct (negb _); now eexists.
  - intros peer' Hp. destruct Hx as (x & Ex & Hxl).
    apply Nat.eqb_neq in Hp.
    unfold computeSharedKey, crypto_scalarmult.
    rewrite Ex, Hxl, Hp. cbn [Nat.eqb negb]. now eexists.
  - intros dh sig pk Hbad.
    unfold verifyDHSignature, crypto_sign_verify_detached.
    destruct (Nat.eqb_spec (length sig) 64) as [Hg|Hg]; cbn [negb];
      [|now eexists].
    destruct (Nat.eqb_spec (length pk) 32) as [Hp|Hp]; cbn [negb];
      [lia | now eexists].
  - intros n' H8 H12. unfold decryptRaw. rewrite Hk.
    unfold ChaCha.streamXOR.
    rewrite Hlen, new_Uint8Array_length, Nat.ltb_irrefl.
    cbn [Nat.eqb negb].
    apply Nat.eqb_neq in H8, H12. now rewrite H8, H12.
  - clear Hx Hk Hlen Hdec. intros hexString Hjs Hbad.
    assert (Hno : forall bin, hexToUint8Array hexString <> Ok bin).
    { intros bin Hok. apply from_hex_Ok in Hok as [Hd Hl]; [|exact Hjs].
      destruct Hbad as [Hodd|Hex].
      - rewrite Hl, Nat.odd_mul in Hodd. discriminate.
      - apply Exists_exists in Hex as (c & Hin & Hc).
        rewrite Forall_forall in Hd. apply Hd in Hin.
        unfold hex_digit in Hin. congruence. }
    unfold hexToUint8Array, from_hex in *.
    destruct (negb _); [now left|]. destruct (negb _); [now right|].
    now destruct (Hno _ eq_refl).
Qed.

(** C6.  On a session on which no call of [computeSharedKey] has
    returned, each of the six instance operations that encrypt or
    decrypt throws the "no shared secret" error, whatever its
    arguments. *)
Theorem no_shared_key_throws (calls : list call) :
  never_stored new calls ->
  forall (message : JsString) (e : entropy) (ct n : Uint8Array),
    let s := run new calls in
    encryptAEAD s message e = Throw no_shared_key
    /\ decryptAEAD s ct n = Throw no_shared_key
    /\ encryptRaw s message e = Throw no_shared_key
    /\ decryptRaw s ct n = Throw no_shared_key
    /\ encryptRawFixedNonce s message = Throw no_shared_key
    /\ decryptRawFixedNonce s ct = Throw no_shared_key.
Proof.
  intros Hn message e ct n s.
  assert (Hk : _sharedKey s = None)
    by (apply never_stored_sharedKey; [reflexivity | exact Hn]).
  unfold encryptAEAD, decryptAEAD, encryptRaw, decryptRaw,
    encryptRawFixedNonce, decryptRawFixedNonce.
  rewrite Hk. repeat split.
Qed.

(** C7.  On a session on which [init] has not been called, the two
    public-key accessors, [signDHPublicKey], [computeSharedKey] and
    [exportPublicIdentity] throw the "uninitialized" error, and
    [computeSharedKey] stores nothing. *)
Theorem uninitialized_throws (calls : list call) :
  Forall (fun c => is_init c = false) calls ->
  forall peer : Uint8Array,
    let s := run new calls in
    ed25519PublicKey s = Throw uninitialized
    /\ x25519PublicKey s = Throw uninitialized
    /\ signDHPublicKey s = Throw uninitialized
    /\ computeSharedKey s peer = (s, Throw uninitialized)
    /\ exportPublicIdentity s = Throw uninitialized.
Proof.
  intros Hc peer s. unfold s. rewrite (run_without_init calls Hc).
  repeat split.
Qed.


End WithPrimitives.

(** C9.  On a string of odd length, or with a character that is not a
    hexadecimal digit, [hexToUint8Array] throws: it does not return an
    array, shorter or otherwise. *)
Theorem hexToUint8Array_malformed (hexString : JsString) :
  js_string hexString ->
  Nat.odd (length hexString) = true
  \/ Exists (fun c => is_hex_digit c = false) hexString ->
  (hexToUint8Array hexString = Throw invalid_input
   \/ hexToUint8Array hexString = Throw incomplete_input)
  /\ forall bin, hexToUint8Array hexString <> Ok bin.
Proof.
  intros Hs Hbad.
  assert (Hno : forall bin, hexToUint8Array hexString <> Ok bin).
  { intros bin Hok. apply from_hex_Ok in Hok as [Hd Hl]; [|exact Hs].
    destruct Hbad as [Hodd|Hex].
    - rewrite Hl, Nat.odd_mul in Hodd. discriminate.
    - apply Exists_exists in Hex as (c & Hin & Hc).
      rewrite Forall_forall in Hd. apply Hd in Hin.
      unfold hex_digit in Hin. congruence. }
  split; [|exact Hno].
  unfold hexToUint8Array, from_hex in *.
  destruct (negb _); [now left|]. destruct (negb _); [now right|].
  now destruct (Hno _ eq_refl).
Qed.

(** The round trip of "hi" through [encryptAEAD] on [alice_ready]. *)
Lemma decryptAEAD_encryptAEAD_witness :
  exists env,
    encryptAEAD alice_ready hi entropy_n = Ok env
    /\ decryptAEAD alice_ready (ciphertext env) (nonce env) = Ok hi.
Proof.
  apply (decryptAEAD_encryptAEAD (P := primitives) alice alice_ready
           bob_public shared hi entropy_n).
  - exact alice_handshake.
  - exact js_string_hi.
  - reflexivity.
  - reflexivity.
Defined.

(** C1, as stated, fails on two messages: for U+FEFF "hi" what comes
    back is "hi", and for an unpaired surrogate it is U+FFFD. *)
Lemma decryptAEAD_alters_message :
  js_string bom_hi /\ js_string lone
  /\ computeSharedKey (P := primitives) alice bob_public
     = (alice_ready, Ok shared)
  /\ (exists env,
        encryptAEAD alice_ready bom_hi entropy_n = Ok env
        /\ decryptAEAD alice_ready (ciphertext env) (nonce env) = Ok hi
        /\ hi <> bom_hi)
  /\ (exists env,
        encryptAEAD alice_ready lone entropy_n = Ok env
        /\ decryptAEAD alice_ready (ciphertext env) (nonce env)
           = Ok replaced
        /\ replaced <> lone).
Proof.
  split; [exact js_string_bom_hi|]. split; [exact js_string_lone|].
  split; [exact alice_handshake|].
  split; eexists; (split; [vm_compute; reflexivity|]);
    (split; [vm_compute; reflexivity | discriminate]).
Qed.

(** The round trips of "hi" through both raw schemes on [alice_ready]. *)
Lemma decryptRaw_encryptRaw_witness :
  (exists env,
     encryptRaw alice_ready hi entropy_n = Ok env
     /\ decryptRaw alice_ready (ciphertext env) (nonce env) = Ok hi)
  /\ (exists c,
        encryptRawFixedNonce alice_ready hi = Ok c
        /\ decryptRawFixedNonce alice_ready c = Ok hi)
  /\ (forall n src : Uint8Array,
        length n = 8%nat ->
        Z.of_nat (length src) < 2 ^ 64 ->
        exists out,
          ChaCha.streamXOR shared n src (new_Uint8Array (length src))
          = Ok out
          /\ ChaCha.streamXOR shared n out (new_Uint8Array (length out))
             = Ok src).
Proof.
  apply (decryptRaw_encryptRaw (P := primitives) alice alice_ready
           bob_public shared hi entropy_n).
  - exact alice_handshake.
  - exact js_string_hi.
  - reflexivity.
  - reflexivity.
Defined.

(** C4, as stated, fails on two messages: in the fixed-nonce scheme
    U+FEFF "hi" comes back as "hi", and in the random-nonce scheme an
    unpaired surrogate comes back as U+FFFD. *)
Lemma decryptRaw_alters_message :
  js_string bom_hi /\ js_string lone
  /\ computeSharedKey (P := primitives) alice bob_public
     = (alice_ready, Ok shared)
  /\ (exists c,
        encryptRawFixedNonce alice_ready bom_hi = Ok c
        /\ decryptRawFixedNonce alice_ready c = Ok hi
        /\ hi <> bom_hi)
  /\ (exists env,
        encryptRaw alice_ready lone entropy_n = Ok env
        /\ decryptRaw alice_ready (ciphertext env) (nonce env) = Ok replaced
        /\ replaced <> lone).
Proof.
  split; [exact js_string_bom_hi|]. split; [exact js_string_lone|].
  split; [exact alice_handshake|].
  split; eexists; (split; [vm_compute; reflexivity|]);
    (split; [vm_compute; reflexivity | discriminate]).
Qed.

(** The fixed-nonce scheme on "hi" and [alice_ready]. *)
Lemma encryptRawFixedNonce_is_zero_nonce_witness :
  _fixedNonce = [0; 0; 0; 0; 0; 0; 0; 0]
  /\ exists c,
       encryptRawFixedNonce alice_ready hi = Ok c
       /\ ChaCha.streamXOR shared [0; 0; 0; 0; 0; 0; 0; 0] (from_string hi)
            (new_Uint8Array (length (from_string hi))) = Ok c
       /\ encryptRaw alice_ready hi entropy_0
          = Ok (mkEnvelope [0; 0; 0; 0; 0; 0; 0; 0] c)
       /\ (Encoding.isWellFormed hi = true ->
           Encoding.starts_with_BOM hi = false ->
           decryptRaw alice_ready c [0; 0; 0; 0; 0; 0; 0; 0] = Ok hi).
Proof.
  apply (encryptRawFixedNonce_is_zero_nonce (P := primitives) alice
           alice_ready bob_public shared hi).
  - exact alice_handshake.
  - exact js_string_hi.
Defined.

(** C10, as stated, fails on two messages: [decryptRaw] on the
    fixed-nonce ciphertext and eight zero bytes returns "hi" for
    U+FEFF "hi", and U+FFFD for an unpaired surrogate. *)
Lemma decryptRaw_zero_nonce_alters_message :
  js_string bom_hi /\ js_string lone
  /\ computeSharedKey (P := primitives) alice bob_public
     = (alice_ready, Ok shared)
  /\ (exists c,
        encryptRawFixedNonce alice_ready bom_hi = Ok c
        /\ decryptRaw alice_ready c [0; 0; 0; 0; 0; 0; 0; 0] = Ok hi
        /\ hi <> bom_hi)
  /\ (exists c,
        encryptRawFixedNonce alice_ready lone = Ok c
        /\ decryptRaw alice_ready c [0; 0; 0; 0; 0; 0; 0; 0] = Ok replaced
        /\ replaced <> lone).
Proof.
  split; [exact js_string_bom_hi|]. split; [exact js_string_lone|].
  split; [exact alice_handshake|].
  split; eexists; (split; [vm_compute; reflexivity|]);
    (split; [vm_compute; reflexivity | discriminate]).
Qed.

(** Twenty zero bytes are not an authentic ciphertext for [alice_ready]. *)
Lemma failures_told_apart_by_message_witness :
  (Forall (fun e => exn_class e = Error)
     [uninitialized; no_shared_key; cannot_decrypt;
      ChaCha.nonce_size_error; invalid_input; incomplete_input]
   /\ NoDup [uninitialized; no_shared_key; cannot_decrypt;
             ChaCha.nonce_size_error; invalid_input; incomplete_input])
  /\ (decryptAEAD alice_ready zeros_20 zeros_12 = Throw cannot_decrypt
      <-> (ABYTES <= length zeros_20)%nat /\ length zeros_12 = NPUBBYTES
          /\ tag_verifies zeros_20 zeros_12 shared = false)
  /\ (forall e, decryptAEAD alice_ready zeros_20 zeros_12 = Throw e ->
                e = cannot_decrypt \/ exn_class e = TypeError)
  /\ ((length zeros_20 < ABYTES)%nat \/ length zeros_12 <> NPUBBYTES ->
      exists msg,
        decryptAEAD alice_ready zeros_20 zeros_12 = Throw (type_error msg))
  /\ (forall (key : Uint8Array) (message : JsString + Uint8Array)
        (e : entropy) (raw : bool),
        length key <> 32%nat ->
        (exists msg,
           encryptByKeyAEAD message key e = Throw (type_error msg))
        /\ exists msg,
             decryptByKeyAEAD zeros_20 zeros_12 key raw
             = Throw (type_error msg))
  /\ (forall peer' : Uint8Array,
        length peer' <> 32%nat ->
        exists msg,
          computeSharedKey (P := primitives) alice_ready peer'
          = (alice_ready, Throw (type_error msg)))
  /\ (forall dh sig pk : Uint8Array,
        length sig <> 64%nat \/ length pk <> 32%nat ->
        exists msg,
          verifyDHSignature (P := primitives) dh sig pk
          = Throw (type_error msg))
  /\ (forall n' : Uint8Array,
        length n' <> 8%nat -> length n' <> 12%nat ->
        decryptRaw alice_ready zeros_20 n' = Throw ChaCha.nonce_size_error)
  /\ (forall hexString : JsString,
        js_string hexString ->
        Nat.odd (length hexString) = true
        \/ Exists (fun c => is_hex_digit c = false) hexString ->
        hexToUint8Array hexString = Throw invalid_input
        \/ hexToUint8Array hexString = Throw incomplete_input).
Proof.
  apply (failures_told_apart_by_message (P := primitives) alice
           alice_ready bob_public shared zeros_20 zeros_12).
  exact alice_handshake.
Defined.

(** C5, as stated, fails: the "uninitialized", "no shared secret" and
    authentication failures, and the malformed-input failures of
    [decryptRaw] and [hexToUint8Array], are thrown with one and the same
    tag, the constructor [Error]. *)
Lemma failures_share_one_tag :
  exists e1 e2 e3 e4 e5,
    signDHPublicKey (P := primitives) new = Throw e1
    /\ encryptAEAD new hi entropy_n = Throw e2
    /\ decryptAEAD alice_ready zeros_20 zeros_12 = Throw e3
    /\ decryptRaw alice_ready zeros_20 zeros_7 = Throw e4
    /\ hexToUint8Array abc = Throw e5
    /\ exn_class e1 = exn_class e2
    /\ exn_class e2 = exn_class e3
    /\ exn_class e3 = exn_class e4
    /\ exn_class e4 = exn_class e5.
Proof.
  exists uninitialized, no_shared_key, cannot_decrypt,
    ChaCha.nonce_size_error, invalid_input.
  split; [reflexivity|]. split; [reflexivity|].
  split; [vm_compute; reflexivity|].
  split; [vm_compute; reflexivity|].
  split; [vm_compute; reflexivity|]. repeat split.
Qed.

(** After [history_without_key], every cipher operation throws. *)
Lemma no_shared_key_throws_witness :
  let s := run (P := primitives) new history_without_key in
  encryptAEAD s hi entropy_n = Throw no_shared_key
  /\ decryptAEAD s zeros_20 zeros_12 = Throw no_shared_key
  /\ encryptRaw s hi entropy_n = Throw no_shared_key
  /\ decryptRaw s zeros_20 zeros_12 = Throw no_shared_key
  /\ encryptRawFixedNonce s hi = Throw no_shared_key
  /\ decryptRawFixedNonce s zeros_20 = Throw no_shared_key.
Proof.
  apply (no_shared_key_throws (P := primitives) history_without_key).
  vm_compute. repeat split.
Defined.

(** After [history_without_init], the key operations throw. *)
Lemma uninitialized_throws_witness :
  let s := run (P := primitives) new history_without_init in
  ed25519PublicKey s = Throw uninitialized
  /\ x25519PublicKey s = Throw uninitialized
  /\ signDHPublicKey (P := primitives) s = Throw uninitialized
  /\ computeSharedKey (P := primitives) s bob_public
     = (s, Throw uninitialized)
  /\ exportPublicIdentity (P := primitives) s = Throw uninitialized.
Proof.
  apply (uninitialized_throws (P := primitives) history_without_init).
  repeat constructor.
Defined.

(** "abc" has an odd number of digits. *)
Lemma hexToUint8Array_malformed_witness :
  (hexToUint8Array abc = Throw invalid_input
   \/ hexToUint8Array abc = Throw incomplete_input)
  /\ forall bin, hexToUint8Array abc <> Ok bin.
Proof.
  apply (hexToUint8Array_malformed abc).
  - split; [repeat constructor; unfold code_unit; lia | simpl; lia].
  - left. reflexivity.
Defined.

End Claims.

(** * Further properties of the class and of the accessor *)
Module Properties.
Import Sodium SodiumKeys SecureChatService Accessor Sample.
Import EncodingFacts ChaChaFacts SodiumFacts HexFacts SessionFacts SampleFacts.
Import AccessorFacts.

Lemma handshake_stores :
  _sharedKey (run (P := primitives) new handshake) = Some shared.
Proof. vm_compute. reflexivity. Defined.

Section WithPrimitives.
Context {P : Primitives}.

(** Under the Diffie-Hellman laws, [crypto_scalarmult] returns on a
    public key made by [crypto_box_keypair]. *)
Lemma crypto_scalarmult_public {DH : DiffieHellman P} (n m : Uint8Array) :
  length n = 32%nat -> length m = 32%nat ->
  crypto_scalarmult n (le_encode 32 (X25519 m basepoint))
  = Ok (le_encode 32 (X25519 n (le_encode 32 (X25519 m basepoint)))).
Proof.
  intros Hn Hm. unfold crypto_scalarmult.
  rewrite Hn, le_encode_length. cbn [Nat.eqb negb].
  destruct (forallb _ _) eqn:Ez; [|reflexivity].
  apply le_encode_zero in Ez.
  now apply (X25519_nonzero n m Hn Hm) in Ez.
Qed.

(** ** The text that comes back *)

(** On a session that holds a shared key, [encryptAEAD] returns an
    envelope for every string, and [decryptAEAD] on that envelope
    returns the string made well formed (unpaired surrogates replaced
    by U+FFFD) and without its leading U+FEFF.  That is the string
    itself exactly when it is well formed and does not start with
    U+FEFF. *)
Theorem decryptAEAD_returns_received (calls : list call) (k : Uint8Array)
  (m : JsString) (e : entropy) :
  _sharedKey (run new calls) = Some k ->
  js_string m ->
  exists env,
    encryptAEAD (run new calls) m e = Ok env
    /\ decryptAEAD (run new calls) (ciphertext env) (nonce env)
       = Ok (Encoding.received m)
    /\ (Encoding.received m = m
        <-> Encoding.isWellFormed m = true
            /\ Encoding.starts_with_BOM m = false).
Proof.
  intros Hk [Hm _]. pose proof (sharedKey_length calls k Hk) as Hlen.
  unfold encryptAEAD, decryptAEAD. rewrite Hk.
  destruct (crypto_aead_roundtrip (from_string m) None
              (fst (randombytes_buf NPUBBYTES e)) k
              (randombytes_buf_length _ _) Hlen) as (c & Hc & _ & Hd).
  rewrite Hc. unfold bind at 1. eexists. split; [reflexivity|].
  cbn [ciphertext nonce]. rewrite Hd. unfold bind, to_string, from_string.
  split; [now apply TextDecoder_decode_TextEncoder_encode | apply received_id].
Qed.

(** On a session that holds a shared key, [encryptRaw] returns an
    envelope for every string, and [decryptRaw] on that envelope
    returns the string made well formed and without its leading
    U+FEFF. *)
Theorem decryptRaw_returns_received (calls : list call) (k : Uint8Array)
  (m : JsString) (e : entropy) :
  _sharedKey (run new calls) = Some k ->
  js_string m ->
  exists env,
    encryptRaw (run new calls) m e = Ok env
    /\ decryptRaw (run new calls) (ciphertext env) (nonce env)
       = Ok (Encoding.received m).
Proof.
  intros Hk Hm. pose proof (sharedKey_length calls k Hk) as Hlen.
  pose proof (TextEncoder_encode_small m Hm) as Hsmall. destruct Hm as [Hm _].
  unfold encryptRaw, decryptRaw, from_string. rewrite Hk.
  destruct (streamXOR_roundtrip k (fst (randombytes_buf 8 e))
              (Encoding.TextEncoder_encode m)
              (new_Uint8Array (length (Encoding.TextEncoder_encode m))))
    as (c & Hc & Hcl & Hd);
    [exact Hlen | apply randombytes_buf_length | apply new_Uint8Array_length
    | exact Hsmall |].
  rewrite Hc. unfold bind at 1. eexists. split; [reflexivity|].
  cbn [ciphertext nonce].
  rewrite Hd by (rewrite new_Uint8Array_length; exact Hcl).
  unfold bind, to_string.
  now apply TextDecoder_decode_TextEncoder_encode.
Qed.

(** On a session that holds a shared key, [encryptRawFixedNonce]
    returns a ciphertext for every string, and [decryptRawFixedNonce]
    on it returns the string made well formed and without its leading
    U+FEFF. *)
Theorem decryptRawFixedNonce_returns_received (calls : list call)
  (k : Uint8Array) (m : JsString) :
  _sharedKey (run new calls) = Some k ->
  js_string m ->
  exists c,
    encryptRawFixedNonce (run new calls) m = Ok c
    /\ decryptRawFixedNonce (run new calls) c = Ok (Encoding.received m).
Proof.
  intros Hk Hm. pose proof (sharedKey_length calls k Hk) as Hlen.
  pose proof (TextEncoder_encode_small m Hm) as Hsmall. destruct Hm as [Hm _].
  unfold encryptRawFixedNonce, decryptRawFixedNonce. rewrite Hk.
  destruct (streamXOR_roundtrip k _fixedNonce (Encoding.TextEncoder_encode m)
              (new_Uint8Array (length (Encoding.TextEncoder_encode m))))
    as (c & Hc & Hcl & Hd);
    [exact Hlen | reflexivity | apply new_Uint8Array_length | exact Hsmall |].
  exists c. split; [exact Hc|].
  rewrite Hd by (rewrite new_Uint8Array_length; exact Hcl).
  unfold bind. now apply TextDecoder_decode_TextEncoder_encode.
Qed.

(** ** Sizes *)

(** On a session that holds a shared key no encryption throws, and the
    sizes are fixed by the message: [encryptAEAD] returns a 12-byte
    nonce and a ciphertext 16 bytes longer than the UTF-8 encoding of
    the message; [encryptRaw] an 8-byte nonce and a ciphertext as long
    as the encoding; [encryptRawFixedNonce] a ciphertext as long as the
    encoding.  The encoding has one to three bytes per code unit of
    the message. *)
Theorem ciphertext_sizes (calls : list call) (k : Uint8Array)
  (m : JsString) (e : entropy) :
  _sharedKey (run new calls) = Some k ->
  js_string m ->
  exists aead raw fixed,
    encryptAEAD (run new calls) m e = Ok aead
    /\ encryptRaw (run new calls) m e = Ok raw
    /\ encryptRawFixedNonce (run new calls) m = Ok fixed
    /\ length (nonce aead) = 12%nat
    /\ length (ciphertext aead)
       = (length (Encoding.TextEncoder_encode m) + 16)%nat
    /\ length (nonce raw) = 8%nat
    /\ length (ciphertext raw) = length (Encoding.TextEncoder_encode m)
    /\ length fixed = length (Encoding.TextEncoder_encode m)
    /\ (length m <= length (Encoding.TextEncoder_encode m)
        <= 3 * length m)%nat.
Proof.
  intros Hk Hm. pose proof (sharedKey_length calls k Hk) as Hlen.
  pose proof (TextEncoder_encode_small m Hm) as Hsmall. destruct Hm as [Hm _].
  unfold encryptAEAD, encryptRaw, encryptRawFixedNonce, from_string.
  rewrite Hk.
  destruct (crypto_aead_roundtrip (Encoding.TextEncoder_encode m) None
              (fst (randombytes_buf NPUBBYTES e)) k
              (randombytes_buf_length _ _) Hlen) as (c & -> & Hcl & _).
  destruct (streamXOR_roundtrip k (fst (randombytes_buf 8 e))
              (Encoding.TextEncoder_encode m)
              (new_Uint8Array (length (Encoding.TextEncoder_encode m))))
    as (r & -> & Hrl & _);
    [exact Hlen | apply randombytes_buf_length | apply new_Uint8Array_length
    | exact Hsmall |].
  destruct (streamXOR_roundtrip k _fixedNonce (Encoding.TextEncoder_encode m)
              (new_Uint8Array (length (Encoding.TextEncoder_encode m))))
    as (f & -> & Hfl & _);
    [exact Hlen | reflexivity | apply new_Uint8Array_length | exact Hsmall |].
  unfold bind. do 3 eexists. do 3 (split; [reflexivity|]).
  cbn [nonce ciphertext]. rewrite !randombytes_buf_length.
  repeat split; try assumption; now apply TextEncoder_encode_bounds.
Qed.

(** ** Integrity, and the lack of it *)

(** On a session that holds a shared key, changing any byte among the
    last 16 of a ciphertext that [encryptAEAD] returned, the tag,
    makes [decryptAEAD] throw the authentication error: it returns no
    text. *)
Theorem decryptAEAD_rejects_changed_tag (calls : list call) (k : Uint8Array)
  (m : JsString) (e : entropy) :
  _sharedKey (run new calls) = Some k ->
  exists env,
    encryptAEAD (run new calls) m e = Ok env
    /\ length (ciphertext env) = (length (from_string m) + 16)%nat
    /\ forall (i : nat) (v : Z),
         (length (from_string m) <= i < length (ciphertext env))%nat ->
         v <> nth i (ciphertext env) 0 ->
         decryptAEAD (run new calls) (set_at i v (ciphertext env)) (nonce env)
         = Throw cannot_decrypt.
Proof.
  intros Hk. pose proof (sharedKey_length calls k Hk) as Hlen.
  unfold encryptAEAD, decryptAEAD. rewrite Hk.
  unfold crypto_aead_chacha20poly1305_ietf_encrypt.
  rewrite randombytes_buf_length, Hlen. cbn [Nat.eqb NPUBBYTES KEYBYTES negb].
  unfold bind at 1. eexists. split; [reflexivity|].
  cbn [ciphertext nonce or_empty].
  set (n := fst (randombytes_buf NPUBBYTES e)). set (p := from_string m).
  unfold aead_encrypt.
  set (c := chacha20_ietf_xor_ic (ChaCha.blocks (length p)) n 1 k p).
  assert (Hc : length c = length p) by apply (aead_encrypt_body_length p n k).
  set (mac := aead_mac [] c n k).
  assert (Hm : length mac = 16%nat) by apply aead_mac_length.
  split; [rewrite length_app; lia|].
  intros i v Hi Hv. rewrite length_app in Hi.
  replace i with (length c + (i - length c))%nat in * by lia.
  set (j := (i - length c)%nat) in *.
  rewrite set_at_app_r. rewrite app_nth2_plus in Hv.
  unfold crypto_aead_chacha20poly1305_ietf_decrypt.
  rewrite length_app, length_set_at by lia.
  replace (length c + length mac <? ABYTES)%nat with false
    by (symmetry; apply Nat.ltb_ge; unfold ABYTES; lia).
  unfold n at 1. rewrite randombytes_buf_length, Hlen.
  cbn [Nat.eqb NPUBBYTES KEYBYTES negb or_empty]. fold n.
  rewrite aead_decrypt_wrong_tag; [reflexivity | |].
  - rewrite length_set_at; [exact Hm | lia].
  - fold mac. intros Heq. apply Hv.
    rewrite <- (set_at_nth j v mac) by lia. now rewrite Heq.
Qed.

(** The fixed-nonce scheme uses one key stream for every message
    under a key: at every position that two ciphertexts share, their
    exclusive or is the exclusive or of the two messages' UTF-8
    bytes. *)
Theorem encryptRawFixedNonce_reuses_key_stream (calls : list call)
  (k : Uint8Array) (m1 m2 : JsString) :
  _sharedKey (run new calls) = Some k ->
  js_string m1 -> js_string m2 ->
  exists c1 c2,
    encryptRawFixedNonce (run new calls) m1 = Ok c1
    /\ encryptRawFixedNonce (run new calls) m2 = Ok c2
    /\ length c1 = length (Encoding.TextEncoder_encode m1)
    /\ length c2 = length (Encoding.TextEncoder_encode m2)
    /\ forall i : nat,
         (i < length c1)%nat -> (i < length c2)%nat ->
         Z.lxor (nth i c1 0) (nth i c2 0)
         = Z.lxor (nth i (Encoding.TextEncoder_encode m1) 0)
                  (nth i (Encoding.TextEncoder_encode m2) 0).
Proof.
  intros Hk H1 H2. pose proof (sharedKey_length calls k Hk) as Hlen.
  pose proof (TextEncoder_encode_small m1 H1) as Hs1.
  pose proof (TextEncoder_encode_small m2 H2) as Hs2.
  unfold encryptRawFixedNonce. rewrite Hk.
  destruct (streamXOR_roundtrip k _fixedNonce (Encoding.TextEncoder_encode m1)
              (new_Uint8Array (length (Encoding.TextEncoder_encode m1))))
    as (c1 & Hc1 & Hl1 & _);
    [exact Hlen | reflexivity | apply new_Uint8Array_length | exact Hs1 |].
  destruct (streamXOR_roundtrip k _fixedNonce (Encoding.TextEncoder_encode m2)
              (new_Uint8Array (length (Encoding.TextEncoder_encode m2))))
    as (c2 & Hc2 & Hl2 & _);
    [exact Hlen | reflexivity | apply new_Uint8Array_length | exact Hs2 |].
  exists c1, c2. do 4 (split; [assumption|]).
  intros i Hi1 Hi2.
  apply (streamXOR_pointwise k _fixedNonce _ _ _ _ _ _ i Hc1 Hc2);
    rewrite ?new_Uint8Array_length; try reflexivity; lia.
Qed.

(** The two raw schemes have no integrity: for a message of ASCII
    characters, changing byte [i] of the ciphertext by the bits [d]
    makes [decryptRawFixedNonce], and [decryptRaw], return the message
    with character [i] changed by the same bits, and no error. *)
Theorem raw_ciphertext_malleable (calls : list call) (k : Uint8Array)
  (m : JsString) (e : entropy) (i : nat) (d : Z) :
  _sharedKey (run new calls) = Some k ->
  js_string m -> Forall Encoding.ascii_char m -> (i < length m)%nat ->
  Encoding.ascii_char d ->
  (exists c,
     encryptRawFixedNonce (run new calls) m = Ok c
     /\ decryptRawFixedNonce (run new calls)
          (set_at i (Z.lxor (nth i c 0) d) c)
        = Ok (set_at i (Z.lxor (nth i m 0) d) m))
  /\ (exists env,
        encryptRaw (run new calls) m e = Ok env
        /\ decryptRaw (run new calls)
             (set_at i (Z.lxor (nth i (ciphertext env) 0) d)
                (ciphertext env))
             (nonce env)
           = Ok (set_at i (Z.lxor (nth i m 0) d) m)).
Proof.
  intros Hk Hm Ha Hi Hd. pose proof (sharedKey_length calls k Hk) as Hlen.
  split.
  - destruct (tampered_text k _fixedNonce m i d false)
      as (c & Hc & Ht); try assumption; [reflexivity|].
    exists c. unfold encryptRawFixedNonce, decryptRawFixedNonce.
    rewrite Hk. split; [exact Hc | exact Ht].
  - destruct (tampered_text k (fst (randombytes_buf 8 e)) m i d true)
      as (c & Hc & Ht); try assumption; [apply randombytes_buf_length|].
    unfold encryptRaw, decryptRaw. rewrite Hk. unfold from_string.
    rewrite Hc. unfold bind at 1. eexists. split; [reflexivity|].
    cbn [ciphertext nonce]. exact Ht.
Qed.

(** How the raw decryptions fail on a session that holds a shared key,
    for a ciphertext of any bytes: [decryptRawFixedNonce] never throws
    (its decoder replaces what is not UTF-8); [decryptRaw] with an
    8-byte nonce throws a [TypeError], the decoder's, exactly when the
    decrypted bytes are not UTF-8; and with a nonce of neither 8 nor 12
    bytes it throws the [Error] of the stream cipher. *)
Theorem raw_decrypt_failures (calls : list call) (k c : Uint8Array) :
  _sharedKey (run new calls) = Some k ->
  Z.of_nat (length c) < 2 ^ 64 ->
  (exists str, decryptRawFixedNonce (run new calls) c = Ok str)
  /\ (forall n : Uint8Array,
        length n = 8%nat ->
        exists p,
          ChaCha.streamXOR k n c (new_Uint8Array (length c)) = Ok p
          /\ if Encoding.is_utf8 p
             then exists str, decryptRaw (run new calls) c n = Ok str
             else exists msg,
                    decryptRaw (run new calls) c n
                    = Throw (type_error msg))
  /\ (forall n : Uint8Array,
        length n <> 8%nat -> length n <> 12%nat ->
        decryptRaw (run new calls) c n = Throw ChaCha.nonce_size_error).
Proof.
  intros Hk Hc. pose proof (sharedKey_length calls k Hk) as Hlen.
  unfold decryptRawFixedNonce, decryptRaw. rewrite Hk.
  split; [|split].
  - destruct (streamXOR_roundtrip k _fixedNonce c
                (new_Uint8Array (length c))) as (p & -> & _);
      [exact Hlen | reflexivity | apply new_Uint8Array_length | exact Hc |].
    unfold bind. apply TextDecoder_decode_replacement.
  - intros n Hn.
    destruct (streamXOR_roundtrip k n c (new_Uint8Array (length c)))
      as (p & -> & _);
      [exact Hlen | exact Hn | apply new_Uint8Array_length | exact Hc |].
    exists p. split; [reflexivity|]. unfold bind, to_string.
    pose proof (TextDecoder_decode_fatal p) as H.
    destruct (Encoding.is_utf8 p); [exact H|].
    eexists. rewrite H. reflexivity.
  - intros n H8 H12. unfold ChaCha.streamXOR.
    rewrite Hlen, new_Uint8Array_length, Nat.ltb_irrefl.
    cbn [Nat.eqb negb].
    apply Nat.eqb_neq in H8, H12. now rewrite H8, H12.
Qed.

(** ** The static methods and the instance methods *)

(** On a session that holds the shared key [k], [encryptAEAD] is
    [encryptByKeyAEAD] with [k], [decryptAEAD] is [decryptByKeyAEAD]
    with [k], errors included, and what [encryptAEAD] returns
    [decryptByKeyAEAD] with [k] and [raw] set decrypts to the UTF-8
    bytes of the message. *)
Theorem instance_AEAD_is_static (calls : list call) (k : Uint8Array) :
  _sharedKey (run new calls) = Some k ->
  (forall (m : JsString) (e : entropy),
     encryptAEAD (run new calls) m e = encryptByKeyAEAD (inl m) k e)
  /\ (forall ct n : Uint8Array,
        decryptByKeyAEAD ct n k false
        = (str <- decryptAEAD (run new calls) ct n ;; Ok (inl str)))
  /\ (forall (m : JsString) (e : entropy),
        exists env,
          encryptAEAD (run new calls) m e = Ok env
          /\ decryptByKeyAEAD (ciphertext env) (nonce env) k true
             = Ok (inr (from_string m))).
Proof.
  intros Hk. pose proof (sharedKey_length calls k Hk) as Hlen.
  split; [|split].
  - intros m e. unfold encryptAEAD, encryptByKeyAEAD. now rewrite Hk.
  - intros ct n. unfold decryptAEAD, decryptByKeyAEAD. rewrite Hk.
    now destruct (crypto_aead_chacha20poly1305_ietf_decrypt ct None n k).
  - intros m e. unfold encryptAEAD, decryptByKeyAEAD. rewrite Hk.
    destruct (crypto_aead_roundtrip (from_string m) None
                (fst (randombytes_buf NPUBBYTES e)) k
                (randombytes_buf_length _ _) Hlen) as (c & Hc & _ & Hd).
    rewrite Hc. unfold bind at 1. eexists. split; [reflexivity|].
    cbn [ciphertext nonce]. now rewrite Hd.
Qed.

(** ** The session's keys *)

(** Once a session is initialised, no sequence of calls changes its
    key pairs: the public keys and the signature it hands out stay the
    same. *)
Theorem key_pairs_never_change (s : t) (later : list call) :
  _isReady s = true ->
  _ed25519 (run s later) = _ed25519 s
  /\ _x25519 (run s later) = _x25519 s
  /\ _isReady (run s later) = true
  /\ ed25519PublicKey (run s later) = ed25519PublicKey s
  /\ x25519PublicKey (run s later) = x25519PublicKey s
  /\ signDHPublicKey (run s later) = signDHPublicKey s.
Proof.
  intros Hr.
  assert (H : _ed25519 (run s later) = _ed25519 s
              /\ _x25519 (run s later) = _x25519 s
              /\ _isReady (run s later) = true).
  { revert s Hr. induction later as [|c later IH]; intros s Hr;
      [now repeat split|].
    cbn [run fold_left]. destruct (after_ready s c Hr) as (He & Hx & Hr').
    destruct (IH (after s c) Hr') as (He' & Hx' & Hr'').
    unfold run in *. rewrite He', Hx', He, Hx. now repeat split. }
  destruct H as (He & Hx & Hr').
  unfold ed25519PublicKey, x25519PublicKey, signDHPublicKey.
  rewrite He, Hx. now repeat split.
Qed.

(** Whatever was called on a session since its construction, it is in
    one of two states: never initialised, with no key at all; or
    initialised, with a signing pair of 32 and 64 bytes, an X25519
    pair of 32 and 32 bytes, and a shared key, when it has one, of 32
    bytes.  A shared key is never held without the key pairs. *)
Theorem session_states (calls : list call) :
  let s := run new calls in
  (_isReady s = false /\ s = new)
  \/ (_isReady s = true
      /\ (exists ed x,
            _ed25519 s = Some ed /\ _x25519 s = Some x
            /\ length (publicKey ed) = 32%nat
            /\ length (privateKey ed) = 64%nat
            /\ length (publicKey x) = 32%nat
            /\ length (privateKey x) = 32%nat)
      /\ forall k, _sharedKey s = Some k -> length k = 32%nat).
Proof.
  intros s. pose proof (invariant_run calls new invariant_new) as [Hk I].
  fold s in Hk, I. destruct (_isReady s) eqn:Er.
  - right. split; [reflexivity|]. split; [|exact Hk].
    destruct I as ((ed & Hed & seed & Hseed & ->) & x & Hx & sk & Hsk & ->).
    exists (mkKeyPair "ed25519"
              (seed ++ le_encode 32 (Ed25519_public seed))
              (le_encode 32 (Ed25519_public seed))),
      (mkKeyPair "x25519" sk (le_encode 32 (X25519 sk basepoint))).
    cbn [publicKey privateKey].
    rewrite length_app, !le_encode_length, Hseed, Hsk. now repeat split.
  - left. split; [reflexivity|]. destruct I as (He & Hx & Hs).
    destruct s as [ed x sh r]. cbn in *. now subst.
Qed.

(** [computeSharedKey] on an initialised session either stores and
    returns a 32-byte key, replacing the one held, and touches nothing
    else; or throws and leaves the session as it was, the key held
    before included: a [TypeError] when the peer's key is not 32 bytes
    long, the "weak public key" [Error] otherwise. *)
Theorem computeSharedKey_outcome (calls : list call) (peer : Uint8Array) :
  let s := run new calls in
  _isReady s = true ->
  match computeSharedKey s peer with
  | (s', Ok k) =>
      length peer = 32%nat /\ length k = 32%nat
      /\ s' = mk (_ed25519 s) (_x25519 s) (Some k) true
  | (s', Throw err) =>
      s' = s
      /\ (length peer <> 32%nat ->
          err = type_error "invalid publicKey length")
      /\ (length peer = 32%nat -> err = weak_public_key)
  end.
Proof.
  intros s Hr. pose proof (invariant_run calls new invariant_new) as [_ I].
  fold s in I. rewrite Hr in I. destruct I as (_ & x & Hx & sk & Hsk & ->).
  unfold computeSharedKey, crypto_scalarmult. rewrite Hx, Hr.
  cbn [privateKey]. rewrite Hsk. cbn [Nat.eqb negb].
  destruct (Nat.eqb_spec (length peer) 32) as [Hp|Hp]; cbn [negb].
  - destruct (forallb _ _).
    + split; [reflexivity|]. split; [contradiction | reflexivity].
    + split; [exact Hp|]. split; [apply le_encode_length | reflexivity].
  - split; [reflexivity|]. split; [reflexivity | contradiction].
Qed.

(** ** The handshake *)

(** On an initialised session [exportPublicIdentity] returns the two
    public keys the accessors return, 32 bytes each, and the 64-byte
    signature [signDHPublicKey] returns; and, a genuine Ed25519
    signature being one that verifies, [verifyDHSignature] on the three
    returns true. *)
Theorem exportPublicIdentity_bundle {SC : SignatureCorrect P}
  (calls : list call) :
  _isReady (run new calls) = true ->
  exists id,
    exportPublicIdentity (run new calls) = Ok id
    /\ ed25519PublicKey (run new calls)
       = Ok (PublicIdentity.ed25519PublicKey id)
    /\ x25519PublicKey (run new calls) = Ok (PublicIdentity.dhPublicKey id)
    /\ signDHPublicKey (run new calls) = Ok (PublicIdentity.dhSignature id)
    /\ length (PublicIdentity.ed25519PublicKey id) = 32%nat
    /\ length (PublicIdentity.dhPublicKey id) = 32%nat
    /\ length (PublicIdentity.dhSignature id) = 64%nat
    /\ verifyDHSignature (PublicIdentity.dhPublicKey id)
         (PublicIdentity.dhSignature id)
         (PublicIdentity.ed25519PublicKey id) = Ok true.
Proof.
  intros Hr.
  pose proof (invariant_run calls new invariant_new) as [_ I].
  rewrite Hr in I.
  destruct I as ((ed & Hed & seed & Hseed & ->) & x & Hx & sk & Hsk & ->).
  unfold exportPublicIdentity, signDHPublicKey, ed25519PublicKey,
    x25519PublicKey.
  rewrite Hed, Hx. cbn [publicKey privateKey].
  unfold crypto_sign_detached.
  rewrite length_app, Hseed, le_encode_length.
  cbn [Nat.add Nat.eqb negb]. unfold bind.
  eexists. split; [reflexivity|].
  cbn [PublicIdentity.ed25519PublicKey PublicIdentity.dhPublicKey
       PublicIdentity.dhSignature].
  do 3 (split; [reflexivity|]).
  do 3 (split; [apply le_encode_length|]).
  unfold verifyDHSignature, crypto_sign_verify_detached.
  rewrite !le_encode_length. cbn [Nat.eqb negb].
  now rewrite Ed25519_correct.
Qed.

(** Under the Diffie-Hellman laws of Curve25519: two initialised
    sessions export their identities, each calls [computeSharedKey] on
    the X25519 key the other exported, both obtain the same key, and
    what the first then encrypts with [encryptAEAD] the second decrypts
    with [decryptAEAD] to the message made well formed and without its
    leading U+FEFF. *)
Theorem handshake_delivers {DH : DiffieHellman P}
  (callsA callsB : list call) (m : JsString) (e : entropy) :
  _isReady (run new callsA) = true ->
  _isReady (run new callsB) = true ->
  js_string m ->
  exists idA idB A B k env,
    exportPublicIdentity (run new callsA) = Ok idA
    /\ exportPublicIdentity (run new callsB) = Ok idB
    /\ computeSharedKey (run new callsA) (PublicIdentity.dhPublicKey idB)
       = (A, Ok k)
    /\ computeSharedKey (run new callsB) (PublicIdentity.dhPublicKey idA)
       = (B, Ok k)
    /\ encryptAEAD A m e = Ok env
    /\ decryptAEAD B (ciphertext env) (nonce env) = Ok (Encoding.received m).
Proof.
  intros Ha Hb [Hm _].
  pose proof (invariant_run callsA new invariant_new) as [_ Ia].
  pose proof (invariant_run callsB new invariant_new) as [_ Ib].
  rewrite Ha in Ia. rewrite Hb in Ib.
  destruct Ia as ((eda & Heda & sa & Hsa & ->) & xa & Hxa & a & Hal & ->).
  destruct Ib as ((edb & Hedb & sb & Hsb & ->) & xb & Hxb & b & Hbl & ->).
  destruct (crypto_aead_roundtrip (from_string m) None
              (fst (randombytes_buf NPUBBYTES e))
              (le_encode 32 (X25519 a (le_encode 32 (X25519 b basepoint))))
              (randombytes_buf_length _ _) (le_encode_length 32 _))
    as (c & Hc & _ & Hd).
  do 6 eexists.
  split.
  { unfold exportPublicIdentity, signDHPublicKey, crypto_sign_detached.
    rewrite Heda, Hxa. cbn [publicKey privateKey].
    rewrite length_app, Hsa, le_encode_length. reflexivity. }
  split.
  { unfold exportPublicIdentity, signDHPublicKey, crypto_sign_detached.
    rewrite Hedb, Hxb. cbn [publicKey privateKey].
    rewrite length_app, Hsb, le_encode_length. reflexivity. }
  cbn [PublicIdentity.dhPublicKey]. unfold computeSharedKey.
  rewrite Hxa, Hxb. cbn [privateKey].
  rewrite !crypto_scalarmult_public by assumption.
  split; [reflexivity|].
  split; [now rewrite (X25519_commutes b a Hbl Hal)|].
  unfold encryptAEAD, decryptAEAD. cbn [_sharedKey].
  rewrite Hc. unfold bind at 1. split; [reflexivity|].
  cbn [ciphertext nonce]. rewrite Hd. unfold bind, to_string, from_string.
  now apply TextDecoder_decode_TextEncoder_encode.
Qed.

(** ** The accessor *)

(** [getSecureChatService] returns one and the same object on every
    call, whatever happens before and between the calls: the first
    call makes the object when there is none, a later call makes
    nothing and changes nothing, and the object it returns is the first
    call's object with every call made through that reference
    applied. *)
Theorem getSecureChatService_singleton (before between : list event) :
  let '(st1, r1) := getSecureChatService (run_events initial before) in
  let '(st2, r2) := getSecureChatService (run_events st1 between) in
  r2 = r1
  /\ st2 = run_events st1 between
  /\ exists obj,
       deref st1 r1 = Some obj
       /\ deref st2 r2 = Some (run obj (calls_on r1 between)).
Proof.
  pose proof (valid_run before initial valid_initial) as Hv.
  set (st0 := run_events initial before) in *.
  assert (H1 : _instance (fst (getSecureChatService st0))
               = Some (snd (getSecureChatService st0))
               /\ (snd (getSecureChatService st0)
                   < length (objects (fst (getSecureChatService st0))))%nat).
  { unfold getSecureChatService. destruct (_instance st0) eqn:Ei; cbn.
    - split; [exact Ei | now apply Hv].
    - split; [reflexivity|]. rewrite length_app. cbn. lia. }
  destruct (getSecureChatService st0) as [st1 r1]. cbn [fst snd] in H1.
  destruct H1 as [Hi Hr].
  pose proof (instance_run between st1 r1 Hi) as Hi2.
  unfold getSecureChatService at 1. rewrite Hi2.
  split; [reflexivity|]. split; [reflexivity|].
  rewrite deref_run by exact Hr.
  unfold deref. destruct (nth_error (objects st1) r1) as [obj|] eqn:E.
  - exists obj. now split.
  - apply nth_error_None in E. lia.
Qed.

End WithPrimitives.

(** ** The static AEAD methods *)

(** With a 32-byte key, [encryptByKeyAEAD] returns an envelope with a
    12-byte nonce for a string or for bytes, and [decryptByKeyAEAD]
    with [raw] set returns the bytes encrypted.  Without [raw] it
    returns, for a string message, the string made well formed and
    without its leading U+FEFF; for a bytes message it throws a
    [TypeError], the decoder's, exactly when the bytes are not UTF-8. *)
Theorem decryptByKeyAEAD_encryptByKeyAEAD (message : JsString + Uint8Array)
  (sharedKey : Uint8Array) (e : entropy) :
  length sharedKey = 32%nat ->
  exists env,
    encryptByKeyAEAD message sharedKey e = Ok env
    /\ length (nonce env) = 12%nat
    /\ decryptByKeyAEAD (ciphertext env) (nonce env) sharedKey true
       = Ok (inr match message with
                 | inl str => from_string str
                 | inr bytes => bytes
                 end)
    /\ match message with
       | inl str =>
           Forall code_unit str ->
           decryptByKeyAEAD (ciphertext env) (nonce env) sharedKey false
           = Ok (inl (Encoding.received str))
       | inr bytes =>
           if Encoding.is_utf8 bytes
           then exists str,
                  decryptByKeyAEAD (ciphertext env) (nonce env) sharedKey
                    false = Ok (inl str)
           else exists msg,
                  decryptByKeyAEAD (ciphertext env) (nonce env) sharedKey
                    false = Throw (type_error msg)
       end.
Proof.
  intros Hlen. unfold encryptByKeyAEAD, decryptByKeyAEAD.
  set (data := match message with inl str => from_string str
                                | inr bytes => bytes end).
  destruct (crypto_aead_roundtrip data None
              (fst (randombytes_buf NPUBBYTES e)) sharedKey
              (randombytes_buf_length _ _) Hlen) as (c & Hc & _ & Hd).
  rewrite Hc. unfold bind at 1. eexists. split; [reflexivity|].
  cbn [ciphertext nonce]. rewrite Hd. cbn [bind].
  split; [apply randombytes_buf_length|]. split; [reflexivity|].
  unfold to_string. subst data. destruct message as [str|bytes].
  - intros Hs. unfold from_string.
    now rewrite TextDecoder_decode_TextEncoder_encode.
  - pose proof (TextDecoder_decode_fatal bytes) as H.
    destruct (Encoding.is_utf8 bytes).
    + destruct H as [str H]. exists str. now rewrite H.
    + eexists. rewrite H. reflexivity.
Qed.

(** With a key that is not 32 bytes long neither static method
    returns: [encryptByKeyAEAD] throws the [TypeError] "invalid key
    length", and [decryptByKeyAEAD] a [TypeError] whatever its other
    arguments, never the authentication error. *)
Theorem static_AEAD_wrong_key_size (message : JsString + Uint8Array)
  (sharedKey ciphertext nonce : Uint8Array) (raw : bool) (e : entropy) :
  length sharedKey <> 32%nat ->
  encryptByKeyAEAD message sharedKey e
  = Throw (type_error "invalid key length")
  /\ exists msg,
       decryptByKeyAEAD ciphertext nonce sharedKey raw
       = Throw (type_error msg).
Proof.
  intros Hk. apply Nat.eqb_neq in Hk.
  unfold encryptByKeyAEAD, decryptByKeyAEAD,
    crypto_aead_chacha20poly1305_ietf_encrypt,
    crypto_aead_chacha20poly1305_ietf_decrypt.
  rewrite randombytes_buf_length. unfold KEYBYTES. rewrite Hk.
  cbn [Nat.eqb NPUBBYTES negb bind]. split; [reflexivity|].
  destruct (_ <? _)%nat; [eexists; reflexivity|].
  destruct (negb _); eexists; reflexivity.
Qed.

(** ** Hexadecimal *)

(** What [hexToUint8Array] does on every string, read as its longest
    run of leading hexadecimal digits and the rest: with an odd number
    of digits it throws "invalid input"; with an even number it returns
    the bytes the digit pairs stand for when nothing follows, and
    throws "incomplete input" when something does. *)
Theorem hexToUint8Array_outcome (digits rest : JsString) :
  js_string (digits ++ rest) ->
  Forall hex_digit digits ->
  match rest with [] => True | c :: _ => is_hex_digit c = false end ->
  hexToUint8Array (digits ++ rest)
  = if Nat.odd (length digits) then Throw invalid_input
    else match rest with
         | [] => Ok (hex_bytes digits)
         | _ :: _ => Throw incomplete_input
         end.
Proof.
  intros [Hs _] Hd Hrest. unfold hexToUint8Array.
  destruct rest as [|c t].
  - rewrite app_nil_r in *.
    destruct (Nat.odd (length digits)) eqn:Eo.
    + apply Nat.odd_spec in Eo as [half Hhalf].
      destruct (exists_last (l := digits)) as (front & x & ->).
      { intros ->. cbn [length] in Hhalf. lia. }
      rewrite length_app in Hhalf. cbn [length] in Hhalf.
      apply Forall_app in Hd as [Hf Hx]. apply Forall_inv in Hx.
      unfold from_hex, sodium_hex2bin, from_string.
      rewrite TextEncoder_encode_ascii.
      2:{ apply Forall_app. split; [|constructor; [|constructor]].
          - eapply Forall_impl; [|exact Hf]. intros; now apply hex_digit_ascii.
          - now apply hex_digit_ascii. }
      rewrite length_app. cbn [length].
      replace (Nat.div (length front + 1) 2) with half.
      2:{ replace (length front + 1)%nat with (1 + half * 2)%nat by lia.
          rewrite Nat.div_add by lia. reflexivity. }
      destruct (hex2bin_loop_app half front [x] Hf 0%nat [] 0 false)
        as (bin' & acc' & state' & -> & Hl); [cbn [length pending]; lia|].
      cbn [length pending] in Hl.
      destruct state'; cbn [pending] in Hl; [lia|].
      cbn [hex2bin_loop]. rewrite digit_class by now apply hex_digit_byte.
      unfold hex_digit in Hx. rewrite Hx. cbn [negb].
      replace (half <=? length bin')%nat with true
        by (symmetry; apply Nat.leb_le; lia).
      reflexivity.
    + rewrite <- Nat.negb_even in Eo. apply negb_false_iff in Eo.
      now apply from_hex_pairs.
  - destruct (not_hex_digit_head c t) as (b & r & Eb & Hb & Hnb);
      [now apply Forall_app in Hs | exact Hrest |].
    unfold from_hex, sodium_hex2bin, from_string.
    rewrite TextEncoder_encode_digits_app, Eb by exact Hd.
    rewrite length_app. cbn [length].
    replace (length digits + S (length r))%nat
      with (S (length digits + length r)) by lia.
    destruct (hex2bin_loop_app (Nat.div (S (length digits + length r)) 2)
                digits (b :: r) Hd 0%nat [] 0 false)
      as (bin' & acc' & state' & -> & Hl).
    { cbn [length pending].
      pose proof (half_room (length digits + length r)). lia. }
    cbn [length pending] in Hl.
    cbn [hex2bin_loop]. rewrite digit_class by exact Hb.
    rewrite Hnb. cbn [negb Nat.add].
    destruct (Nat.odd (length digits)) eqn:Eo.
    + apply Nat.odd_spec in Eo as [half Hhalf].
      destruct state'; cbn [pending] in Hl; [reflexivity | lia].
    + rewrite <- Nat.negb_even in Eo. apply negb_false_iff in Eo.
      apply Nat.even_spec in Eo as [half Hhalf].
      destruct state'; cbn [pending] in Hl; [lia|].
      cbn [h_ret h_hex_pos Z.eqb negb].
      replace (length digits =? S (length digits + length r))%nat with false
        by (symmetry; apply Nat.eqb_neq; lia).
      reflexivity.
Qed.

(** [hexToUint8Array] reads back what [uint8ArrayToHex] wrote, which is
    two lower-case hexadecimal digits per byte. *)
Theorem hexToUint8Array_uint8ArrayToHex (bytes : Uint8Array) :
  Forall byte bytes ->
  hexToUint8Array (uint8ArrayToHex bytes) = Ok bytes
  /\ length (uint8ArrayToHex bytes) = (2 * length bytes)%nat
  /\ Forall (fun c => is_lower_hex_digit c = true) (uint8ArrayToHex bytes).
Proof.
  intros Hb. unfold hexToUint8Array, uint8ArrayToHex.
  split; [now apply from_hex_to_hex|].
  split; [now apply to_hex_length | now apply to_hex_lower].
Qed.

(** On an even number of hexadecimal digits, in either case,
    [hexToUint8Array] returns half as many bytes, and
    [uint8ArrayToHex] writes them back as the same digits in lower
    case. *)
Theorem uint8ArrayToHex_hexToUint8Array (hexString : JsString) :
  Forall hex_digit hexString ->
  Nat.even (length hexString) = true ->
  exists bytes,
    hexToUint8Array hexString = Ok bytes
    /\ Forall byte bytes
    /\ (2 * length bytes = length hexString)%nat
    /\ uint8ArrayToHex bytes = map hex_lower hexString.
Proof.
  intros Hd He. exists (hex_bytes hexString).
  unfold hexToUint8Array, uint8ArrayToHex.
  split; [now apply from_hex_pairs | now apply hex_bytes_spec].
Qed.

(** ** The properties on the sample sessions *)

(** U+FEFF "hi" through [encryptAEAD] on [alice] after the handshake. *)
Lemma decryptAEAD_returns_received_witness :
  exists env,
    encryptAEAD (run (P := primitives) new handshake) bom_hi entropy_n = Ok env
    /\ decryptAEAD (run (P := primitives) new handshake) (ciphertext env)
         (nonce env) = Ok (Encoding.received bom_hi)
    /\ (Encoding.received bom_hi = bom_hi
        <-> Encoding.isWellFormed bom_hi = true
            /\ Encoding.starts_with_BOM bom_hi = false).
Proof.
  apply (decryptAEAD_returns_received (P := primitives) handshake shared
           bom_hi entropy_n).
  - exact handshake_stores.
  - split; [repeat constructor; unfold code_unit; lia | simpl; lia].
Defined.

(** An unpaired surrogate through [encryptRaw]. *)
Lemma decryptRaw_returns_received_witness :
  exists env,
    encryptRaw (run (P := primitives) new handshake) lone entropy_n = Ok env
    /\ decryptRaw (run (P := primitives) new handshake) (ciphertext env)
         (nonce env) = Ok (Encoding.received lone).
Proof.
  apply (decryptRaw_returns_received (P := primitives) handshake shared
           lone entropy_n).
  - exact handshake_stores.
  - split; [repeat constructor; unfold code_unit; lia | simpl; lia].
Defined.

(** U+FEFF "hi" through [encryptRawFixedNonce]. *)
Lemma decryptRawFixedNonce_returns_received_witness :
  exists c,
    encryptRawFixedNonce (run (P := primitives) new handshake) bom_hi = Ok c
    /\ decryptRawFixedNonce (run (P := primitives) new handshake) c
       = Ok (Encoding.received bom_hi).
Proof.
  apply (decryptRawFixedNonce_returns_received (P := primitives) handshake
           shared bom_hi).
  - exact handshake_stores.
  - split; [repeat constructor; unfold code_unit; lia | simpl; lia].
Defined.

(** The sizes for an unpaired surrogate: one code unit, three bytes. *)
Lemma ciphertext_sizes_witness :
  exists aead raw fixed,
    encryptAEAD (run (P := primitives) new handshake) lone entropy_n = Ok aead
    /\ encryptRaw (run (P := primitives) new handshake) lone entropy_n = Ok raw
    /\ encryptRawFixedNonce (run (P := primitives) new handshake) lone
       = Ok fixed
    /\ length (nonce aead) = 12%nat
    /\ length (ciphertext aead)
       = (length (Encoding.TextEncoder_encode lone) + 16)%nat
    /\ length (nonce raw) = 8%nat
    /\ length (ciphertext raw) = length (Encoding.TextEncoder_encode lone)
    /\ length fixed = length (Encoding.TextEncoder_encode lone)
    /\ (length lone <= length (Encoding.TextEncoder_encode lone)
        <= 3 * length lone)%nat.
Proof.
  apply (ciphertext_sizes (P := primitives) handshake shared lone entropy_n).
  - exact handshake_stores.
  - split; [repeat constructor; unfold code_unit; lia | simpl; lia].
Defined.

(** The tag of the ciphertext of "hi". *)
Lemma decryptAEAD_rejects_changed_tag_witness :
  exists env,
    encryptAEAD (run (P := primitives) new handshake) hi entropy_n = Ok env
    /\ length (ciphertext env) = (length (from_string hi) + 16)%nat
    /\ forall (i : nat) (v : Z),
         (length (from_string hi) <= i < length (ciphertext env))%nat ->
         v <> nth i (ciphertext env) 0 ->
         decryptAEAD (run (P := primitives) new handshake)
           (set_at i v (ciphertext env)) (nonce env)
         = Throw cannot_decrypt.
Proof.
  apply (decryptAEAD_rejects_changed_tag (P := primitives) handshake shared
           hi entropy_n).
  exact handshake_stores.
Defined.

(** "hi" and U+FEFF "hi" under the fixed nonce. *)
Lemma encryptRawFixedNonce_reuses_key_stream_witness :
  exists c1 c2,
    encryptRawFixedNonce (run (P := primitives) new handshake) hi = Ok c1
    /\ encryptRawFixedNonce (run (P := primitives) new handshake) bom_hi
       = Ok c2
    /\ length c1 = length (Encoding.TextEncoder_encode hi)
    /\ length c2 = length (Encoding.TextEncoder_encode bom_hi)
    /\ forall i : nat,
         (i < length c1)%nat -> (i < length c2)%nat ->
         Z.lxor (nth i c1 0) (nth i c2 0)
         = Z.lxor (nth i (Encoding.TextEncoder_encode hi) 0)
                  (nth i (Encoding.TextEncoder_encode bom_hi) 0).
Proof.
  apply (encryptRawFixedNonce_reuses_key_stream (P := primitives) handshake
           shared hi bom_hi).
  - exact handshake_stores.
  - split; [repeat constructor; unfold code_unit; lia | simpl; lia].
  - split; [repeat constructor; unfold code_unit; lia | simpl; lia].
Defined.

(** "hi" becomes "ii" when the lowest bit of the first byte of its
    ciphertext is flipped. *)
Lemma raw_ciphertext_malleable_witness :
  (exists c,
     encryptRawFixedNonce (run (P := primitives) new handshake) hi = Ok c
     /\ decryptRawFixedNonce (run (P := primitives) new handshake)
          (set_at 0 (Z.lxor (nth 0 c 0) 1) c)
        = Ok (set_at 0 (Z.lxor (nth 0 hi 0) 1) hi))
  /\ (exists env,
        encryptRaw (run (P := primitives) new handshake) hi entropy_n = Ok env
        /\ decryptRaw (run (P := primitives) new handshake)
             (set_at 0 (Z.lxor (nth 0 (ciphertext env) 0) 1)
                (ciphertext env))
             (nonce env)
           = Ok (set_at 0 (Z.lxor (nth 0 hi 0) 1) hi)).
Proof.
  apply (raw_ciphertext_malleable (P := primitives) handshake shared hi
           entropy_n 0%nat 1).
  - exact handshake_stores.
  - split; [repeat constructor; unfold code_unit; lia | simpl; lia].
  - repeat constructor; unfold Encoding.ascii_char; lia.
  - simpl. lia.
  - unfold Encoding.ascii_char. lia.
Defined.

(** Twenty zero bytes as a raw ciphertext. *)
Lemma raw_decrypt_failures_witness :
  (exists str,
     decryptRawFixedNonce (run (P := primitives) new handshake) zeros_20
     = Ok str)
  /\ (forall n : Uint8Array,
        length n = 8%nat ->
        exists p,
          ChaCha.streamXOR shared n zeros_20
            (new_Uint8Array (length zeros_20)) = Ok p
          /\ if Encoding.is_utf8 p
             then exists str,
                    decryptRaw (run (P := primitives) new handshake)
                      zeros_20 n = Ok str
             else exists msg,
                    decryptRaw (run (P := primitives) new handshake)
                      zeros_20 n = Throw (type_error msg))
  /\ (forall n : Uint8Array,
        length n <> 8%nat -> length n <> 12%nat ->
        decryptRaw (run (P := primitives) new handshake) zeros_20 n
        = Throw ChaCha.nonce_size_error).
Proof.
  apply (raw_decrypt_failures (P := primitives) handshake shared zeros_20).
  - exact handshake_stores.
  - simpl. lia.
Defined.

(** The instance methods of [alice] and the static methods with the
    shared key. *)
Lemma instance_AEAD_is_static_witness :
  (forall (m : JsString) (e : entropy),
     encryptAEAD (run (P := primitives) new handshake) m e
     = encryptByKeyAEAD (inl m) shared e)
  /\ (forall ct n : Uint8Array,
        decryptByKeyAEAD ct n shared false
        = (str <- decryptAEAD (run (P := primitives) new handshake) ct n ;;
           Ok (inl str)))
  /\ (forall (m : JsString) (e : entropy),
        exists env,
          encryptAEAD (run (P := primitives) new handshake) m e = Ok env
          /\ decryptByKeyAEAD (ciphertext env) (nonce env) shared true
             = Ok (inr (from_string m))).
Proof.
  apply (instance_AEAD_is_static (P := primitives) handshake shared).
  exact handshake_stores.
Defined.

(** The key pairs of [alice] after a history of calls. *)
Lemma key_pairs_never_change_witness :
  _ed25519 (run (P := primitives) alice history_without_key) = _ed25519 alice
  /\ _x25519 (run (P := primitives) alice history_without_key) = _x25519 alice
  /\ _isReady (run (P := primitives) alice history_without_key) = true
  /\ ed25519PublicKey (run (P := primitives) alice history_without_key)
     = ed25519PublicKey alice
  /\ x25519PublicKey (run (P := primitives) alice history_without_key)
     = x25519PublicKey alice
  /\ signDHPublicKey (P := primitives)
       (run (P := primitives) alice history_without_key)
     = signDHPublicKey (P := primitives) alice.
Proof.
  apply (key_pairs_never_change (P := primitives) alice history_without_key).
  reflexivity.
Defined.

(** [computeSharedKey] with a 16-byte peer key. *)
Lemma computeSharedKey_outcome_witness :
  match computeSharedKey (P := primitives)
          (run (P := primitives) new [Init entropy_a]) short_key with
  | (s', Ok k) =>
      length short_key = 32%nat /\ length k = 32%nat
      /\ s' = mk (_ed25519 (run (P := primitives) new [Init entropy_a]))
                (_x25519 (run (P := primitives) new [Init entropy_a]))
                (Some k) true
  | (s', Throw err) =>
      s' = run (P := primitives) new [Init entropy_a]
      /\ (length short_key <> 32%nat ->
          err = type_error "invalid publicKey length")
      /\ (length short_key = 32%nat -> err = weak_public_key)
  end.
Proof.
  apply (computeSharedKey_outcome (P := primitives) [Init entropy_a]
           short_key).
  reflexivity.
Defined.

(** The identity [bob] exports. *)
Lemma exportPublicIdentity_bundle_witness :
  exists id,
    exportPublicIdentity (P := primitives)
      (run (P := primitives) new [Init entropy_b]) = Ok id
    /\ ed25519PublicKey (run (P := primitives) new [Init entropy_b])
       = Ok (PublicIdentity.ed25519PublicKey id)
    /\ x25519PublicKey (run (P := primitives) new [Init entropy_b])
       = Ok (PublicIdentity.dhPublicKey id)
    /\ signDHPublicKey (P := primitives)
         (run (P := primitives) new [Init entropy_b])
       = Ok (PublicIdentity.dhSignature id)
    /\ length (PublicIdentity.ed25519PublicKey id) = 32%nat
    /\ length (PublicIdentity.dhPublicKey id) = 32%nat
    /\ length (PublicIdentity.dhSignature id) = 64%nat
    /\ verifyDHSignature (P := primitives) (PublicIdentity.dhPublicKey id)
         (PublicIdentity.dhSignature id)
         (PublicIdentity.ed25519PublicKey id) = Ok true.
Proof.
  apply (exportPublicIdentity_bundle (P := primitives)
           (SC := sample_SignatureCorrect) [Init entropy_b]).
  reflexivity.
Defined.

(** The handshake of the two sample sessions, and "hi" from one to the
    other. *)
Lemma handshake_delivers_witness :
  exists idA idB A B k env,
    exportPublicIdentity (P := primitives)
      (run (P := primitives) new [Init entropy_a]) = Ok idA
    /\ exportPublicIdentity (P := primitives)
         (run (P := primitives) new [Init entropy_b]) = Ok idB
    /\ computeSharedKey (P := primitives)
         (run (P := primitives) new [Init entropy_a])
         (PublicIdentity.dhPublicKey idB) = (A, Ok k)
    /\ computeSharedKey (P := primitives)
         (run (P := primitives) new [Init entropy_b])
         (PublicIdentity.dhPublicKey idA) = (B, Ok k)
    /\ encryptAEAD A hi entropy_n = Ok env
    /\ decryptAEAD B (ciphertext env) (nonce env)
       = Ok (Encoding.received hi).
Proof.
  apply (handshake_delivers (P := primitives) (DH := sample_DiffieHellman)
           [Init entropy_a] [Init entropy_b] hi entropy_n).
  - reflexivity.
  - reflexivity.
  - split; [repeat constructor; unfold code_unit; lia | simpl; lia].
Defined.

(** Two bytes that are not UTF-8 through the static methods. *)
Lemma decryptByKeyAEAD_encryptByKeyAEAD_witness :
  exists env,
    encryptByKeyAEAD (inr binary) shared entropy_n = Ok env
    /\ length (nonce env) = 12%nat
    /\ decryptByKeyAEAD (ciphertext env) (nonce env) shared true
       = Ok (inr binary)
    /\ if Encoding.is_utf8 binary
       then exists str,
              decryptByKeyAEAD (ciphertext env) (nonce env) shared false
              = Ok (inl str)
       else exists msg,
              decryptByKeyAEAD (ciphertext env) (nonce env) shared false
              = Throw (type_error msg).
Proof.
  apply (decryptByKeyAEAD_encryptByKeyAEAD (inr binary) shared entropy_n).
  reflexivity.
Defined.

(** The static methods with a 16-byte key. *)
Lemma static_AEAD_wrong_key_size_witness :
  encryptByKeyAEAD (inl hi) short_key entropy_n
  = Throw (type_error "invalid key length")
  /\ exists msg,
       decryptByKeyAEAD zeros_20 zeros_12 short_key false
       = Throw (type_error msg).
Proof.
  apply (static_AEAD_wrong_key_size (inl hi) short_key zeros_20 zeros_12
           false entropy_n).
  simpl. lia.
Defined.

(** "abg": two digits, then a character that is no digit. *)
Lemma hexToUint8Array_outcome_witness :
  hexToUint8Array (digits_ab ++ letter_g)
  = if Nat.odd (length digits_ab) then Throw invalid_input
    else match letter_g with
         | [] => Ok (hex_bytes digits_ab)
         | _ :: _ => Throw incomplete_input
         end.
Proof.
  apply (hexToUint8Array_outcome digits_ab letter_g).
  - split; [repeat constructor; unfold code_unit; lia | simpl; lia].
  - repeat constructor.
  - reflexivity.
Defined.

(** The bytes FF FE as "fffe" and back. *)
Lemma hexToUint8Array_uint8ArrayToHex_witness :
  hexToUint8Array (uint8ArrayToHex binary) = Ok binary
  /\ length (uint8ArrayToHex binary) = (2 * length binary)%nat
  /\ Forall (fun c => is_lower_hex_digit c = true) (uint8ArrayToHex binary).
Proof.
  apply (hexToUint8Array_uint8ArrayToHex binary).
  repeat constructor; unfold byte; lia.
Defined.

(** "dEaD" is read as DE AD and written back as "dead". *)
Lemma uint8ArrayToHex_hexToUint8Array_witness :
  exists bytes,
    hexToUint8Array digits_dEaD = Ok bytes
    /\ Forall byte bytes
    /\ (2 * length bytes = length digits_dEaD)%nat
    /\ uint8ArrayToHex bytes = map hex_lower digits_dEaD.
Proof.
  apply (uint8ArrayToHex_hexToUint8Array digits_dEaD).
  - repeat constructor.
  - reflexivity.
Defined.

End Properties.
